(** * foursquare-mcp: token store, session provider and authorization flow

    A shallow embedding of [src/token.ts] (class [TokenManager]),
    [src/api.ts] (class [FoursquareAPI]) and [src/auth.ts] (function
    [authenticate]) together with the parts of the JavaScript runtime they
    rest on: [JSON.stringify] / [JSON.parse], truthiness, property reads,
    [fs.readFile] / [fs.writeFile] / [fs.mkdir] and [fetch].

    Conventions.
    - A JavaScript string is the list of its UTF-16 code units ([jsstring]).
    - A number is a rational ([Q]).  [JSON.parse] keeps the exact value
      of a literal; [JSON.stringify] prints the binary64 value nearest to
      the number, which for a safe integer is the integer itself.
      Timestamps and lifetimes of a [TokenInfo] are integers.
    - Every [async] method is a computation in the monad [M]: it threads
      the [World] (file system, environment, clock, network, the two
      singletons and the log of effects) and either returns or throws.
      [isTokenValid] is [Unmodelled] where its arithmetic would coerce a
      stored field that is not a number.
    - The authorization flow is a state machine over the events of the
      event loop: requests on new and on kept-alive connections, replies
      of the token endpoint, time passing.

    Layout: the definitions come first (runtime, config.ts, token.ts,
    api.ts, auth.ts), then the lemmas on the JSON codec, then the
    theorems on the store, the session and the flow. *)

From Stdlib Require Import List ZArith NArith QArith Bool Lia String Ascii.
From Stdlib Require Import DecimalN DecimalFacts.
Import ListNotations.

Local Open Scope N_scope.

(* ================================================================== *)
(** * JavaScript strings and values *)
(* ================================================================== *)

Definition jsstring := list N.

(** Code unit of an ASCII character, and the [jsstring] of an ASCII literal. *)
Definition ch (a : ascii) : N := N_of_ascii a.

Definition units (s : string) : jsstring := map ch (list_ascii_of_string s).

Fixpoint jsstring_eqb (a b : jsstring) : bool :=
  match a, b with
  | [], [] => true
  | x :: a', y :: b' => (x =? y) && jsstring_eqb a' b'
  | _, _ => false
  end.

(** The values [JSON.parse] can produce, plus [undefined] (the result of
    reading a property that is not there). *)
#[warnings="-register-all"]
Inductive value : Type :=
| VUndefined
| VNull
| VBool (b : bool)
| VNum (q : Q)
| VStr (s : jsstring)
| VArr (items : list value)
| VObj (members : list (jsstring * value)).

(** ToBoolean: what [if (v)] and [!v] test. *)
Definition truthy (v : value) : bool :=
  match v with
  | VUndefined | VNull => false
  | VBool b => b
  | VNum q => negb (Qnum q =? 0)%Z
  | VStr s => match s with [] => false | _ => true end
  | VArr _ | VObj _ => true
  end.

(** [JSON.parse] keeps the last of several members with one key. *)
Fixpoint lookup_member (key : jsstring) (ms : list (jsstring * value))
  : option value :=
  match ms with
  | [] => None
  | (k, v) :: rest =>
      match lookup_member key rest with
      | Some v' => Some v'
      | None => if jsstring_eqb key k then Some v else None
      end
  end.

(** [v.key] for a data key.  The source reads properties only behind a
    truthiness test of [v], so [null] and [undefined] never reach it. *)
Definition get_prop (v : value) (key : jsstring) : value :=
  match v with
  | VObj ms => match lookup_member key ms with
               | Some x => x
               | None => VUndefined
               end
  | _ => VUndefined
  end.

(* ================================================================== *)
(** * token.ts: the record *)
(* ================================================================== *)

(** [interface TokenInfo { access_token: string; created_at: number;
    expires_in?: number }] *)
Record TokenInfo : Type := mkTokenInfo {
  access_token : jsstring;
  created_at : Z;
  expires_in : option Z
}.

Definition k_access_token : jsstring := units "access_token".
Definition k_created_at : jsstring := units "created_at".
Definition k_expires_in : jsstring := units "expires_in".

(** The object a [TokenInfo] is at run time. *)
Definition TokenInfo_value (t : TokenInfo) : value :=
  VObj ((k_access_token, VStr (access_token t))
        :: (k_created_at, VNum (inject_Z (created_at t)))
        :: match expires_in t with
           | Some e => [(k_expires_in, VNum (inject_Z e))]
           | None => []
           end).

(** What the type promises and [JSON.stringify] needs: code units are
    16-bit, numbers are safe integers (exact in binary64 and printed as
    plain decimal digits). *)
Definition safe_integer (z : Z) : Prop :=
  (- (2 ^ 53) < z < 2 ^ 53)%Z.

Definition wf_jsstring (s : jsstring) : Prop :=
  Forall (fun c => c < 65536) s.

Definition valid_TokenInfo (t : TokenInfo) : Prop :=
  wf_jsstring (access_token t)
  /\ safe_integer (created_at t)
  /\ match expires_in t with
     | Some e => safe_integer e
     | None => True
     end.

(* ================================================================== *)
(** * JSON.stringify *)
(* ================================================================== *)

Definition hexdigit (d : N) : N :=
  if d <? 10 then 48 + d else 87 + d.

(** [\uXXXX], lower-case hexadecimal. *)
Definition unicode_escape (c : N) : jsstring :=
  [92; 117; hexdigit (c / 4096); hexdigit ((c / 256) mod 16);
   hexdigit ((c / 16) mod 16); hexdigit (c mod 16)].

Definition is_high_surrogate (c : N) : bool := (55296 <=? c) && (c <=? 56319).
Definition is_low_surrogate (c : N) : bool := (56320 <=? c) && (c <=? 57343).

(** One code unit that is not part of a surrogate pair. *)
Definition quote_unit (c : N) : jsstring :=
  if c =? 8 then [92; 98]
  else if c =? 9 then [92; 116]
  else if c =? 10 then [92; 110]
  else if c =? 12 then [92; 102]
  else if c =? 13 then [92; 114]
  else if c =? 34 then [92; 34]
  else if c =? 92 then [92; 92]
  else if (c <? 32) || is_high_surrogate c || is_low_surrogate c
       then unicode_escape c
  else [c].

(** QuoteJSONString without the enclosing quotes: a surrogate pair is
    copied, a lone surrogate is escaped. *)
Fixpoint quote_body (s : jsstring) : jsstring :=
  match s with
  | [] => []
  | c :: rest =>
      if is_high_surrogate c then
        match rest with
        | d :: rest' =>
            if is_low_surrogate d then c :: d :: quote_body rest'
            else unicode_escape c ++ quote_body rest
        | [] => unicode_escape c
        end
      else quote_unit c ++ quote_body rest
  end.

Definition quote (s : jsstring) : jsstring := 34 :: quote_body s ++ [34].

Fixpoint uint_units (u : Decimal.uint) : jsstring :=
  match u with
  | Decimal.Nil => []
  | Decimal.D0 u' => 48 :: uint_units u'
  | Decimal.D1 u' => 49 :: uint_units u'
  | Decimal.D2 u' => 50 :: uint_units u'
  | Decimal.D3 u' => 51 :: uint_units u'
  | Decimal.D4 u' => 52 :: uint_units u'
  | Decimal.D5 u' => 53 :: uint_units u'
  | Decimal.D6 u' => 54 :: uint_units u'
  | Decimal.D7 u' => 55 :: uint_units u'
  | Decimal.D8 u' => 56 :: uint_units u'
  | Decimal.D9 u' => 57 :: uint_units u'
  end.

(** Number::toString on an integer (below 1e21 in magnitude). *)
Definition Number_toString (z : Z) : jsstring :=
  match z with
  | Z0 => [48]
  | Zpos p => uint_units (N.to_uint (Npos p))
  | Zneg p => 45 :: uint_units (N.to_uint (Npos p))
  end.

(** [JSON.stringify(token, null, 2)]: members in the order of the object
    literal, one per line, indented by two spaces; a member that is
    [undefined] is left out. *)
Definition JSON_stringify (t : TokenInfo) : jsstring :=
  units "{" ++ [10]
  ++ units "  " ++ quote k_access_token ++ units ": " ++ quote (access_token t)
  ++ units "," ++ [10]
  ++ units "  " ++ quote k_created_at ++ units ": "
  ++ Number_toString (created_at t)
  ++ match expires_in t with
     | Some e => units "," ++ [10] ++ units "  " ++ quote k_expires_in
                 ++ units ": " ++ Number_toString e
     | None => []
     end
  ++ [10] ++ units "}".

(* ================================================================== *)
(** * JSON.parse *)
(* ================================================================== *)

Definition is_ws (c : N) : bool :=
  (c =? 32) || (c =? 9) || (c =? 10) || (c =? 13).

Fixpoint skip_ws (s : jsstring) : jsstring :=
  match s with
  | c :: rest => if is_ws c then skip_ws rest else s
  | [] => []
  end.

Definition hexval (c : N) : option N :=
  if (48 <=? c) && (c <=? 57) then Some (c - 48)
  else if (97 <=? c) && (c <=? 102) then Some (c - 87)
  else if (65 <=? c) && (c <=? 70) then Some (c - 55)
  else None.

Definition unescape (e : N) : option N :=
  if e =? 34 then Some 34
  else if e =? 92 then Some 92
  else if e =? 47 then Some 47
  else if e =? 98 then Some 8
  else if e =? 102 then Some 12
  else if e =? 110 then Some 10
  else if e =? 114 then Some 13
  else if e =? 116 then Some 9
  else None.

(** The characters of a string literal after its opening quote, up to and
    including the closing quote. *)
Fixpoint parse_chars (s : jsstring) : option (jsstring * jsstring) :=
  match s with
  | [] => None
  | c :: r =>
      if c =? 34 then Some ([], r)
      else if c =? 92 then
        match r with
        | [] => None
        | e :: r1 =>
            if e =? 117 then
              match r1 with
              | h1 :: h2 :: h3 :: h4 :: r2 =>
                  match hexval h1, hexval h2, hexval h3, hexval h4 with
                  | Some a, Some b, Some c', Some d =>
                      match parse_chars r2 with
                      | Some (t, r3) =>
                          Some ((((a * 16 + b) * 16 + c') * 16 + d) :: t, r3)
                      | None => None
                      end
                  | _, _, _, _ => None
                  end
              | _ => None
              end
            else
              match unescape e with
              | Some x =>
                  match parse_chars r1 with
                  | Some (t, r2) => Some (x :: t, r2)
                  | None => None
                  end
              | None => None
              end
        end
      else if c <? 32 then None
      else
        match parse_chars r with
        | Some (t, r') => Some (c :: t, r')
        | None => None
        end
  end.

Definition digit_of (c : N) : option (Decimal.uint -> Decimal.uint) :=
  if c =? 48 then Some Decimal.D0
  else if c =? 49 then Some Decimal.D1
  else if c =? 50 then Some Decimal.D2
  else if c =? 51 then Some Decimal.D3
  else if c =? 52 then Some Decimal.D4
  else if c =? 53 then Some Decimal.D5
  else if c =? 54 then Some Decimal.D6
  else if c =? 55 then Some Decimal.D7
  else if c =? 56 then Some Decimal.D8
  else if c =? 57 then Some Decimal.D9
  else None.

Fixpoint parse_digits (s : jsstring) : Decimal.uint * jsstring :=
  match s with
  | [] => (Decimal.Nil, [])
  | c :: r =>
      match digit_of c with
      | Some D => let (u, r') := parse_digits r in (D u, r')
      | None => (Decimal.Nil, s)
      end
  end.

(** The integer part: a single [0], or digits that do not start with [0]. *)
Definition parse_int_part (s : jsstring) : option (Decimal.uint * jsstring) :=
  match s with
  | [] => None
  | c :: r =>
      if c =? 48 then Some (Decimal.D0 Decimal.Nil, r)
      else match parse_digits s with
           | (Decimal.Nil, _) => None
           | (u, r') => Some (u, r')
           end
  end.

Definition parse_frac_part (s : jsstring) : option (Decimal.uint * jsstring) :=
  match s with
  | c :: r =>
      if c =? 46 then
        match parse_digits r with
        | (Decimal.Nil, _) => None
        | (u, r') => Some (u, r')
        end
      else Some (Decimal.Nil, s)
  | [] => Some (Decimal.Nil, s)
  end.

Definition parse_exp_digits (neg : bool) (s : jsstring) : option (Z * jsstring) :=
  match parse_digits s with
  | (Decimal.Nil, _) => None
  | (u, r') =>
      let e := Z.of_N (N.of_uint u) in
      Some (if neg then (- e)%Z else e, r')
  end.

Definition parse_exp_part (s : jsstring) : option (Z * jsstring) :=
  match s with
  | c :: r =>
      if (c =? 101) || (c =? 69) then
        match r with
        | d :: r1 =>
            if d =? 43 then parse_exp_digits false r1
            else if d =? 45 then parse_exp_digits true r1
            else parse_exp_digits false r
        | [] => None
        end
      else Some (0%Z, s)
  | [] => Some (0%Z, s)
  end.

(** The exact value of [(-)? int . frac e exp]. *)
Definition decimal_value (neg : bool) (int_part frac : Decimal.uint) (e : Z) : Q :=
  let m := Z.of_N (N.of_uint (Decimal.app int_part frac)) in
  let m := if neg then (- m)%Z else m in
  let scale := (e - Z.of_nat (Decimal.nb_digits frac))%Z in
  if (0 <=? scale)%Z then inject_Z (m * 10 ^ scale)
  else Qmake m (Z.to_pos (10 ^ (- scale))).

Definition strip_minus (s : jsstring) : bool * jsstring :=
  match s with
  | c :: r => if c =? 45 then (true, r) else (false, s)
  | [] => (false, s)
  end.

Definition parse_number (s : jsstring) : option (Q * jsstring) :=
  let (neg, s1) := strip_minus s in
  match parse_int_part s1 with
  | None => None
  | Some (i, s2) =>
      match parse_frac_part s2 with
      | None => None
      | Some (f, s3) =>
          match parse_exp_part s3 with
          | None => None
          | Some (e, s4) => Some (decimal_value neg i f e, s4)
          end
      end
  end.

Fixpoint strip_prefix (p s : jsstring) : option jsstring :=
  match p, s with
  | [], _ => Some s
  | a :: p', b :: s' => if a =? b then strip_prefix p' s' else None
  | _ :: _, [] => None
  end.

Definition parse_literal (word : string) (v : value) (s : jsstring)
  : option (value * jsstring) :=
  match strip_prefix (units word) s with
  | Some r => Some (v, r)
  | None => None
  end.

(** One JSON value at the head of [s] (leading white space already
    skipped).  [fuel] bounds the recursion: each level of nesting and each
    element or member takes one unit, and [JSON_parse] gives enough for
    any text (lemma [JSON_parse_fuel] below). *)
Fixpoint parse_value (fuel : nat) (s : jsstring) : option (value * jsstring) :=
  match fuel with
  | O => None
  | S fuel' =>
      match s with
      | [] => None
      | c :: rest =>
          if c =? 123 then
            match skip_ws rest with
            | [] => None
            | d :: r =>
                if d =? 125 then Some (VObj [], r)
                else
                  match parse_members fuel' (d :: r) with
                  | Some (ms, r') => Some (VObj ms, r')
                  | None => None
                  end
            end
          else if c =? 91 then
            match skip_ws rest with
            | [] => None
            | d :: r =>
                if d =? 93 then Some (VArr [], r)
                else
                  match parse_elements fuel' (d :: r) with
                  | Some (vs, r') => Some (VArr vs, r')
                  | None => None
                  end
            end
          else if c =? 34 then
            match parse_chars rest with
            | Some (str, r) => Some (VStr str, r)
            | None => None
            end
          else if c =? 116 then parse_literal "true" (VBool true) s
          else if c =? 102 then parse_literal "false" (VBool false) s
          else if c =? 110 then parse_literal "null" VNull s
          else
            match parse_number s with
            | Some (q, r) => Some (VNum q, r)
            | None => None
            end
      end
  end

with parse_elements (fuel : nat) (s : jsstring)
  : option (list value * jsstring) :=
  match fuel with
  | O => None
  | S fuel' =>
      match parse_value fuel' s with
      | None => None
      | Some (v, r) =>
          match skip_ws r with
          | [] => None
          | d :: r1 =>
              if d =? 44 then
                match parse_elements fuel' (skip_ws r1) with
                | Some (vs, r2) => Some (v :: vs, r2)
                | None => None
                end
              else if d =? 93 then Some ([v], r1)
              else None
          end
      end
  end

with parse_members (fuel : nat) (s : jsstring)
  : option (list (jsstring * value) * jsstring) :=
  match fuel with
  | O => None
  | S fuel' =>
      match s with
      | [] => None
      | q :: r =>
          if q =? 34 then
            match parse_chars r with
            | None => None
            | Some (k, r1) =>
                match skip_ws r1 with
                | [] => None
                | d :: r2 =>
                    if d =? 58 then
                      match parse_value fuel' (skip_ws r2) with
                      | None => None
                      | Some (v, r3) =>
                          match skip_ws r3 with
                          | [] => None
                          | e :: r4 =>
                              if e =? 44 then
                                match parse_members fuel' (skip_ws r4) with
                                | Some (ms, r5) => Some ((k, v) :: ms, r5)
                                | None => None
                                end
                              else if e =? 125 then Some ([(k, v)], r4)
                              else None
                          end
                      end
                    else None
                end
            end
          else None
      end
  end.

(** [JSON.parse(text)]: [None] is the [SyntaxError]. *)
Definition JSON_parse (text : jsstring) : option value :=
  match parse_value (2 * List.length text + 2) (skip_ws text) with
  | Some (v, r) =>
      match skip_ws r with
      | [] => Some v
      | _ => None
      end
  | None => None
  end.

(* ================================================================== *)
(** * JSON.stringify on any value *)
(* ================================================================== *)

(** ** Numbers

    A number value [VNum q] is printed as JavaScript prints the binary64
    value nearest to [q]: [Number::toString] finds the shortest decimal
    [s * 10^(n - k)] ([k] digits) that rounds to that value, and lays it
    out as plain digits, with a decimal point, or with an exponent. *)

(** The fraction [(a / b) / base ^ e]. *)
Definition scale (base e a b : Z) : Z * Z :=
  if (0 <=? e)%Z then (a, b * base ^ e)%Z else (a * base ^ (- e), b)%Z.

(** [n / d] rounded to the nearest integer, ties to even. *)
Definition round_half_even (n d : Z) : Z :=
  let f := (n / d)%Z in
  match (2 * (n mod d) ?= d)%Z with
  | Lt => f
  | Gt => (f + 1)%Z
  | Eq => if Z.even f then f else (f + 1)%Z
  end.

(** The binary64 value nearest to [a / b] (both positive), as [m * 2^p]
    with [m <= 2^53]; [None] when [a / b] rounds to [Infinity].  Below
    [2^-1022] the values are spaced by [2^-1074]. *)
Definition binary64_of (a b : Z) : option (Z * Z) :=
  let e0 := (Z.log2 a - Z.log2 b)%Z in
  let (n0, d0) := scale 2 e0 a b in
  let e := if (d0 <=? n0)%Z then e0 else (e0 - 1)%Z in
  let p := Z.max (e - 52) (-1074) in
  let (n, d) := scale 2 p a b in
  let m := round_half_even n d in
  if (971 <? p)%Z || ((p =? 971)%Z && (2 ^ 53 <=? m)%Z) then None
  else Some (m, p).

(** [m * 2^p] as a fraction. *)
Definition binary64_fraction (m p : Z) : Z * Z :=
  if (0 <=? p)%Z then (m * 2 ^ p, 1)%Z else (m, 2 ^ (- p))%Z.

(** Whether [s * 10^e] rounds to [xa / xb]. *)
Definition rounds_to (xa xb s e : Z) : bool :=
  let (ca, cb) := if (0 <=? e)%Z then (s * 10 ^ e, 1)%Z
                  else (s, 10 ^ (- e))%Z in
  match binary64_of ca cb with
  | Some (m, p) =>
      let (va, vb) := binary64_fraction m p in (va * xb =? xa * vb)%Z
  | None => false
  end.

(** The least [n] from [n] on with [xa / xb < 10^n]. *)
Fixpoint decimal_exponent (fuel : nat) (xa xb n : Z) : Z :=
  match fuel with
  | O => n
  | S fuel' =>
      let (a, b) := scale 10 n xa xb in
      if (a <? b)%Z then n else decimal_exponent fuel' xa xb (n + 1)%Z
  end.

(** The digits [s] and the exponent [n] of [Number::toString]: the
    smallest [k] such that a [k]-digit [s] has [s * 10^(n - k)] round to
    the value; of two such [s] the closer one, and the even one on a tie.
    Only the two neighbours of the value among the [k]-digit decimals
    can round to it.  Seventeen digits always do. *)
Fixpoint shortest_digits (fuel : nat) (k xa xb n : Z) : Z * Z :=
  let (a, b) := scale 10 (n - k) xa xb in
  let lo := (a / b)%Z in
  let r := (a mod b)%Z in
  let hi := (lo + 1)%Z in
  let ok_lo := rounds_to xa xb lo (n - k) in
  let ok_hi := negb (r =? 0)%Z && rounds_to xa xb hi (n - k) in
  let nearest := match (2 * r ?= b)%Z with
                 | Lt => lo
                 | Gt => hi
                 | Eq => if Z.even lo then lo else hi
                 end in
  let found := if ok_lo && ok_hi then Some nearest
               else if ok_lo then Some lo
               else if ok_hi then Some hi
               else None in
  match found with
  | Some s => if (s =? 10 ^ k)%Z then (10 ^ (k - 1), n + 1)%Z else (s, n)
  | None =>
      match fuel with
      | O => (lo, n)
      | S fuel' => shortest_digits fuel' (k + 1) xa xb n
      end
  end.

Definition digits_of (z : Z) : jsstring := uint_units (N.to_uint (Z.to_N z)).

(** The layout of [Number::toString] for the digits [ds] and the
    exponent [n]: the value is [0.ds * 10^n]. *)
Definition number_layout (ds : jsstring) (n : Z) : jsstring :=
  let k := Z.of_nat (List.length ds) in
  if (k <=? n)%Z && (n <=? 21)%Z then
    ds ++ repeat 48 (Z.to_nat (n - k))
  else if (0 <? n)%Z && (n <=? 21)%Z then
    firstn (Z.to_nat n) ds ++ 46 :: skipn (Z.to_nat n) ds
  else if (-6 <? n)%Z && (n <=? 0)%Z then
    48 :: 46 :: repeat 48 (Z.to_nat (- n)) ++ ds
  else
    let e := (n - 1)%Z in
    let exponent := (if (0 <=? e)%Z then 43 else 45) :: digits_of (Z.abs e) in
    match ds with
    | [] => []
    | d :: [] => d :: 101 :: exponent
    | d :: more => d :: 46 :: more ++ 101 :: exponent
    end.

(** What [JSON.stringify] writes for a number: [Number::toString] of a
    finite value, [null] for an infinite one.  A safe integer is its own
    binary64 value and is printed as its decimal digits. *)
Definition JSON_number (q : Q) : jsstring :=
  let a := Qnum q in
  let b := Zpos (Qden q) in
  if (a =? 0)%Z then [48]
  else if (a mod b =? 0)%Z && (Z.abs (a / b) <? 2 ^ 53)%Z then
    Number_toString (a / b)
  else
    match binary64_of (Z.abs a) b with
    | None => units "null"
    | Some (m, p) =>
        if (m =? 0)%Z then [48]
        else
          let (xa, xb) := binary64_fraction m p in
          let estimate := ((Z.log2 xa - Z.log2 xb) * 30103 / 100000 - 2)%Z in
          let n0 := decimal_exponent 6 xa xb estimate in
          let (s, n) := shortest_digits 16 1 xa xb n0 in
          (if (a <? 0)%Z then [45] else []) ++ number_layout (digits_of s) n
    end.

(** ** Objects and arrays *)

(** An array index: a canonical numeric string below [2^32 - 1].  The
    keys of an object that are array indices come first, in ascending
    order; the other keys follow in the order of their creation. *)
Definition array_index (k : jsstring) : option N :=
  match k with
  | [] => None
  | c :: rest =>
      if c =? 48 then
        match rest with
        | [] => Some 0
        | _ => None
        end
      else
        match parse_digits k with
        | (u, []) =>
            let n := N.of_uint u in
            if n <? 4294967295 then Some n else None
        | _ => None
        end
  end.

(** [JSON.parse] creates the members in the order of the text; a key
    that occurs again keeps its place and takes the new value. *)
Fixpoint set_member {A} (k : jsstring) (x : A) (ms : list (jsstring * A))
  : list (jsstring * A) :=
  match ms with
  | [] => [(k, x)]
  | (k', y) :: rest =>
      if jsstring_eqb k k' then (k', x) :: rest
      else (k', y) :: set_member k x rest
  end.

Definition created_members {A} (ms : list (jsstring * A))
  : list (jsstring * A) :=
  fold_left (fun acc m => set_member (fst m) (snd m) acc) ms [].

Fixpoint insert_index {A} (n : N) (m : jsstring * A)
  (l : list (N * (jsstring * A))) : list (N * (jsstring * A)) :=
  match l with
  | [] => [(n, m)]
  | (n', m') :: rest =>
      if n <? n' then (n, m) :: l else (n', m') :: insert_index n m rest
  end.

(** The own properties of an object in the order [JSON.stringify]
    visits them. *)
Definition own_properties {A} (ms : list (jsstring * A))
  : list (jsstring * A) :=
  let made := created_members ms in
  map snd
      (fold_left (fun acc m => match array_index (fst m) with
                               | Some n => insert_index n m acc
                               | None => acc
                               end) made [])
  ++ filter (fun m => match array_index (fst m) with
                      | Some _ => false
                      | None => true
                      end) made.

Definition indentation (depth : nat) : jsstring :=
  List.concat (repeat [32; 32] depth).

Fixpoint join_with (sep : jsstring) (parts : list jsstring) : jsstring :=
  match parts with
  | [] => []
  | p :: rest =>
      match rest with
      | [] => p
      | _ => p ++ sep ++ join_with sep rest
      end
  end.

(** An array or object with the gap of two spaces: one part per line,
    one level deeper than the brackets; [[]] and [{}] when empty. *)
Definition bracketed (opening closing : N) (depth : nat)
  (parts : list jsstring) : jsstring :=
  match parts with
  | [] => [opening; closing]
  | _ => opening :: 10 :: indentation (S depth)
         ++ join_with (44 :: 10 :: indentation (S depth)) parts
         ++ 10 :: indentation depth ++ [closing]
  end.

Definition member_text (m : jsstring * option jsstring) : list jsstring :=
  match snd m with
  | Some text => [quote (fst m) ++ 58 :: 32 :: text]
  | None => []
  end.

(** SerializeJSONProperty at nesting [depth]: [None] is [undefined],
    which is left out of an object and written [null] in an array. *)
Fixpoint stringify_at (depth : nat) (v : value) {struct v} : option jsstring :=
  match v with
  | VUndefined => None
  | VNull => Some (units "null")
  | VBool b => Some (if b then units "true" else units "false")
  | VNum q => Some (JSON_number q)
  | VStr s => Some (quote s)
  | VArr items =>
      Some (bracketed 91 93 depth
              ((fix elements (l : list value) : list jsstring :=
                  match l with
                  | [] => []
                  | x :: rest =>
                      match stringify_at (S depth) x with
                      | Some text => text
                      | None => units "null"
                      end :: elements rest
                  end) items))
  | VObj members =>
      Some (bracketed 123 125 depth
              (flat_map member_text
                 (own_properties
                    ((fix texts (l : list (jsstring * value))
                        : list (jsstring * option jsstring) :=
                        match l with
                        | [] => []
                        | (k, x) :: rest =>
                            (k, stringify_at (S depth) x) :: texts rest
                        end) members))))
  end.

(** [JSON.stringify(v, null, 2)]; [None] when the result is [undefined]. *)
Definition JSON_stringify_value (v : value) : option jsstring :=
  stringify_at 0 v.

(** Two notions used to reason about the text [JSON_stringify] writes:
    what follows a number there (a comma or a line feed), and the text
    after the [created_at] member. *)
Definition terminated (rest : jsstring) : Prop :=
  exists r, rest = 44 :: r \/ rest = 10 :: r.

Definition last_members (t : TokenInfo) : jsstring :=
  match expires_in t with
  | Some e => 44 :: 10 :: 32 :: 32
              :: quote k_expires_in ++ 58 :: 32 :: Number_toString e ++ [10; 125]
  | None => [10; 125]
  end.

(** A parse that succeeds with some fuel consumes input, and succeeds
    with the same result for every fuel above twice the length of the
    text. *)
Definition fuel_enough_at (fuel : nat) : Prop :=
  (forall s v r,
      parse_value fuel s = Some (v, r) ->
      (List.length r <= List.length s)%nat
      /\ forall fuel', (2 * List.length s <= fuel')%nat ->
                       parse_value fuel' s = Some (v, r))
  /\ (forall s vs r,
        parse_elements fuel s = Some (vs, r) ->
        (List.length r <= List.length s)%nat
        /\ forall fuel', (2 * List.length s + 1 <= fuel')%nat ->
                         parse_elements fuel' s = Some (vs, r))
  /\ (forall s ms r,
        parse_members fuel s = Some (ms, r) ->
        (List.length r <= List.length s)%nat
        /\ forall fuel', (2 * List.length s + 1 <= fuel')%nat ->
                         parse_members fuel' s = Some (ms, r)).

(* ================================================================== *)
(** * The world the code runs in *)
(* ================================================================== *)

(** The [code] of a Node system error. *)
Inductive errno : Type :=
  ENOENT | EEXIST | EACCES | EISDIR | ENOSPC | EROFS | EADDRINUSE.

(** Everything the code throws or rejects with.  The constructors of the
    repository's own errors name the place that builds them. *)
Inductive error : Type :=
| SysError (code : errno)              (* thrown by [fs] / [net], has [.code] *)
| SyntaxError                          (* [JSON.parse], [response.json()] *)
| TypeError                            (* property read on null / undefined *)
| FetchError                           (* [fetch] rejects: transport failure *)
| TokenNotFound                        (* api.ts, setToken: no stored token *)
| ApiStatusError (status : N) (errorText : jsstring)
                                       (* api.ts: `API error: status - text` *)
| ApiMetaError (errorType errorDetail : value)
                                       (* api.ts: meta.code is not 200 *)
| MissingCredentials                   (* auth.ts: client id / secret missing *)
| ProviderAuthError (err : jsstring)   (* auth.ts: callback carried [error] *)
| MissingCodeError                     (* auth.ts: callback without [code] *)
| TokenExchangeError (err : value)     (* auth.ts: token endpoint said [error] *)
| NoAccessTokenError                   (* auth.ts: reply without access_token *)
| AddressInUse                         (* auth.ts: port already bound *)
| FlowTimeoutError.                    (* auth.ts: five minutes passed *)

(** [error.code]: only system errors have one. *)
Definition error_code (e : error) : option errno :=
  match e with
  | SysError c => Some c
  | _ => None
  end.

(** The token file as a reader finds it. *)
Inductive file_state : Type :=
| Missing
| Present (data : jsstring)
| Unreadable (code : errno).

(** How [fs.writeFile] fails.  It opens the file with flag ['w'], which
    truncates it, and then writes: a failure of the open (no permission,
    a directory in the way, a read-only file system) leaves the file as
    it was; a failure of the write (no space left) comes after the
    truncation, and a reader then finds [found] in the file: what got
    through of the data, from nothing to a beginning of it that may end
    inside a character. *)
Inductive write_failure : Type :=
| FailsAtOpen (code : errno)
| FailsAfterOpen (code : errno) (found : jsstring).


Record request : Type := mkRequest {
  req_url : jsstring;
  req_query : list (jsstring * jsstring);
  req_bearer : value           (* the value interpolated after "Bearer " *)
}.

Record response : Type := mkResponse {
  ok : bool;
  status : N;
  body : jsstring
}.

Inductive fetch_result : Type :=
| FetchThrows
| FetchResponse (r : response).

(** What the process does to the outside, newest first. *)
Inductive event : Type :=
| EvMkdir
| EvReadFile
| EvWriteFile (data : jsstring)
| EvUnlink
| EvFetch (req : request).

Record Env : Type := mkEnv {
  FOURSQUARE_CLIENT_ID : option jsstring;
  FOURSQUARE_CLIENT_SECRET : option jsstring;
  FOURSQUARE_ACCESS_TOKEN : option jsstring
}.

(** The file system (as far as the token file goes), the environment, the
    clock, the network, the two singletons [tokenManager] and
    [foursquareAPI], and the log of effects. *)
Record World : Type := mkWorld {
  token_file : file_state;
  mkdir_error : option errno;      (* what [fs.mkdir] fails with, if it does *)
  write_error : option write_failure;  (* how [fs.writeFile] fails *)
  unlink_error : option errno;     (* what [fs.unlink] fails with *)
  configDir : jsstring;            (* the result of [getConfigDir()] *)
  env : Env;                       (* [process.env] *)
  clock : Z;                       (* [Date.now()] *)
  network : list event -> request -> fetch_result;
  tokenPath : option jsstring;     (* [tokenManager.tokenPath] *)
  accessToken : value;             (* [foursquareAPI.accessToken] *)
  log : list event
}.

Definition set_token_file (f : file_state) (w : World) : World :=
  mkWorld f (mkdir_error w) (write_error w) (unlink_error w) (configDir w)
          (env w) (clock w) (network w) (tokenPath w) (accessToken w) (log w).

Definition set_tokenPath (p : option jsstring) (w : World) : World :=
  mkWorld (token_file w) (mkdir_error w) (write_error w) (unlink_error w)
          (configDir w) (env w) (clock w) (network w) p (accessToken w) (log w).

Definition set_accessToken (v : value) (w : World) : World :=
  mkWorld (token_file w) (mkdir_error w) (write_error w) (unlink_error w)
          (configDir w) (env w) (clock w) (network w) (tokenPath w) v (log w).

Definition set_clock (t : Z) (w : World) : World :=
  mkWorld (token_file w) (mkdir_error w) (write_error w) (unlink_error w)
          (configDir w) (env w) t (network w) (tokenPath w) (accessToken w)
          (log w).

Definition add_log (ev : event) (w : World) : World :=
  mkWorld (token_file w) (mkdir_error w) (write_error w) (unlink_error w)
          (configDir w) (env w) (clock w) (network w) (tokenPath w)
          (accessToken w) (ev :: log w).

(* ================================================================== *)
(** * Asynchronous code: a state and exception monad *)
(* ================================================================== *)

(** A call returns, throws (a rejected promise), or leaves the model:
    [Unmodelled] marks the one place where JavaScript would coerce a
    value that is not of the type the TypeScript annotations declare,
    the arithmetic of [isTokenValid]. *)
Inductive outcome (A : Type) : Type :=
| Return (a : A)
| Throw (e : error)
| Unmodelled.

Arguments Return {A} a.
Arguments Throw {A} e.
Arguments Unmodelled {A}.

Definition M (A : Type) : Type := World -> outcome A * World.

Definition ret {A} (a : A) : M A := fun w => (Return a, w).

Definition throw {A} (e : error) : M A := fun w => (Throw e, w).

Definition unmodelled {A} : M A := fun w => (Unmodelled, w).

Definition bind {A B} (c : M A) (k : A -> M B) : M B :=
  fun w =>
    match c w with
    | (Return a, w') => k a w'
    | (Throw e, w') => (Throw e, w')
    | (Unmodelled, w') => (Unmodelled, w')
    end.

(** [try { c } catch (error) { h error }] *)
Definition try_catch {A} (c : M A) (h : error -> M A) : M A :=
  fun w =>
    match c w with
    | (Throw e, w') => h e w'
    | r => r
    end.

Definition get {A} (f : World -> A) : M A := fun w => (Return (f w), w).

Definition modify (f : World -> World) : M unit := fun w => (Return tt, f w).

Declare Scope M_scope.
Delimit Scope M_scope with M.

Notation "x <- c1 ;; c2" := (bind c1 (fun x => c2))
  (at level 61, c1 at next level, right associativity) : M_scope.
Notation "c1 ;; c2" := (bind c1 (fun _ => c2))
  (at level 61, right associativity) : M_scope.

Local Open Scope M_scope.

(** ** The runtime's effects *)

Definition fs_mkdir : M unit :=
  fun w =>
    let w' := add_log EvMkdir w in
    match mkdir_error w with
    | Some e => (Throw (SysError e), w')
    | None => (Return tt, w')
    end.

(** [fs.readFile(path, 'utf-8')] *)
Definition fs_readFile : M jsstring :=
  fun w =>
    let w' := add_log EvReadFile w in
    match token_file w with
    | Missing => (Throw (SysError ENOENT), w')
    | Present data => (Return data, w')
    | Unreadable e => (Throw (SysError e), w')
    end.

(** The contents a reader of the file may find while
    [fs.writeFile(path, data)] runs: the file is opened with flag ['w'],
    which truncates it, and the data is then written from the start. *)
Fixpoint prefixes (data : jsstring) : list jsstring :=
  match data with
  | [] => [[]]
  | c :: rest => [] :: map (cons c) (prefixes rest)
  end.

Definition writeFile_states (data : jsstring) : list file_state :=
  map Present (prefixes data).

(** [fs.writeFile(path, data, { mode: 0o600 })], once it has completed
    or failed.  A write that fails after the open does not leave the
    file as it was. *)
Definition fs_writeFile (data : jsstring) : M unit :=
  fun w =>
    let w' := add_log (EvWriteFile data) w in
    match write_error w with
    | Some (FailsAtOpen e) => (Throw (SysError e), w')
    | Some (FailsAfterOpen e found) =>
        (Throw (SysError e), set_token_file (Present found) w')
    | None => (Return tt, set_token_file (Present data) w')
    end.

Definition fs_unlink : M unit :=
  fun w =>
    let w' := add_log EvUnlink w in
    match token_file w with
    | Missing => (Throw (SysError ENOENT), w')
    | _ =>
        match unlink_error w with
        | Some e => (Throw (SysError e), w')
        | None => (Return tt, set_token_file Missing w')
        end
    end.

Definition fetch (req : request) : M response :=
  fun w =>
    let w' := add_log (EvFetch req) w in
    match network w (log w) req with
    | FetchThrows => (Throw FetchError, w')
    | FetchResponse r => (Return r, w')
    end.

Definition Date_now : M Z := get clock.

Definition JSON_parse_M (text : jsstring) : M value :=
  match JSON_parse text with
  | Some v => ret v
  | None => throw SyntaxError
  end.

(** [v.key] where [v] may be null or undefined. *)
Definition get_prop_M (v : value) (key : jsstring) : M value :=
  match v with
  | VNull | VUndefined => throw TypeError
  | _ => ret (get_prop v key)
  end.

(** An optional string parameter: [undefined] when it is not passed. *)
Definition arg (p : option jsstring) : value :=
  match p with
  | Some s => VStr s
  | None => VUndefined
  end.

(* ================================================================== *)
(** * config.ts *)
(* ================================================================== *)

(** [getConfigDir()] depends on the platform and on the environment only;
    its result is a field of the world. *)
Definition getConfigDir : M jsstring := get configDir.

Definition path_join (a b : jsstring) : jsstring := a ++ units "/" ++ b.

Definition ensureConfigDir : M jsstring :=
  dir <- getConfigDir ;;
  try_catch fs_mkdir
    (fun error =>
       match error_code error with
       | Some EEXIST => ret tt
       | _ => throw error
       end) ;;
  ret dir.

Definition getTokenPath : M jsstring :=
  dir <- ensureConfigDir ;;
  ret (path_join dir (units "token.json")).

Definition OAUTH_PORT : Z := 52847.

Definition API_VERSION : jsstring := units "20250824".
Definition API_BASE_URL : jsstring := units "https://api.foursquare.com/v2".

(** [getEnvConfig()]: a variable that is not set reads as [''] . *)
Definition or_empty (p : option jsstring) : jsstring :=
  match p with
  | Some (c :: s) => c :: s
  | _ => []
  end.

Definition getEnvConfig_clientId : M jsstring :=
  e <- get env ;; ret (or_empty (FOURSQUARE_CLIENT_ID e)).

Definition getEnvConfig_clientSecret : M jsstring :=
  e <- get env ;; ret (or_empty (FOURSQUARE_CLIENT_SECRET e)).

(* ================================================================== *)
(** * token.ts: class TokenManager *)
(* ================================================================== *)

Definition initialize : M unit :=
  ensureConfigDir ;;
  p <- getTokenPath ;;
  modify (set_tokenPath (Some p)).

(** [if (!this.tokenPath) { await this.initialize(); }] *)
Definition ensure_initialized : M unit :=
  p <- get tokenPath ;;
  if negb (truthy (arg p)) then initialize else ret tt.

Definition saveToken (token : TokenInfo) : M unit :=
  ensure_initialized ;;
  fs_writeFile (JSON_stringify token).

(** [saveToken] as it runs on a value that need not be of the declared
    type: auth.ts passes it whatever the token endpoint sent as
    [access_token].  ([fs.writeFile] rejects [undefined] as data.) *)
Definition saveToken_value (token : value) : M unit :=
  ensure_initialized ;;
  match JSON_stringify_value token with
  | Some data => fs_writeFile data
  | None => throw TypeError
  end.

Definition loadToken : M value :=
  ensure_initialized ;;
  try_catch
    (data <- fs_readFile ;;
     JSON_parse_M data)
    (fun error =>
       match error_code error with
       | Some ENOENT => ret VNull
       | _ => throw error
       end).

Definition deleteToken : M unit :=
  ensure_initialized ;;
  try_catch fs_unlink
    (fun error =>
       match error_code error with
       | Some ENOENT => ret tt
       | _ => throw error
       end).

(** [token !== null] *)
Definition hasToken : M bool :=
  token <- loadToken ;;
  ret (match token with VNull => false | _ => true end).

Definition Qgt_bool (a b : Q) : bool := negb (Qle_bool a b).

(** [token.created_at + token.expires_in * 1000] and the comparison with
    [Date.now()] are modelled on numbers, as [TokenInfo] declares the two
    fields. *)
Definition isTokenValid : M bool :=
  token <- loadToken ;;
  if negb (truthy token) then ret false
  else
    let expires := get_prop token k_expires_in in
    let created := get_prop token k_created_at in
    if truthy expires && truthy created then
      match created, expires with
      | VNum c, VNum e =>
          let expiresAt := (c + e * inject_Z 1000)%Q in
          now <- Date_now ;;
          if Qgt_bool (inject_Z now) expiresAt then ret false else ret true
      | _, _ => unmodelled
      end
    else ret true.

(** The [save] of the Token Store seen by a concurrent reader: every
    content the file goes through while [saveToken] writes it. *)
Definition saveToken_states (token : TokenInfo) : list file_state :=
  writeFile_states (JSON_stringify token).

(* ================================================================== *)
(** * api.ts: class FoursquareAPI *)
(* ================================================================== *)

Inductive sort_order : Type := newestfirst | oldestfirst.

Definition sort_name (s : sort_order) : jsstring :=
  match s with
  | newestfirst => units "newestfirst"
  | oldestfirst => units "oldestfirst"
  end.

Record checkins_options : Type := mkOptions {
  opt_limit : option Z;
  opt_afterTimestamp : option Z;
  opt_beforeTimestamp : option Z;
  opt_sort : option sort_order
}.

(** A number option that is truthy: given and not zero. *)
Definition truthy_number (n : option Z) : option Z :=
  match n with
  | Some z => if (z =? 0)%Z then None else Some z
  | None => None
  end.

Definition setToken (token : option jsstring) : M unit :=
  if truthy (arg token) then
    modify (set_accessToken (arg token))
  else
    tokenInfo <- loadToken ;;
    if negb (truthy tokenInfo) then throw TokenNotFound
    else modify (set_accessToken (get_prop tokenInfo k_access_token)).

Definition checkins_url : jsstring :=
  API_BASE_URL ++ units "/users/self/checkins".

Definition getUserCheckins (options : checkins_options) : M value :=
  cached <- get accessToken ;;
  (if negb (truthy cached) then setToken None else ret tt) ;;
  let params :=
    [ (units "v", API_VERSION);
      (units "limit",
       Number_toString (match truthy_number (opt_limit options) with
                        | Some l => l
                        | None => 50%Z
                        end));
      (units "sort",
       sort_name (match opt_sort options with
                  | Some s => s
                  | None => newestfirst
                  end)) ]
    ++ match truthy_number (opt_afterTimestamp options) with
       | Some t => [(units "afterTimestamp", Number_toString t)]
       | None => []
       end
    ++ match truthy_number (opt_beforeTimestamp options) with
       | Some t => [(units "beforeTimestamp", Number_toString t)]
       | None => []
       end in
  token <- get accessToken ;;
  response <- fetch (mkRequest checkins_url params token) ;;
  if negb (ok response) then
    throw (ApiStatusError (status response) (body response))
  else
    data <- JSON_parse_M (body response) ;;
    meta <- get_prop_M data (units "meta") ;;
    code <- get_prop_M meta (units "code") ;;
    if match code with
       | VNum q => Qeq_bool q (inject_Z 200)
       | _ => false
       end
    then
      resp <- get_prop_M data (units "response") ;;
      checkins <- get_prop_M resp (units "checkins") ;;
      get_prop_M checkins (units "items")
    else
      throw (ApiMetaError (get_prop meta (units "errorType"))
                          (get_prop meta (units "errorDetail"))).

Definition checkAuth : M bool :=
  cached <- get accessToken ;;
  proceed <-
    (if negb (truthy cached) then
       tokenInfo <- loadToken ;;
       if negb (truthy tokenInfo) then ret false
       else
         modify (set_accessToken (get_prop tokenInfo k_access_token)) ;;
         ret true
     else ret true) ;;
  if negb proceed then ret false
  else
    try_catch
      (let params := [(units "v", API_VERSION); (units "limit", units "1")] in
       token <- get accessToken ;;
       response <- fetch (mkRequest checkins_url params token) ;;
       ret (ok response))
      (fun _ => ret false).

(** A caller of the API object, and the outside changing the token file
    between two calls. *)
Inductive api_call : Type :=
| Call_getUserCheckins (options : checkins_options)
| Call_checkAuth
| File_replaced (f : file_state).

Definition run_call (c : api_call) (w : World) : World :=
  match c with
  | Call_getUserCheckins o => snd (getUserCheckins o w)
  | Call_checkAuth => snd (checkAuth w)
  | File_replaced f => set_token_file f w
  end.

Definition run_calls (cs : list api_call) (w : World) : World :=
  fold_left (fun w c => run_call c w) cs w.

(* ================================================================== *)
(** * auth.ts: authenticate *)
(* ================================================================== *)

(** [req.query] of a request to the callback path. *)
Record query : Type := mkQuery {
  q_code : option jsstring;
  q_error : option jsstring
}.

Inductive page : Type :=
| AuthErrorPage (err : jsstring)     (* the page that quotes [error] *)
| MissingCodePage
| ExchangeErrorPage (e : error)      (* the page that quotes error.message *)
| SuccessPage
| WaitingPage.

(** A [TokenInfo] stands for the object it is at run time wherever a
    value is expected. *)
Coercion TokenInfo_value : TokenInfo >-> value.

(** How the promise [authenticate] returns has settled.  It is resolved
    with the object [{ access_token, created_at }] the handler built. *)
Inductive settlement : Type :=
| Resolved (tokenInfo : value)
| Rejected (e : error).

(** What awaiting the token endpoint ([fetch], then [.json()]) gives. *)
Inductive exchange_reply : Type :=
| ReplyFetchFails
| ReplyNotJson
| ReplyJson (tokenData : value).

(** One run of [authenticate] after its [new Promise]: the express server,
    the promise, the handler runs suspended at [await fetch], and the
    timers. *)
Record Flow : Type := mkFlow {
  listening : bool;              (* the server accepts requests *)
  promise : option settlement;   (* [None] while pending *)
  awaiting : list jsstring;      (* codes of the suspended handler runs *)
  close_timers : list Z;         (* due times of [setTimeout(close, 1000)] *)
  timeout_due : option Z;        (* due time of the five-minute timer *)
  sent : list page;              (* [res.send], newest first *)
  completed : nat;               (* handler runs that reached their end *)
  connected : bool               (* a connection was accepted and may
                                    still be open (HTTP keep-alive) *)
}.

(** [server.close()] stops the listener; the connections accepted
    before stay as they are. *)
Definition server_close (fl : Flow) : Flow :=
  mkFlow false (promise fl) (awaiting fl) (close_timers fl) (timeout_due fl)
         (sent fl) (completed fl) (connected fl).

(** The listener accepts a connection. *)
Definition connect (fl : Flow) : Flow :=
  mkFlow (listening fl) (promise fl) (awaiting fl) (close_timers fl)
         (timeout_due fl) (sent fl) (completed fl) true.

(** [resolve] and [reject]: a settled promise stays as it is. *)
Definition settle (s : settlement) (fl : Flow) : Flow :=
  match promise fl with
  | Some _ => fl
  | None => mkFlow (listening fl) (Some s) (awaiting fl) (close_timers fl)
                   (timeout_due fl) (sent fl) (completed fl) (connected fl)
  end.

Definition res_send (p : page) (fl : Flow) : Flow :=
  mkFlow (listening fl) (promise fl) (awaiting fl) (close_timers fl)
         (timeout_due fl) (p :: sent fl) (completed fl) (connected fl).

Definition set_awaiting (l : list jsstring) (fl : Flow) : Flow :=
  mkFlow (listening fl) (promise fl) l (close_timers fl) (timeout_due fl)
         (sent fl) (completed fl) (connected fl).

Definition set_timers (cl : list Z) (t : option Z) (fl : Flow) : Flow :=
  mkFlow (listening fl) (promise fl) (awaiting fl) cl t (sent fl)
         (completed fl) (connected fl).

Definition handler_done (fl : Flow) : Flow :=
  mkFlow (listening fl) (promise fl) (awaiting fl) (close_timers fl)
         (timeout_due fl) (sent fl) (S (completed fl)) (connected fl).

(** The callback handler up to its first [await]. *)
Definition callback_handler (q : query) (fl : Flow) : Flow :=
  let code := arg (q_code q) in
  let error := arg (q_error q) in
  if truthy error then
    handler_done
      (settle (Rejected (ProviderAuthError (or_empty (q_error q))))
         (server_close (res_send (AuthErrorPage (or_empty (q_error q))) fl)))
  else if negb (truthy code) then
    handler_done
      (settle (Rejected MissingCodeError)
         (server_close (res_send MissingCodePage fl)))
  else
    set_awaiting (awaiting fl ++ [or_empty (q_code q)]) fl.

(** [{ access_token: tokenData.access_token, created_at: Date.now() }].
    Nothing checks that the token is a string. *)
Definition tokenInfo_of (token : value) (now : Z) : value :=
  VObj [(k_access_token, token); (k_created_at, VNum (inject_Z now))].

(** The rest of the handler, from the reply of the token endpoint on. *)
Definition exchange_continue (r : exchange_reply) (fl : Flow) : M Flow :=
  fl' <-
    try_catch
      (tokenData <-
         match r with
         | ReplyFetchFails => throw FetchError
         | ReplyNotJson => throw SyntaxError
         | ReplyJson v => ret v
         end ;;
       err <- get_prop_M tokenData (units "error") ;;
       if truthy err then throw (TokenExchangeError err)
       else
         token <- get_prop_M tokenData k_access_token ;;
         if negb (truthy token) then throw NoAccessTokenError
         else
           now <- Date_now ;;
           let tokenInfo := tokenInfo_of token now in
           saveToken_value tokenInfo ;;
           let fl1 := res_send SuccessPage fl in
           let fl2 := set_timers (close_timers fl1 ++ [(now + 1000)%Z])
                                 (timeout_due fl1) fl1 in
           ret (settle (Resolved tokenInfo) fl2))
      (fun error =>
         ret (settle (Rejected error)
                (server_close (res_send (ExchangeErrorPage error) fl)))) ;;
  ret (handler_done fl').

Fixpoint remove_nth {A} (i : nat) (l : list A) : list A :=
  match l, i with
  | [], _ => []
  | _ :: l', O => l'
  | x :: l', S i' => x :: remove_nth i' l'
  end.

(** The timers that are due at [now] fire.  They only close the server
    and reject, so the order among them does not show. *)
Definition fire_timers (now : Z) (fl : Flow) : Flow :=
  let due := filter (fun t => (t <=? now)%Z) (close_timers fl) in
  let rest := filter (fun t => negb (t <=? now)%Z) (close_timers fl) in
  let fl1 := match due with
             | [] => fl
             | _ => server_close fl
             end in
  let fl2 := set_timers rest (timeout_due fl1) fl1 in
  match timeout_due fl2 with
  | Some t =>
      if (t <=? now)%Z then
        settle (Rejected FlowTimeoutError)
               (server_close (set_timers (close_timers fl2) None fl2))
      else fl2
  | None => fl2
  end.

(** What happens to a running flow.  A client can open a connection,
    or send a request on a new connection, only while the server
    listens.  [server.close()] does not end the connections accepted
    before (HTTP keep-alive): a request that arrives on one of them
    reaches its handler after the close as well, and no handler of
    auth.ts tests whether the flow is over. *)
Inductive flow_event : Type :=
| Request_callback (q : query)
| Request_root
| Exchange_reply (i : nat) (r : exchange_reply)
| Elapse (ms : Z)
| Connect
| Reused_callback (q : query)
| Reused_root.

Definition flow_step (ev : flow_event) (fl : Flow) : M Flow :=
  match ev with
  | Request_callback q =>
      if listening fl then ret (callback_handler q (connect fl)) else ret fl
  | Request_root =>
      if listening fl then ret (res_send WaitingPage (connect fl)) else ret fl
  | Connect =>
      if listening fl then ret (connect fl) else ret fl
  | Reused_callback q =>
      if connected fl then ret (callback_handler q fl) else ret fl
  | Reused_root =>
      if connected fl then ret (res_send WaitingPage fl) else ret fl
  | Exchange_reply i r =>
      match nth_error (awaiting fl) i with
      | Some _ => exchange_continue r (set_awaiting (remove_nth i (awaiting fl)) fl)
      | None => ret fl
      end
  | Elapse ms =>
      now <- Date_now ;;
      let now' := (now + Z.max 0 ms)%Z in
      modify (set_clock now') ;;
      ret (fire_timers now' fl)
  end.

Fixpoint flow_run (evs : list flow_event) (fl : Flow) : M Flow :=
  match evs with
  | [] => ret fl
  | ev :: rest => fl' <- flow_step ev fl ;; flow_run rest fl'
  end.

(** [authenticate(clientId, clientSecret)] up to the point where it waits:
    the credentials are checked, the server is started ([port_busy] says
    whether the port is taken) and the timeout is armed. *)
Definition authenticate (clientId clientSecret : option jsstring)
  (port_busy : bool) : M Flow :=
  envId <- getEnvConfig_clientId ;;
  envSecret <- getEnvConfig_clientSecret ;;
  let finalClientId := if truthy (arg clientId) then arg clientId else VStr envId in
  let finalClientSecret :=
    if truthy (arg clientSecret) then arg clientSecret else VStr envSecret in
  if negb (truthy finalClientId) || negb (truthy finalClientSecret) then
    throw MissingCredentials
  else
    now <- Date_now ;;
    let fl := mkFlow (negb port_busy) None [] [] (Some (now + 5 * 60 * 1000)%Z)
                     [] 0 false in
    ret (if port_busy then settle (Rejected AddressInUse) fl else fl).

(* ================================================================== *)
(** * The spec's wording of two operations, for comparison *)
(* ================================================================== *)

(** Section 4.3 of the spec: "false if no record exists; if expiresIn is
    present, false when now > createdAt + expiresIn*1000; true otherwise". *)
Definition spec_isTokenValid (record : option TokenInfo) (now : Z) : bool :=
  match record with
  | None => false
  | Some t =>
      match expires_in t with
      | Some e => negb (now >? created_at t + e * 1000)%Z
      | None => true
      end
  end.

(** Section 4.3 of the spec, [resolveToken]: explicit token, then the
    environment's token, then the stored one. *)
Definition spec_resolveToken (explicit environment stored : option jsstring)
  : option jsstring :=
  match explicit, environment, stored with
  | Some e, _, _ => Some e
  | None, Some v, _ => Some v
  | None, None, s => s
  end.

(* ================================================================== *)
(** * Conditions and sample worlds used in the statements *)
(* ================================================================== *)

(** The storage location can be resolved: the path is already known to
    the token manager, or creating the directory does not fail (an
    "already exists" failure is ignored by [ensureConfigDir]). *)
Definition store_resolves (w : World) : Prop :=
  truthy (arg (tokenPath w)) = true
  \/ mkdir_error w = None
  \/ mkdir_error w = Some EEXIST.

(** Two worlds that differ at most in the path the token manager has
    cached and in the log. *)
Definition same_outside (w w' : World) : Prop :=
  token_file w' = token_file w
  /\ mkdir_error w' = mkdir_error w
  /\ write_error w' = write_error w
  /\ unlink_error w' = unlink_error w
  /\ configDir w' = configDir w
  /\ env w' = env w
  /\ clock w' = clock w
  /\ network w' = network w
  /\ accessToken w' = accessToken w.

(** The effects a call added to the log. *)
Definition log_extends (w w' : World) (new : list event) : Prop :=
  log w' = new ++ log w.

Definition is_store_access (ev : event) : bool :=
  match ev with
  | EvFetch _ => false
  | _ => true
  end.

Definition unreachable_network : list event -> request -> fetch_result :=
  fun _ _ => FetchThrows.

Definition accepting_network : list event -> request -> fetch_result :=
  fun _ _ => FetchResponse (mkResponse true 200 (units "{}")).

(** A process that has just started, on a machine whose token file is [f]
    and whose environment is [e]. *)
Definition fresh_world (f : file_state) (e : Env)
  (net : list event -> request -> fetch_result) (now : Z) : World :=
  mkWorld f None None None (units "/home/user/.config/foursquare-mcp") e now
          net None VNull [].

Definition no_env : Env := mkEnv None None None.

(** Whether the code finds the stored record [t] expired at [now]: the
    test [token.expires_in && token.created_at] followed by
    [Date.now() > created_at + expires_in * 1000]. *)
Definition expired_at (t : TokenInfo) (now : Z) : bool :=
  match expires_in t with
  | Some e =>
      negb (e =? 0)%Z && negb (created_at t =? 0)%Z
      && (now >? created_at t + e * 1000)%Z
  | None => false
  end.

(** A sample flow: the credentials come from the environment and the
    port is free. *)
Definition client_env : Env :=
  mkEnv (Some (units "CLIENT")) (Some (units "SECRET")) None.

Definition token_reply (token : jsstring) : exchange_reply :=
  ReplyJson (VObj [(k_access_token, VStr token)]).


(* ================================================================== *)
(** * Properties of computations used in the proofs *)
(* ================================================================== *)

(** Computations that leave the world alone. *)
Definition pure_M {A} (c : M A) : Prop := forall w, snd (c w) = w.

(** Computations that return or throw, and do not touch the network or
    the API object. *)
Definition store_only {A} (c : M A) : Prop :=
  forall w,
    fst (c w) <> Unmodelled
    /\ network (snd (c w)) = network w
    /\ accessToken (snd (c w)) = accessToken w.

(** A property of what a computation hands back when it returns. *)
Definition returns {A} (P : A -> Prop) (c : M A) : Prop :=
  forall w a w', c w = (Return a, w') -> P a.

(** The shape of what [exchange_continue] returns: the handler run is
    counted, and the flow was either rejected and closed at once, or
    resolved with a close scheduled for later. *)
Definition exchange_result (fl fl' : Flow) : Prop :=
  (exists e,
      fl' = handler_done
              (settle (Rejected e)
                 (server_close (res_send (ExchangeErrorPage e) fl))))
  \/ (exists tokenInfo due,
         fl' = handler_done
                 (settle (Resolved tokenInfo)
                    (set_timers (close_timers fl ++ [due]) (timeout_due fl)
                       (res_send SuccessPage fl)))).

(* ================================================================== *)
(** * The MCP tool [check-auth-status] *)
(* ================================================================== *)

(** What the handler of the tool answers: the four texts it can return,
    and the error result of its [catch]. *)
Inductive auth_status : Type :=
| StatusTokenNotFound                    (* "token not found, authenticate" *)
| StatusValidFromEnv                     (* "source: FOURSQUARE_ACCESS_TOKEN" *)
| StatusValidFromFile (dir : jsstring)   (* "stored at <dir>/token.json" *)
| StatusTokenInvalid                     (* "token invalid, re-authenticate" *)
| StatusError (e : error).               (* [isError: true] with the message *)

(** The handler registered for ["check-auth-status"]. *)
Definition check_auth_status : M auth_status :=
  (try_catch
     (present <- hasToken ;;
      if negb present then ret StatusTokenNotFound
      else
        isValid <- checkAuth ;;
        if isValid then
          dir <- getConfigDir ;;
          e <- get env ;;
          let isEnvToken := truthy (arg (FOURSQUARE_ACCESS_TOKEN e)) in
          ret (if isEnvToken then StatusValidFromEnv
               else StatusValidFromFile dir)
        else ret StatusTokenInvalid)
     (fun error => ret (StatusError error)))%M.

(* ================================================================== *)
(** * Further notions used in the statements *)
(* ================================================================== *)

(** A computation that leaves the token file as it found it. *)
Definition keeps_file {A} (c : M A) : Prop :=
  forall w, token_file (snd (c w)) = token_file w.

(** The effects [w'] has beyond [w] do not include a request. *)
Definition no_request_since (w w' : World) : Prop :=
  exists new, log w' = new ++ log w /\ forallb is_store_access new = true.


(** The environment changes what [fs.mkdir] would do from now on. *)
Definition set_mkdir_error (m : option errno) (w : World) : World :=
  mkWorld (token_file w) m (write_error w) (unlink_error w) (configDir w)
          (env w) (clock w) (network w) (tokenPath w) (accessToken w) (log w).


(** The key of a query parameter occurs in a request. *)
Definition has_param (key : jsstring) (req : request) : bool :=
  existsb (fun kv => jsstring_eqb key (fst kv)) (req_query req).


(** The state of a flow right after [authenticate] started it at [start]. *)
Definition started_flow (start : Z) : Flow :=
  mkFlow true None [] [] (Some (start + 5 * 60 * 1000)%Z) [] 0 false.

(** A flow whose listener never came up: nothing listens, no connection
    was ever accepted, nothing is awaited. *)
Definition idle_closed (fl : Flow) : Prop :=
  listening fl = false /\ awaiting fl = [] /\ connected fl = false.

(** The store part of the world: the token file and the effects so far. *)
Definition same_store (w w' : World) : Prop :=
  token_file w' = token_file w /\ log w' = log w.

(** A computation that stays inside the model: it returns or throws. *)
Definition defined {A} (c : M A) : Prop :=
  forall w, fst (c w) <> Unmodelled.

(** JSON text written with single quotes for the double ones. *)
Definition json_text (s : string) : jsstring :=
  map (fun c => if c =? 39 then 34 else c) (units s).

(** An API that answers every request with an envelope of two check-ins. *)
Definition checkins_body : jsstring :=
  json_text
    "{'meta':{'code':200},'response':{'checkins':{'count':2,'items':[{'id':'a'},{'id':'b'}]}}}".

Definition checkins_network : list event -> request -> fetch_result :=
  fun _ _ => FetchResponse (mkResponse true 200 checkins_body).

(** A computation that never throws: it returns, or leaves the model. *)
Definition never_throws {A} (c : M A) : Prop :=
  forall w e, fst (c w) <> Throw e.

(** The flow after a handler run that ended in its [catch]: the error
    page is sent, the listener closed, the promise rejected. *)
Definition rejected_with (e : error) (fl : Flow) : Flow :=
  handler_done
    (settle (Rejected e) (server_close (res_send (ExchangeErrorPage e) fl))).

(** A computation that does not move the clock. *)
Definition keeps_clock {A} (c : M A) : Prop :=
  forall w, clock (snd (c w)) = clock w.

(** Where a flow stands with respect to its five-minute timeout: the
    timer is armed for [deadline] and the clock has not reached it, or
    the flow is over (listener closed, promise settled). *)
Definition before_deadline_or_over (deadline : Z) (fl : Flow) (w : World)
  : Prop :=
  (timeout_due fl = Some deadline /\ (clock w < deadline)%Z)
  \/ (listening fl = false /\ promise fl <> None).

(** The events that are not redirect callbacks: the root page is asked
    for, time passes, a reply comes in for a handler run. *)
Definition no_callback (ev : flow_event) : bool :=
  match ev with
  | Request_callback _ | Reused_callback _ => false
  | _ => true
  end.

(** A flow nobody has called back: the state [authenticate] starts with,
    up to the pages sent, until the timeout is due, and timed out from
    then on. *)
Definition waiting_until (deadline : Z) (fl : Flow) (w : World) : Prop :=
  awaiting fl = [] /\ close_timers fl = [] /\ completed fl = 0%nat
  /\ ((clock w < deadline)%Z /\ timeout_due fl = Some deadline
       /\ listening fl = true /\ promise fl = None
      \/ (deadline <= clock w)%Z /\ timeout_due fl = None
         /\ listening fl = false
         /\ promise fl = Some (Rejected FlowTimeoutError)).
(* ================================================================== *)
(** * The codec: [JSON.parse] inverts [JSON.stringify] *)
(* ================================================================== *)

Section Codec.

Ltac nat_tests :=
  repeat match goal with
  | |- context [N.eqb ?a ?b] => destruct (N.eqb_spec a b)
  | |- context [N.ltb ?a ?b] => destruct (N.ltb_spec a b)
  | |- context [N.leb ?a ?b] => destruct (N.leb_spec a b)
  end.

Lemma hexval_hexdigit d : d < 16 -> hexval (hexdigit d) = Some d.
Proof.
  intros Hd. unfold hexdigit, hexval.
  destruct (N.ltb_spec d 10); nat_tests; cbn [andb]; try lia; f_equal; lia.
Qed.

(** A string character that stands for itself. *)
Lemma parse_chars_raw c x :
  c <> 34 -> c <> 92 -> 32 <= c ->
  parse_chars (c :: x) =
  match parse_chars x with
  | Some (t, r) => Some (c :: t, r)
  | None => None
  end.
Proof.
  intros H1 H2 H3. simpl.
  destruct (N.eqb_spec c 34); [contradiction|].
  destruct (N.eqb_spec c 92); [contradiction|].
  destruct (N.ltb_spec c 32); [lia|]. reflexivity.
Qed.

Lemma hex4_value c :
  c < 65536 ->
  ((c / 4096 * 16 + (c / 256) mod 16) * 16 + (c / 16) mod 16) * 16 + c mod 16 = c.
Proof.
  intros Hc.
  pose proof (N.div_mod c 16 ltac:(lia)) as E1.
  pose proof (N.div_mod (c / 16) 16 ltac:(lia)) as E2.
  pose proof (N.div_mod (c / 16 / 16) 16 ltac:(lia)) as E3.
  assert (A : c / 256 = c / 16 / 16) by (rewrite N.Div0.div_div; reflexivity).
  assert (B : c / 4096 = c / 16 / 16 / 16)
    by (rewrite !N.Div0.div_div; reflexivity).
  rewrite A, B. lia.
Qed.

Lemma parse_chars_unicode_escape c x :
  c < 65536 ->
  parse_chars (unicode_escape c ++ x) =
  match parse_chars x with
  | Some (t, r) => Some (c :: t, r)
  | None => None
  end.
Proof.
  intros Hc. unfold unicode_escape.
  change (parse_chars ([92; 117; hexdigit (c / 4096); hexdigit ((c / 256) mod 16);
                        hexdigit ((c / 16) mod 16); hexdigit (c mod 16)] ++ x))
    with (match hexval (hexdigit (c / 4096)), hexval (hexdigit ((c / 256) mod 16)),
                hexval (hexdigit ((c / 16) mod 16)), hexval (hexdigit (c mod 16)) with
          | Some a, Some b, Some c', Some d =>
              match parse_chars x with
              | Some (t, r3) => Some ((((a * 16 + b) * 16 + c') * 16 + d) :: t, r3)
              | None => None
              end
          | _, _, _, _ => None
          end).
  rewrite !hexval_hexdigit.
  - rewrite hex4_value by assumption. reflexivity.
  - apply N.mod_lt; lia.
  - apply N.mod_lt; lia.
  - apply N.mod_lt; lia.
  - apply N.Div0.div_lt_upper_bound; lia.
Qed.

Lemma parse_chars_quote_unit c x :
  c < 65536 ->
  parse_chars (quote_unit c ++ x) =
  match parse_chars x with
  | Some (t, r) => Some (c :: t, r)
  | None => None
  end.
Proof.
  intros Hc. unfold quote_unit.
  destruct (N.eqb_spec c 8) as [->|]; [reflexivity|].
  destruct (N.eqb_spec c 9) as [->|]; [reflexivity|].
  destruct (N.eqb_spec c 10) as [->|]; [reflexivity|].
  destruct (N.eqb_spec c 12) as [->|]; [reflexivity|].
  destruct (N.eqb_spec c 13) as [->|]; [reflexivity|].
  destruct (N.eqb_spec c 34) as [->|]; [reflexivity|].
  destruct (N.eqb_spec c 92) as [->|]; [reflexivity|].
  destruct (N.ltb_spec c 32); simpl orb.
  - apply parse_chars_unicode_escape; assumption.
  - destruct (is_high_surrogate c || is_low_surrogate c).
    + apply parse_chars_unicode_escape; assumption.
    + apply parse_chars_raw; assumption.
Qed.

Lemma high_surrogate_raw c : is_high_surrogate c = true -> c <> 34 /\ c <> 92 /\ 32 <= c.
Proof.
  unfold is_high_surrogate. intros H. apply andb_prop in H as [H _].
  apply N.leb_le in H. lia.
Qed.

Lemma low_surrogate_raw c : is_low_surrogate c = true -> c <> 34 /\ c <> 92 /\ 32 <= c.
Proof.
  unfold is_low_surrogate. intros H. apply andb_prop in H as [H _].
  apply N.leb_le in H. lia.
Qed.

Lemma quote_body_cons c rest :
  quote_body (c :: rest) =
  if is_high_surrogate c then
    match rest with
    | d :: rest' =>
        if is_low_surrogate d then c :: d :: quote_body rest'
        else unicode_escape c ++ quote_body rest
    | [] => unicode_escape c
    end
  else quote_unit c ++ quote_body rest.
Proof. reflexivity. Qed.

Lemma parse_chars_quote_body_bounded n :
  forall s rest,
    (List.length s <= n)%nat -> wf_jsstring s ->
    parse_chars (quote_body s ++ 34 :: rest) = Some (s, rest).
Proof.
  induction n as [|n IH]; intros s rest Hlen Hwf.
  - destruct s; [reflexivity | simpl in Hlen; lia].
  - destruct s as [|c r]; [reflexivity|].
    inversion Hwf as [|? ? Hc Hr]; subst.
    simpl in Hlen. rewrite quote_body_cons.
    destruct (is_high_surrogate c) eqn:Hh.
    + destruct r as [|d r'].
      * rewrite parse_chars_unicode_escape by assumption. reflexivity.
      * destruct (is_low_surrogate d) eqn:Hl.
        -- destruct (high_surrogate_raw c Hh) as (A1 & A2 & A3).
           destruct (low_surrogate_raw d Hl) as (B1 & B2 & B3).
           change ((c :: d :: quote_body r') ++ 34 :: rest)
             with (c :: d :: (quote_body r' ++ 34 :: rest)).
           rewrite parse_chars_raw by assumption.
           rewrite parse_chars_raw by assumption.
           inversion Hr; subst.
           rewrite IH; [reflexivity | simpl in Hlen; lia | assumption].
        -- rewrite <- app_assoc.
           rewrite parse_chars_unicode_escape by assumption.
           rewrite IH; [reflexivity | lia | assumption].
    + rewrite <- app_assoc.
      rewrite parse_chars_quote_unit by assumption.
      rewrite IH; [reflexivity | lia | assumption].
Qed.

Lemma parse_chars_quote_body s rest :
  wf_jsstring s -> parse_chars (quote_body s ++ 34 :: rest) = Some (s, rest).
Proof. apply (parse_chars_quote_body_bounded (List.length s)); lia. Qed.

(** ** Numbers *)

Lemma parse_digits_uint_units u rest :
  terminated rest -> parse_digits (uint_units u ++ rest) = (u, rest).
Proof.
  intros [r [-> | ->]]; induction u; simpl; try rewrite IHu; reflexivity.
Qed.

Lemma nzhead_not_D0 u u' : Decimal.nzhead u <> Decimal.D0 u'.
Proof. induction u; simpl; try discriminate. assumption. Qed.

Lemma to_uint_head p u' : Pos.to_uint p <> Decimal.D0 u'.
Proof.
  intros E.
  pose proof (DecimalPos.Unsigned.to_of (Pos.to_uint p)) as H.
  rewrite DecimalPos.Unsigned.of_to in H. simpl in H.
  rewrite E in H. rewrite unorm_D0 in H.
  assert (Hu : Decimal.unorm u' = Decimal.D0 u') by congruence.
  unfold Decimal.unorm in Hu.
  destruct (Decimal.nzhead u') eqn:Hn; try discriminate.
  - inversion Hu; subst u'.
    apply (DecimalPos.Unsigned.to_uint_nonzero p). exact E.
  - apply (nzhead_not_D0 u' u). rewrite Hn. congruence.
Qed.

Lemma parse_int_part_uint_units u rest :
  u <> Decimal.Nil -> (forall u', u <> Decimal.D0 u') -> terminated rest ->
  parse_int_part (uint_units u ++ rest) = Some (u, rest).
Proof.
  intros Hnil Hz Ht. unfold parse_int_part.
  rewrite (parse_digits_uint_units u rest Ht).
  destruct u; try reflexivity.
  - contradiction.
  - exfalso. apply (Hz u). reflexivity.
Qed.

Lemma parse_frac_part_terminated rest :
  terminated rest -> parse_frac_part rest = Some (Decimal.Nil, rest).
Proof. intros [r [-> | ->]]; reflexivity. Qed.

Lemma parse_exp_part_terminated rest :
  terminated rest -> parse_exp_part rest = Some (0%Z, rest).
Proof. intros [r [-> | ->]]; reflexivity. Qed.

Lemma decimal_value_integer neg u :
  decimal_value neg u Decimal.Nil 0 =
  inject_Z (if neg then (- Z.of_N (N.of_uint u))%Z else Z.of_N (N.of_uint u)).
Proof.
  unfold decimal_value. rewrite app_nil_r. simpl.
  rewrite Z.mul_1_r. reflexivity.
Qed.

Lemma uint_units_head u :
  u <> Decimal.Nil ->
  exists c r, uint_units u = c :: r /\ 48 <= c <= 57.
Proof.
  intros Hu. destruct u; try contradiction; simpl; eexists; eexists;
    (split; [reflexivity | lia]).
Qed.

Lemma parse_number_unsigned u rest :
  u <> Decimal.Nil -> (forall u', u <> Decimal.D0 u') -> terminated rest ->
  parse_number (uint_units u ++ rest) =
  Some (inject_Z (Z.of_N (N.of_uint u)), rest).
Proof.
  intros Hnil Hz Ht.
  destruct (uint_units_head u Hnil) as (c & r & E & Hc).
  unfold parse_number.
  assert (Hs : strip_minus (uint_units u ++ rest)
               = (false, uint_units u ++ rest)).
  { rewrite E. simpl. destruct (N.eqb_spec c 45); [lia | reflexivity]. }
  rewrite Hs.
  rewrite (parse_int_part_uint_units u rest Hnil Hz Ht).
  rewrite (parse_frac_part_terminated rest Ht).
  rewrite (parse_exp_part_terminated rest Ht).
  rewrite decimal_value_integer. reflexivity.
Qed.

Lemma parse_number_Number_toString z rest :
  terminated rest ->
  parse_number (Number_toString z ++ rest) = Some (inject_Z z, rest).
Proof.
  intros Ht. destruct z as [|p|p].
  - destruct Ht as [r [-> | ->]]; reflexivity.
  - unfold Number_toString.
    rewrite parse_number_unsigned; try assumption.
    + rewrite DecimalN.Unsigned.of_to. reflexivity.
    + apply DecimalPos.Unsigned.to_uint_nonnil.
    + apply to_uint_head.
  - unfold Number_toString, parse_number.
    change (strip_minus ((45 :: uint_units (N.to_uint (N.pos p))) ++ rest))
      with (true, uint_units (N.to_uint (N.pos p)) ++ rest).
    cbv beta iota.
    rewrite parse_int_part_uint_units; try assumption.
    + rewrite (parse_frac_part_terminated rest Ht).
      rewrite (parse_exp_part_terminated rest Ht).
      rewrite decimal_value_integer.
      rewrite DecimalN.Unsigned.of_to. reflexivity.
    + apply DecimalPos.Unsigned.to_uint_nonnil.
    + apply to_uint_head.
Qed.

Lemma Number_toString_head z :
  exists c r, Number_toString z = c :: r /\ (48 <= c <= 57 \/ c = 45).
Proof.
  destruct z as [|p|p]; simpl.
  - exists 48, []. split; [reflexivity | lia].
  - destruct (uint_units_head (Pos.to_uint p)) as (c & r & E & Hc).
    + apply DecimalPos.Unsigned.to_uint_nonnil.
    + exists c, r. split; [exact E | lia].
  - eexists; eexists. split; [reflexivity | lia].
Qed.

Lemma parse_value_numeric fuel c r :
  48 <= c <= 57 \/ c = 45 ->
  parse_value (S fuel) (c :: r) =
  match parse_number (c :: r) with
  | Some (q, r') => Some (VNum q, r')
  | None => None
  end.
Proof.
  intros Hc. cbn [parse_value].
  destruct (N.eqb_spec c 123); [lia|].
  destruct (N.eqb_spec c 91); [lia|].
  destruct (N.eqb_spec c 34); [lia|].
  destruct (N.eqb_spec c 116); [lia|].
  destruct (N.eqb_spec c 102); [lia|].
  destruct (N.eqb_spec c 110); [lia|].
  reflexivity.
Qed.

Lemma parse_value_Number_toString fuel z rest :
  terminated rest ->
  parse_value (S fuel) (Number_toString z ++ rest) =
  Some (VNum (inject_Z z), rest).
Proof.
  intros Ht.
  pose proof (parse_number_Number_toString z rest Ht) as Hn.
  destruct (Number_toString_head z) as (c & r & E & Hc).
  rewrite E in *. simpl app in *.
  rewrite parse_value_numeric by assumption.
  rewrite Hn. reflexivity.
Qed.

Lemma parse_value_quote fuel s rest :
  wf_jsstring s ->
  parse_value (S fuel) (quote s ++ rest) = Some (VStr s, rest).
Proof.
  intros Hs. unfold quote.
  change ((34 :: quote_body s ++ [34]) ++ rest)
    with (34 :: ((quote_body s ++ [34]) ++ rest)).
  rewrite <- app_assoc. simpl app at 2.
  cbn [parse_value]. simpl N.eqb. cbv iota.
  rewrite parse_chars_quote_body by assumption. reflexivity.
Qed.

(** ** The whole text *)

Lemma JSON_stringify_layout t :
  JSON_stringify t =
  123 :: 10 :: 32 :: 32
  :: quote k_access_token ++ 58 :: 32 :: quote (access_token t)
  ++ 44 :: 10 :: 32 :: 32
  :: quote k_created_at ++ 58 :: 32 :: Number_toString (created_at t)
  ++ last_members t.
Proof.
  unfold JSON_stringify, last_members.
  destruct (expires_in t); repeat rewrite <- app_assoc; reflexivity.
Qed.

Lemma parse_value_object fuel k more :
  parse_value (S fuel) (123 :: 10 :: 32 :: 32 :: quote k ++ more) =
  match parse_members fuel (quote k ++ more) with
  | Some (ms, r) => Some (VObj ms, r)
  | None => None
  end.
Proof. reflexivity. Qed.

Lemma parse_members_member fuel k vtext v tail :
  wf_jsstring k ->
  parse_value fuel (vtext ++ tail) = Some (v, tail) ->
  parse_members (S fuel) (quote k ++ 58 :: 32 :: vtext ++ tail) =
  match skip_ws tail with
  | [] => None
  | e :: r4 =>
      if e =? 44 then
        match parse_members fuel (skip_ws r4) with
        | Some (ms, r5) => Some ((k, v) :: ms, r5)
        | None => None
        end
      else if e =? 125 then Some ([(k, v)], r4)
      else None
  end.
Proof.
  intros Hk Hv. unfold quote.
  change ((34 :: quote_body k ++ [34]) ++ 58 :: 32 :: vtext ++ tail)
    with (34 :: ((quote_body k ++ [34]) ++ 58 :: 32 :: vtext ++ tail)).
  rewrite <- app_assoc.
  change ([34] ++ 58 :: 32 :: vtext ++ tail)
    with (34 :: 58 :: 32 :: vtext ++ tail).
  cbn [parse_members].
  rewrite parse_chars_quote_body by assumption.
  change (skip_ws (58 :: 32 :: vtext ++ tail)) with (58 :: 32 :: vtext ++ tail).
  cbv iota beta.
  assert (Hws : skip_ws (32 :: vtext ++ tail) = skip_ws (vtext ++ tail))
    by reflexivity.
  rewrite Hws.
  assert (Hhead : skip_ws (vtext ++ tail) = vtext ++ tail).
  { destruct (vtext ++ tail) as [|c r] eqn:E.
    - reflexivity.
    - simpl. destruct (is_ws c) eqn:W; [|reflexivity].
      exfalso. destruct fuel; [discriminate|].
      unfold is_ws in W. cbn [parse_value] in Hv.
      destruct (N.eqb_spec c 32) as [->|]; [discriminate|].
      destruct (N.eqb_spec c 9) as [->|]; [discriminate|].
      destruct (N.eqb_spec c 10) as [->|]; [discriminate|].
      destruct (N.eqb_spec c 13) as [->|]; [discriminate|].
      discriminate. }
  rewrite Hhead, Hv. reflexivity.
Qed.

Lemma wf_units_ascii s : wf_jsstring (units s).
Proof.
  unfold wf_jsstring, units. apply Forall_forall. intros c Hc.
  apply in_map_iff in Hc as (a & <- & _). unfold ch.
  pose proof (N_ascii_bounded a). lia.
Qed.

Lemma terminated_last_members t : terminated (last_members t).
Proof.
  unfold last_members, terminated.
  destruct (expires_in t); eexists; [left | right]; reflexivity.
Qed.

Lemma skip_ws_quote k more : skip_ws (quote k ++ more) = quote k ++ more.
Proof. reflexivity. Qed.

Lemma valid_access_token t : valid_TokenInfo t -> wf_jsstring (access_token t).
Proof. intros (H & _). exact H. Qed.

Lemma parse_value_JSON_stringify n t :
  valid_TokenInfo t ->
  parse_value (5 + n) (JSON_stringify t) = Some (TokenInfo_value t, []).
Proof.
  intros Hv. rewrite JSON_stringify_layout.
  change (5 + n)%nat with (S (S (S (S (S n))))).
  rewrite parse_value_object.
  rewrite (parse_members_member _ k_access_token _ (VStr (access_token t)));
    [ | apply wf_units_ascii
      | apply parse_value_quote; apply valid_access_token; assumption ].
  cbn [skip_ws is_ws N.eqb Pos.eqb orb].
  rewrite skip_ws_quote.
  rewrite (parse_members_member _ k_created_at _ (VNum (inject_Z (created_at t))));
    [ | apply wf_units_ascii
      | apply parse_value_Number_toString; apply terminated_last_members ].
  unfold last_members, TokenInfo_value.
  destruct (expires_in t) as [e|].
  - cbn [skip_ws is_ws N.eqb Pos.eqb orb].
    rewrite skip_ws_quote.
    rewrite (parse_members_member _ k_expires_in _ (VNum (inject_Z e)));
      [ reflexivity
      | apply wf_units_ascii
      | apply parse_value_Number_toString; eexists; right; reflexivity ].
  - reflexivity.
Qed.

Lemma JSON_stringify_fuel t :
  exists n, (2 * List.length (JSON_stringify t) + 2 = 5 + n)%nat.
Proof.
  rewrite JSON_stringify_layout. cbn [List.length].
  eexists. rewrite Nat.mul_succ_r, Nat.mul_succ_r.
  rewrite <- !Nat.add_assoc. rewrite Nat.add_comm. reflexivity.
Qed.

(** [JSON.parse(JSON.stringify(token, null, 2))] is the object [token] is. *)
Lemma JSON_parse_stringify t :
  valid_TokenInfo t ->
  JSON_parse (JSON_stringify t) = Some (TokenInfo_value t).
Proof.
  intros Hv. unfold JSON_parse.
  destruct (JSON_stringify_fuel t) as (n & ->).
  assert (Hs : skip_ws (JSON_stringify t) = JSON_stringify t)
    by (rewrite JSON_stringify_layout; reflexivity).
  rewrite Hs, parse_value_JSON_stringify by assumption.
  reflexivity.
Qed.

(** ** The fuel of [JSON_parse] is enough *)

Lemma skip_ws_length s : (List.length (skip_ws s) <= List.length s)%nat.
Proof.
  induction s as [|c s IH]; [apply Nat.le_refl|].
  cbn [skip_ws]. destruct (is_ws c); cbn [List.length] in *; lia.
Qed.

Lemma parse_chars_length_bounded n :
  forall s t r,
    (List.length s <= n)%nat -> parse_chars s = Some (t, r) ->
    (List.length r < List.length s)%nat.
Proof.
  induction n as [|n IH]; intros s t r Hn E.
  - destruct s; [discriminate | cbn [List.length] in Hn; lia].
  - destruct s as [|c r0]; [discriminate|].
    cbn [List.length] in *. cbn [parse_chars] in E.
    destruct (c =? 34).
    { inversion E; subst. lia. }
    destruct (c =? 92).
    { destruct r0 as [|e r1]; [discriminate|].
      destruct (e =? 117).
      - destruct r1 as [|h1 [|h2 [|h3 [|h4 r2]]]]; try discriminate.
        destruct (hexval h1); [|discriminate].
        destruct (hexval h2); [|discriminate].
        destruct (hexval h3); [|discriminate].
        destruct (hexval h4); [|discriminate].
        destruct (parse_chars r2) as [[t' r3]|] eqn:E2; [|discriminate].
        inversion E; subst.
        assert (List.length r < List.length r2)%nat
          by (apply (IH r2 t' r); [cbn [List.length] in Hn; lia | exact E2]).
        cbn [List.length]. lia.
      - destruct (unescape e); [|discriminate].
        destruct (parse_chars r1) as [[t' r3]|] eqn:E2; [|discriminate].
        inversion E; subst.
        assert (List.length r < List.length r1)%nat
          by (apply (IH r1 t' r); [cbn [List.length] in Hn; lia | exact E2]).
        cbn [List.length]. lia. }
    destruct (c <? 32); [discriminate|].
    destruct (parse_chars r0) as [[t' r3]|] eqn:E2; [|discriminate].
    inversion E; subst.
    assert (List.length r < List.length r0)%nat
      by (apply (IH r0 t' r); [lia | exact E2]).
    lia.
Qed.

Lemma parse_chars_length s t r :
  parse_chars s = Some (t, r) -> (List.length r <= List.length s)%nat.
Proof.
  intros E.
  pose proof (parse_chars_length_bounded (List.length s) s t r (Nat.le_refl _) E).
  lia.
Qed.

Lemma parse_digits_length s :
  (List.length (snd (parse_digits s)) <= List.length s)%nat.
Proof.
  induction s as [|c s IH]; [apply Nat.le_refl|].
  cbn [parse_digits]. destruct (digit_of c) as [D|]; [|apply Nat.le_refl].
  destruct (parse_digits s) as [u r]. cbn [snd List.length] in *. lia.
Qed.

Lemma parse_number_length s q r :
  parse_number s = Some (q, r) -> (List.length r <= List.length s)%nat.
Proof.
  unfold parse_number. intros E.
  assert (H1 : (List.length (snd (strip_minus s)) <= List.length s)%nat).
  { unfold strip_minus. destruct s as [|c s']; [apply Nat.le_refl|].
    destruct (c =? 45); cbn [snd List.length]; lia. }
  destruct (strip_minus s) as [neg s1]. cbn [snd] in H1.
  destruct (parse_int_part s1) as [[i s2]|] eqn:Ei; [|discriminate].
  assert (H2 : (List.length s2 <= List.length s1)%nat).
  { unfold parse_int_part in Ei. destruct s1 as [|c s1']; [discriminate|].
    destruct (c =? 48).
    - inversion Ei; subst. cbn [List.length]. lia.
    - pose proof (parse_digits_length (c :: s1')) as Hd.
      destruct (parse_digits (c :: s1')) as [u r']. cbn [snd] in Hd.
      destruct u; inversion Ei; subst; exact Hd. }
  destruct (parse_frac_part s2) as [[f s3]|] eqn:Ef; [|discriminate].
  assert (H3 : (List.length s3 <= List.length s2)%nat).
  { unfold parse_frac_part in Ef. destruct s2 as [|c s2'].
    - inversion Ef; subst. apply Nat.le_refl.
    - destruct (c =? 46).
      + pose proof (parse_digits_length s2') as Hd.
        destruct (parse_digits s2') as [u r']. cbn [snd] in Hd.
        destruct u; inversion Ef; subst; cbn [List.length]; lia.
      + inversion Ef; subst. apply Nat.le_refl. }
  destruct (parse_exp_part s3) as [[e s4]|] eqn:Ee; [|discriminate].
  assert (H4 : (List.length s4 <= List.length s3)%nat).
  { assert (Hx : forall b x z y, parse_exp_digits b x = Some (z, y) ->
                   (List.length y <= List.length x)%nat).
    { intros b x z y Ex. unfold parse_exp_digits in Ex.
      pose proof (parse_digits_length x) as Hd.
      destruct (parse_digits x) as [u r']. cbn [snd] in Hd.
      destruct u; inversion Ex; subst; exact Hd. }
    unfold parse_exp_part in Ee. destruct s3 as [|c s3'].
    - inversion Ee; subst. apply Nat.le_refl.
    - destruct ((c =? 101) || (c =? 69)).
      + destruct s3' as [|d r1]; [discriminate|].
        destruct (d =? 43); [apply Hx in Ee; cbn [List.length] in *; lia|].
        destruct (d =? 45); [apply Hx in Ee; cbn [List.length] in *; lia|].
        apply Hx in Ee. cbn [List.length] in *. lia.
      + inversion Ee; subst. apply Nat.le_refl. }
  inversion E; subst. lia.
Qed.

Lemma strip_prefix_length p s r :
  strip_prefix p s = Some r -> (List.length r <= List.length s)%nat.
Proof.
  revert s. induction p as [|a p IH]; intros s E.
  - inversion E. apply Nat.le_refl.
  - destruct s as [|b s']; [discriminate|]. cbn [strip_prefix] in E.
    destruct (a =? b); [|discriminate].
    apply IH in E. cbn [List.length]. lia.
Qed.

Lemma parse_literal_length word v s v' r :
  parse_literal word v s = Some (v', r) ->
  (List.length r <= List.length s)%nat.
Proof.
  unfold parse_literal. intros E.
  destruct (strip_prefix (units word) s) as [r0|] eqn:Es; [|discriminate].
  inversion E; subst. exact (strip_prefix_length _ _ _ Es).
Qed.

Lemma fuel_enough fuel : fuel_enough_at fuel.
Proof.
  induction fuel as [|f (IHv & IHe & IHm)].
  - repeat split; intros; discriminate.
  - split; [|split].
    + (* a value *)
      intros s v r E. destruct s as [|c rest]; [discriminate|].
      pose proof E as E0. cbn [parse_value] in E.
      assert (Hfuel : forall fuel',
                 (2 * List.length (c :: rest) <= fuel')%nat ->
                 exists f'', fuel' = S f''
                             /\ (2 * List.length rest + 1 <= f'')%nat).
      { intros fuel' H. cbn [List.length] in H.
        destruct fuel' as [|f'']; [lia|].
        exists f''. split; [reflexivity | lia]. }
      destruct (c =? 123) eqn:C1.
      { destruct (skip_ws rest) as [|d r0] eqn:Ews; [discriminate|].
        pose proof (skip_ws_length rest) as Hws. rewrite Ews in Hws.
        destruct (d =? 125) eqn:C2.
        - inversion E; subst. split; [cbn [List.length] in *; lia|].
          intros fuel' H. destruct (Hfuel fuel' H) as (f'' & -> & _).
          cbn [parse_value]. rewrite C1, Ews, C2. reflexivity.
        - destruct (parse_members f (d :: r0)) as [[ms r']|] eqn:Em;
            [|discriminate].
          inversion E; subst.
          destruct (IHm _ _ _ Em) as (Hl & Hf).
          split; [cbn [List.length] in *; lia|].
          intros fuel' H. destruct (Hfuel fuel' H) as (f'' & -> & Hf'').
          cbn [parse_value]. rewrite C1, Ews, C2.
          rewrite (Hf f'') by (cbn [List.length] in *; lia). reflexivity. }
      destruct (c =? 91) eqn:C2.
      { destruct (skip_ws rest) as [|d r0] eqn:Ews; [discriminate|].
        pose proof (skip_ws_length rest) as Hws. rewrite Ews in Hws.
        destruct (d =? 93) eqn:C3.
        - inversion E; subst. split; [cbn [List.length] in *; lia|].
          intros fuel' H. destruct (Hfuel fuel' H) as (f'' & -> & _).
          cbn [parse_value]. rewrite C1, C2, Ews, C3. reflexivity.
        - destruct (parse_elements f (d :: r0)) as [[vs r']|] eqn:Ee;
            [|discriminate].
          inversion E; subst.
          destruct (IHe _ _ _ Ee) as (Hl & Hf).
          split; [cbn [List.length] in *; lia|].
          intros fuel' H. destruct (Hfuel fuel' H) as (f'' & -> & Hf'').
          cbn [parse_value]. rewrite C1, C2, Ews, C3.
          rewrite (Hf f'') by (cbn [List.length] in *; lia). reflexivity. }
      assert (Hsame : forall fuel',
                 (2 * List.length (c :: rest) <= fuel')%nat ->
                 parse_value fuel' (c :: rest) = Some (v, r)).
      { intros fuel' H. destruct (Hfuel fuel' H) as (f'' & -> & _).
        rewrite <- E0. cbn [parse_value]. rewrite C1, C2. reflexivity. }
      split; [|exact Hsame].
      destruct (c =? 34).
      { destruct (parse_chars rest) as [[str r0]|] eqn:Ec; [|discriminate].
        inversion E; subst. apply parse_chars_length in Ec.
        cbn [List.length]. lia. }
      destruct (c =? 116); [exact (parse_literal_length _ _ _ _ _ E)|].
      destruct (c =? 102); [exact (parse_literal_length _ _ _ _ _ E)|].
      destruct (c =? 110); [exact (parse_literal_length _ _ _ _ _ E)|].
      destruct (parse_number (c :: rest)) as [[q r0]|] eqn:En; [|discriminate].
      inversion E; subst. exact (parse_number_length _ _ _ En).
    + (* the elements of an array *)
      intros s vs r E. cbn [parse_elements] in E.
      destruct (parse_value f s) as [[v r0]|] eqn:Ev; [|discriminate].
      destruct (IHv _ _ _ Ev) as (Hl0 & Hf0).
      destruct (skip_ws r0) as [|d r1] eqn:Ews; [discriminate|].
      pose proof (skip_ws_length r0) as Hws. rewrite Ews in Hws.
      cbn [List.length] in Hws.
      destruct (d =? 44) eqn:C1.
      * destruct (parse_elements f (skip_ws r1)) as [[vs' r2]|] eqn:Ee;
          [|discriminate].
        inversion E; subst.
        destruct (IHe _ _ _ Ee) as (Hl1 & Hf1).
        pose proof (skip_ws_length r1) as Hws1.
        split; [lia|].
        intros fuel' H. destruct fuel' as [|f'']; [lia|].
        cbn [parse_elements].
        rewrite (Hf0 f'') by lia. rewrite Ews, C1.
        rewrite (Hf1 f'') by lia. reflexivity.
      * destruct (d =? 93) eqn:C2; [|discriminate].
        inversion E; subst. split; [lia|].
        intros fuel' H. destruct fuel' as [|f'']; [lia|].
        cbn [parse_elements].
        rewrite (Hf0 f'') by lia. rewrite Ews, C1, C2. reflexivity.
    + (* the members of an object *)
      intros s ms r E. destruct s as [|q r0]; [discriminate|].
      cbn [parse_members] in E.
      destruct (q =? 34) eqn:C0; [|discriminate].
      destruct (parse_chars r0) as [[k r1]|] eqn:Ek; [|discriminate].
      pose proof (parse_chars_length _ _ _ Ek) as Hk.
      destruct (skip_ws r1) as [|d r2] eqn:Ews1; [discriminate|].
      pose proof (skip_ws_length r1) as Hws1. rewrite Ews1 in Hws1.
      cbn [List.length] in Hws1.
      destruct (d =? 58) eqn:C1; [|discriminate].
      destruct (parse_value f (skip_ws r2)) as [[v r3]|] eqn:Ev;
        [|discriminate].
      destruct (IHv _ _ _ Ev) as (Hl3 & Hf3).
      pose proof (skip_ws_length r2) as Hws2.
      destruct (skip_ws r3) as [|e r4] eqn:Ews3; [discriminate|].
      pose proof (skip_ws_length r3) as Hws3. rewrite Ews3 in Hws3.
      cbn [List.length] in Hws3.
      destruct (e =? 44) eqn:C2.
      * destruct (parse_members f (skip_ws r4)) as [[ms' r5]|] eqn:Em;
          [|discriminate].
        inversion E; subst.
        destruct (IHm _ _ _ Em) as (Hl5 & Hf5).
        pose proof (skip_ws_length r4) as Hws4.
        split; [cbn [List.length]; lia|].
        intros fuel' H. cbn [List.length] in H.
        destruct fuel' as [|f'']; [lia|].
        cbn [parse_members]. rewrite C0, Ek, Ews1, C1.
        rewrite (Hf3 f'') by lia. rewrite Ews3, C2.
        rewrite (Hf5 f'') by lia. reflexivity.
      * destruct (e =? 125) eqn:C3; [|discriminate].
        inversion E; subst.
        split; [cbn [List.length]; lia|].
        intros fuel' H. cbn [List.length] in H.
        destruct fuel' as [|f'']; [lia|].
        cbn [parse_members]. rewrite C0, Ek, Ews1, C1.
        rewrite (Hf3 f'') by lia. rewrite Ews3, C2, C3. reflexivity.
Qed.

(** [JSON_parse] never fails for want of fuel: a text that the parser
    accepts with some amount of fuel is accepted by [JSON_parse], with the
    same value. *)
Lemma JSON_parse_fuel text fuel v r :
  parse_value fuel (skip_ws text) = Some (v, r) -> skip_ws r = [] ->
  JSON_parse text = Some v.
Proof.
  intros E Hr. unfold JSON_parse.
  destruct (fuel_enough fuel) as (Hv & _).
  destruct (Hv _ _ _ E) as (_ & Hf).
  rewrite (Hf (2 * List.length text + 2)%nat).
  - rewrite Hr. reflexivity.
  - pose proof (skip_ws_length text). lia.
Qed.

End Codec.

(* ================================================================== *)
(** * The Token Store: [loadToken] and [saveToken] *)
(* ================================================================== *)

Section TokenStore.

Local Open Scope M_scope.

Lemma same_outside_refl w : same_outside w w.
Proof. unfold same_outside. repeat split. Qed.

Lemma path_join_truthy a b w :
  truthy (arg (tokenPath (set_tokenPath (Some (path_join a b)) w))) = true.
Proof. cbn. unfold path_join. destruct a; reflexivity. Qed.

Lemma ensureConfigDir_ok w :
  mkdir_error w = None \/ mkdir_error w = Some EEXIST ->
  ensureConfigDir w = (Return (configDir w), add_log EvMkdir w).
Proof.
  intros H. unfold ensureConfigDir, getConfigDir, bind, get, try_catch, fs_mkdir.
  destruct H as [-> | ->]; reflexivity.
Qed.

(** Resolving the storage location succeeds under [store_resolves]; it
    touches nothing but the cached path and the log, and all it adds to
    the log is directory creation. *)
Lemma ensure_initialized_resolves w :
  store_resolves w ->
  exists w',
    ensure_initialized w = (Return tt, w')
    /\ same_outside w w'
    /\ truthy (arg (tokenPath w')) = true
    /\ exists new, log_extends w w' new /\ Forall (fun ev => ev = EvMkdir) new.
Proof.
  intros H. unfold ensure_initialized, bind, get.
  destruct (truthy (arg (tokenPath w))) eqn:Hp; cbn [negb].
  - exists w. split; [reflexivity|]. split; [apply same_outside_refl|].
    split; [assumption|]. exists []. split; [reflexivity | constructor].
  - destruct H as [H | H]; [congruence|].
    unfold initialize, getTokenPath, bind.
    rewrite (ensureConfigDir_ok w H).
    rewrite (ensureConfigDir_ok (add_log EvMkdir w) H).
    unfold ret, modify.
    eexists; split; [reflexivity|].
    split; [unfold same_outside; cbn; repeat split|].
    split; [apply path_join_truthy|].
    exists [EvMkdir; EvMkdir]; split; [reflexivity | repeat constructor].
Qed.

(** Which failure of [fs.mkdir] stops the resolution. *)
Lemma ensure_initialized_fails w e :
  truthy (arg (tokenPath w)) = false ->
  mkdir_error w = Some e -> e <> EEXIST ->
  ensure_initialized w = (Throw (SysError e), add_log EvMkdir w).
Proof.
  intros Hp Hm He. unfold ensure_initialized, bind, get. rewrite Hp. cbn [negb].
  unfold initialize, ensureConfigDir, getConfigDir, bind, get, try_catch,
    fs_mkdir. rewrite Hm. cbn [error_code].
  destruct e; try reflexivity. contradiction.
Qed.

(** [loadToken] once the location is resolved: the three ways the read
    can go. *)
Lemma load_after_init w :
  truthy (arg (tokenPath w)) = true ->
  loadToken w =
  match token_file w with
  | Missing => (Return VNull, add_log EvReadFile w)
  | Present data =>
      match JSON_parse data with
      | Some v => (Return v, add_log EvReadFile w)
      | None => (Throw SyntaxError, add_log EvReadFile w)
      end
  | Unreadable ENOENT => (Return VNull, add_log EvReadFile w)
  | Unreadable e => (Throw (SysError e), add_log EvReadFile w)
  end.
Proof.
  intros Hp. unfold loadToken, ensure_initialized, bind, get. rewrite Hp.
  cbn [negb]. unfold ret at 1. unfold try_catch, bind, fs_readFile, JSON_parse_M.
  destruct (token_file w) as [|data|e].
  - reflexivity.
  - destruct (JSON_parse data); reflexivity.
  - destruct e; reflexivity.
Qed.

Lemma loadToken_resolved w :
  store_resolves w ->
  exists w1,
    same_outside w w1
    /\ loadToken w =
       match token_file w with
       | Missing => (Return VNull, add_log EvReadFile w1)
       | Present data =>
           match JSON_parse data with
           | Some v => (Return v, add_log EvReadFile w1)
           | None => (Throw SyntaxError, add_log EvReadFile w1)
           end
       | Unreadable ENOENT => (Return VNull, add_log EvReadFile w1)
       | Unreadable e => (Throw (SysError e), add_log EvReadFile w1)
       end.
Proof.
  intros H.
  destruct (ensure_initialized_resolves w H) as (w1 & E & Hs & Hp & _).
  exists w1. split; [assumption|].
  unfold loadToken. unfold bind at 1. rewrite E.
  destruct Hs as (Hf & _). rewrite <- Hf.
  unfold try_catch, bind, fs_readFile, JSON_parse_M.
  destruct (token_file w1) as [|data|e].
  - reflexivity.
  - destruct (JSON_parse data); reflexivity.
  - destruct e; reflexivity.
Qed.

(** C6 as stated fails: in a process that has not resolved the storage
    location yet, [loadToken] first creates the configuration directory,
    outside its [try].  When that fails, it throws, although the token
    file does not exist. *)
Lemma loadToken_throws_without_directory :
  let w := set_mkdir_error (Some EACCES)
             (fresh_world Missing no_env unreachable_network 0) in
  token_file w = Missing
  /\ loadToken w = (Throw (SysError EACCES), add_log EvMkdir w).
Proof. cbv zeta. split; [reflexivity | vm_compute; reflexivity]. Qed.

(** C6, as the code has it.  When the storage location can be resolved
    (the path is cached, or the directory exists or can be created),
    [loadToken] returns the parsed record when the token file exists and
    parses; returns [null] ("absent"), without throwing, when the file
    does not exist; throws the parse error when the file exists but is
    not valid JSON; and throws the read error when the file cannot be
    read.  In every case the file is left as it was: corrupt content is
    reported, not discarded.  When the location cannot be resolved (no
    cached path, and [fs.mkdir] fails with something else than "already
    exists"), [loadToken] throws that error after the one attempt,
    whatever the state of the file.  One of the two is always the
    case. *)
Theorem loadToken_absent_present_corrupt (w : World) :
  (store_resolves w ->
   (token_file w = Missing ->
    exists w', loadToken w = (Return VNull, w') /\ token_file w' = Missing)
   /\ (forall data v,
         token_file w = Present data -> JSON_parse data = Some v ->
         exists w', loadToken w = (Return v, w')
                    /\ token_file w' = Present data)
   /\ (forall data,
         token_file w = Present data -> JSON_parse data = None ->
         exists w', loadToken w = (Throw SyntaxError, w')
                    /\ token_file w' = Present data)
   /\ (forall e,
         token_file w = Unreadable e -> e <> ENOENT ->
         exists w', loadToken w = (Throw (SysError e), w')
                    /\ token_file w' = Unreadable e))
  /\ (forall e,
        truthy (arg (tokenPath w)) = false ->
        mkdir_error w = Some e -> e <> EEXIST ->
        loadToken w = (Throw (SysError e), add_log EvMkdir w))
  /\ (store_resolves w
      \/ exists e, truthy (arg (tokenPath w)) = false
                   /\ mkdir_error w = Some e /\ e <> EEXIST).
Proof.
  split; [|split].
  - intros H.
    destruct (loadToken_resolved w H) as (w1 & (Hf & _) & L).
    split; [|split; [|split]].
    + intros Hm. rewrite Hm in L, Hf. eexists. split; [exact L | exact Hf].
    + intros data v Hd Hv. rewrite Hd in L, Hf. rewrite Hv in L.
      eexists. split; [exact L | exact Hf].
    + intros data Hd Hv. rewrite Hd in L, Hf. rewrite Hv in L.
      eexists. split; [exact L | exact Hf].
    + intros e He Hne. rewrite He in L, Hf.
      exists (add_log EvReadFile w1). split; [|exact Hf].
      destruct e; first [congruence | exact L].
  - intros e Hp Hm He. unfold loadToken. unfold bind at 1.
    rewrite (ensure_initialized_fails w e Hp Hm He). reflexivity.
  - unfold store_resolves.
    destruct (truthy (arg (tokenPath w))); [left; left; reflexivity|].
    destruct (mkdir_error w) as [e|]; [|left; right; left; reflexivity].
    destruct e;
      try (left; right; right; reflexivity);
      right; eexists; (split; [reflexivity|]);
      (split; [reflexivity | discriminate]).
Qed.

Lemma loadToken_absent_present_corrupt_witness :
  let w := fresh_world (Present (units "{")) no_env unreachable_network 0 in
  let w0 := set_mkdir_error (Some EROFS)
              (fresh_world Missing no_env unreachable_network 0) in
  store_resolves w
  /\ (exists w', loadToken w = (Throw SyntaxError, w')
                 /\ token_file w' = Present (units "{"))
  /\ loadToken w0 = (Throw (SysError EROFS), add_log EvMkdir w0).
Proof.
  intros w w0.
  assert (H : store_resolves w) by (right; left; reflexivity).
  split; [exact H|]. split.
  - destruct (loadToken_absent_present_corrupt w) as (Hr & _).
    destruct (Hr H) as (_ & _ & Hc & _).
    apply Hc; reflexivity.
  - destruct (loadToken_absent_present_corrupt w0) as (_ & Hd & _).
    apply Hd; [reflexivity | reflexivity | discriminate].
Defined.

Lemma saveToken_writes w r :
  store_resolves w -> write_error w = None ->
  exists w1,
    saveToken r w = (Return tt, w1)
    /\ token_file w1 = Present (JSON_stringify r)
    /\ truthy (arg (tokenPath w1)) = true
    /\ clock w1 = clock w /\ accessToken w1 = accessToken w /\ env w1 = env w.
Proof.
  intros H Hw.
  destruct (ensure_initialized_resolves w H) as (w0 & E & Hs & Hp & _).
  destruct Hs as (_ & _ & Hw0 & _ & _ & He & Hc & _ & Ha).
  unfold saveToken, bind. rewrite E.
  unfold fs_writeFile. rewrite Hw0, Hw.
  eexists. split; [reflexivity|]. cbn. repeat split; assumption.
Qed.

(** C8.  For every valid record [r], [saveToken r] followed at once by
    [loadToken] returns the object [r] is: serialization round-trips.
    (The save must go through: the storage location resolves and the write
    does not fail.) *)
Theorem saveToken_loadToken_roundtrip (w : World) (r : TokenInfo) :
  valid_TokenInfo r -> store_resolves w -> write_error w = None ->
  exists w1 w2,
    saveToken r w = (Return tt, w1)
    /\ loadToken w1 = (Return (TokenInfo_value r), w2).
Proof.
  intros Hr H Hw.
  destruct (saveToken_writes w r H Hw) as (w1 & S1 & Hf & Hp & _).
  exists w1. eexists. split; [exact S1|].
  rewrite (load_after_init w1 Hp), Hf, (JSON_parse_stringify r Hr).
  reflexivity.
Qed.

Lemma saveToken_loadToken_roundtrip_witness :
  let w := fresh_world Missing no_env unreachable_network 1700000000000 in
  let r := mkTokenInfo (units "tok_xyz") 1700000000000 (Some 3600%Z) in
  valid_TokenInfo r /\ store_resolves w /\ write_error w = None
  /\ exists w1 w2,
       saveToken r w = (Return tt, w1)
       /\ loadToken w1 = (Return (TokenInfo_value r), w2).
Proof.
  intros w r.
  assert (Hr : valid_TokenInfo r).
  { split; [apply wf_units_ascii|]. split; unfold safe_integer; cbn; lia. }
  assert (H : store_resolves w) by (right; left; reflexivity).
  assert (Hw : write_error w = None) by reflexivity.
  repeat (split; [assumption|]).
  exact (saveToken_loadToken_roundtrip w r Hr H Hw).
Defined.

(** ** [saveToken] on any value *)

Lemma JSON_number_safe_integer z :
  safe_integer z -> JSON_number (inject_Z z) = Number_toString z.
Proof.
  intros (Hlo & Hhi). unfold JSON_number. cbn [Qnum Qden inject_Z].
  destruct (Z.eqb_spec z 0) as [-> | Hz]; [reflexivity|].
  rewrite Z.mod_1_r, Z.div_1_r. cbn [Z.eqb andb].
  assert (Hs : (Z.abs z <? 2 ^ 53)%Z = true) by (apply Z.ltb_lt; lia).
  rewrite Hs. reflexivity.
Qed.

(** On a record of the declared type the two serializers agree. *)
Lemma JSON_stringify_value_TokenInfo t :
  valid_TokenInfo t ->
  JSON_stringify_value (TokenInfo_value t) = Some (JSON_stringify t).
Proof.
  intros (_ & Hc & He).
  unfold JSON_stringify_value, TokenInfo_value, JSON_stringify.
  destruct (expires_in t) as [e|]; cbn [stringify_at];
    rewrite ?JSON_number_safe_integer by assumption;
    generalize (quote (access_token t)) (Number_toString (created_at t));
    [generalize (Number_toString e)|]; intros; cbn;
    repeat (rewrite <- app_assoc; cbn [app]); reflexivity.
Qed.

Lemma saveToken_value_TokenInfo t :
  valid_TokenInfo t -> saveToken_value (TokenInfo_value t) = saveToken t.
Proof.
  intros Ht. unfold saveToken_value, saveToken.
  rewrite (JSON_stringify_value_TokenInfo t Ht). reflexivity.
Qed.

(** An object always has a text. *)
Lemma JSON_stringify_value_object ms :
  exists data, JSON_stringify_value (VObj ms) = Some data.
Proof. eexists. reflexivity. Qed.

End TokenStore.

(* ================================================================== *)
(** * [isTokenValid] *)
(* ================================================================== *)

Section Validity.

Local Open Scope M_scope.

Lemma get_access_token t :
  get_prop (TokenInfo_value t) k_access_token = VStr (access_token t).
Proof. unfold TokenInfo_value. destruct (expires_in t); reflexivity. Qed.

Lemma get_created_at t :
  get_prop (TokenInfo_value t) k_created_at = VNum (inject_Z (created_at t)).
Proof. unfold TokenInfo_value. destruct (expires_in t); reflexivity. Qed.

Lemma get_expires_in t :
  get_prop (TokenInfo_value t) k_expires_in =
  match expires_in t with
  | Some e => VNum (inject_Z e)
  | None => VUndefined
  end.
Proof. unfold TokenInfo_value. destruct (expires_in t); reflexivity. Qed.

Lemma Qgt_bool_integers now c e :
  Qgt_bool (inject_Z now) (inject_Z c + inject_Z e * inject_Z 1000)
  = (now >? c + e * 1000)%Z.
Proof.
  unfold Qgt_bool, Qle_bool. cbn [Qnum Qden inject_Z Qplus Qmult Pos.mul].
  rewrite !Z.mul_1_r.
  destruct (Z.leb_spec now (c + e * 1000)); destruct (Z.gtb_spec now (c + e * 1000));
    cbn [negb]; try reflexivity; lia.
Qed.

(** The decision of [isTokenValid] on a loaded record. *)
Lemma isTokenValid_loaded w w1 t :
  loadToken w = (Return (TokenInfo_value t), w1) ->
  isTokenValid w = (Return (negb (expired_at t (clock w1))), w1).
Proof.
  intros L. unfold isTokenValid, bind. rewrite L.
  change (truthy (TokenInfo_value t)) with true. cbn [negb].
  rewrite get_expires_in, get_created_at. unfold expired_at.
  destruct (expires_in t) as [e|]; [|reflexivity].
  cbn [truthy Qnum inject_Z].
  destruct (e =? 0)%Z; cbn [negb andb]; [reflexivity|].
  destruct (created_at t =? 0)%Z; cbn [negb andb]; [reflexivity|].
  unfold Date_now, get. rewrite Qgt_bool_integers.
  destruct (clock w1 >? created_at t + e * 1000)%Z; reflexivity.
Qed.

Lemma loadToken_stored w t :
  store_resolves w -> valid_TokenInfo t ->
  token_file w = Present (JSON_stringify t) ->
  exists w1, loadToken w = (Return (TokenInfo_value t), w1)
             /\ clock w1 = clock w.
Proof.
  intros H Ht Hf.
  destruct (loadToken_resolved w H) as (w1 & Hs & L).
  rewrite Hf, (JSON_parse_stringify t Ht) in L.
  eexists. split; [exact L|].
  destruct Hs as (_ & _ & _ & _ & _ & _ & Hc & _). exact Hc.
Qed.

(** C9.  A stored record whose [expires_in] is 0, or whose [created_at]
    is 0, is valid whatever the clock says: the comparison with the clock
    is made only when both fields are truthy. *)
Theorem isTokenValid_zero_field (w : World) (t : TokenInfo) :
  store_resolves w -> valid_TokenInfo t ->
  token_file w = Present (JSON_stringify t) ->
  expires_in t = Some 0%Z \/ created_at t = 0%Z ->
  exists w', isTokenValid w = (Return true, w').
Proof.
  intros H Ht Hf Hz.
  destruct (loadToken_stored w t H Ht Hf) as (w1 & L & _).
  exists w1. rewrite (isTokenValid_loaded w w1 t L).
  assert (E : expired_at t (clock w1) = false).
  { unfold expired_at. destruct Hz as [-> | ->].
    - reflexivity.
    - destruct (expires_in t) as [e|]; [|reflexivity].
      cbn. rewrite andb_false_r. reflexivity. }
  rewrite E. reflexivity.
Qed.

Lemma isTokenValid_zero_field_witness :
  let t := mkTokenInfo (units "tok") 1000 (Some 0%Z) in
  let w := fresh_world (Present (JSON_stringify t)) no_env
                       unreachable_network 999999999999999 in
  store_resolves w /\ valid_TokenInfo t
  /\ token_file w = Present (JSON_stringify t)
  /\ (expires_in t = Some 0%Z \/ created_at t = 0%Z)
  /\ exists w', isTokenValid w = (Return true, w').
Proof.
  intros t w.
  assert (H : store_resolves w) by (right; left; reflexivity).
  assert (Ht : valid_TokenInfo t).
  { split; [apply wf_units_ascii|]. split; unfold safe_integer; cbn; lia. }
  assert (Hz : expires_in t = Some 0%Z \/ created_at t = 0%Z)
    by (left; reflexivity).
  repeat (split; [first [assumption | reflexivity]|]).
  exact (isTokenValid_zero_field w t H Ht eq_refl Hz).
Defined.

(** When [expired_at] says yes. *)
Lemma expired_at_iff t now :
  expired_at t now = true
  <-> exists e, expires_in t = Some e /\ e <> 0%Z /\ created_at t <> 0%Z
                /\ (now > created_at t + e * 1000)%Z.
Proof.
  unfold expired_at. split.
  - destruct (expires_in t) as [e|]; [|discriminate].
    intros H. apply andb_true_iff in H as (H & Hgt).
    apply andb_true_iff in H as (He & Hc).
    exists e. split; [reflexivity|].
    split; [intros ->; discriminate|].
    split; [intros E; rewrite E in Hc; discriminate|].
    rewrite Z.gtb_ltb in Hgt. apply Z.ltb_lt in Hgt. lia.
  - intros (e & -> & He & Hc & Hgt).
    apply Z.eqb_neq in He, Hc. rewrite He, Hc. cbn [negb andb].
    rewrite Z.gtb_ltb. apply Z.ltb_lt. lia.
Qed.

(** C5, as the code has it.  [isTokenValid] decides on what [loadToken]
    gives.  When the read of the store throws (the directory cannot be
    created, the file is unreadable or not valid JSON), that error
    reaches the caller.  When the read gives no record ([null], or
    another falsy value), it returns false; so it does when the storage
    location resolves and the file is absent.  For a stored record it
    returns false exactly when [expires_in] and [created_at] are both
    present and not zero and [now > created_at + expires_in * 1000]; it
    returns true otherwise, in particular whenever [expires_in] is
    absent, however old the record. *)
Theorem isTokenValid_decision (w : World) :
  (forall e w1,
      loadToken w = (Throw e, w1) -> isTokenValid w = (Throw e, w1))
  /\ (forall v w1,
        loadToken w = (Return v, w1) -> truthy v = false ->
        isTokenValid w = (Return false, w1))
  /\ (forall t w1,
        loadToken w = (Return (TokenInfo_value t), w1) ->
        isTokenValid w = (Return (negb (expired_at t (clock w1))), w1))
  /\ fst (loadToken w) <> Unmodelled
  /\ (forall t now,
        expired_at t now = true
        <-> exists e, expires_in t = Some e /\ e <> 0%Z
                      /\ created_at t <> 0%Z
                      /\ (now > created_at t + e * 1000)%Z)
  /\ (store_resolves w ->
      (token_file w = Missing ->
       exists w', isTokenValid w = (Return false, w'))
      /\ (forall t,
            valid_TokenInfo t -> token_file w = Present (JSON_stringify t) ->
            exists w',
              isTokenValid w = (Return (negb (expired_at t (clock w))), w')))
  /\ (forall e,
        truthy (arg (tokenPath w)) = false ->
        mkdir_error w = Some e -> e <> EEXIST ->
        isTokenValid w = (Throw (SysError e), add_log EvMkdir w)).
Proof.
  split; [|split; [|split; [|split; [|split; [|split]]]]].
  - intros e w1 L. unfold isTokenValid, bind. rewrite L. reflexivity.
  - intros v w1 L Hv. unfold isTokenValid, bind. rewrite L, Hv. reflexivity.
  - intros t w1 L. apply isTokenValid_loaded. exact L.
  - unfold loadToken, ensure_initialized, initialize, getTokenPath,
      ensureConfigDir, getConfigDir, bind, get, try_catch, fs_mkdir,
      fs_readFile, JSON_parse_M, modify, ret, throw.
    destruct (negb (truthy (arg (tokenPath w))));
      [destruct (mkdir_error w) as [[]|] eqn:Hm; cbn [error_code];
       cbn [mkdir_error add_log]; rewrite ?Hm; cbn [error_code]|];
      cbn [token_file add_log set_tokenPath];
      try discriminate;
      (destruct (token_file w) as [|data|[]];
       [ | destruct (JSON_parse data) | .. ]; cbn; discriminate).
  - intros t now. apply expired_at_iff.
  - intros H. split.
    + intros Hm. destruct (loadToken_resolved w H) as (w1 & _ & L).
      rewrite Hm in L. unfold isTokenValid, bind. rewrite L.
      eexists. reflexivity.
    + intros t Ht Hf.
      destruct (loadToken_stored w t H Ht Hf) as (w1 & L & Hc).
      exists w1. rewrite (isTokenValid_loaded w w1 t L), Hc. reflexivity.
  - intros e Hp Hm He. unfold isTokenValid, bind at 1.
    unfold loadToken. unfold bind at 1.
    rewrite (ensure_initialized_fails w e Hp Hm He). reflexivity.
Qed.

Lemma isTokenValid_decision_witness :
  let t := mkTokenInfo (units "tok") 1000000 (Some 10%Z) in
  let w := fresh_world (Present (JSON_stringify t)) no_env
                       unreachable_network 2000000 in
  let w0 := set_mkdir_error (Some EACCES)
              (fresh_world Missing no_env unreachable_network 0) in
  store_resolves w
  /\ (exists w', isTokenValid w = (Return false, w'))
  /\ isTokenValid w0 = (Throw (SysError EACCES), add_log EvMkdir w0).
Proof.
  intros t w w0.
  assert (H : store_resolves w) by (right; left; reflexivity).
  split; [exact H|]. split.
  - destruct (isTokenValid_decision w) as (_ & _ & _ & _ & _ & Hd & _).
    destruct (Hd H) as (_ & Hs).
    assert (Ht : valid_TokenInfo t).
    { split; [apply wf_units_ascii|]. split; unfold safe_integer; cbn; lia. }
    exact (Hs t Ht eq_refl).
  - destruct (isTokenValid_decision w0) as (_ & _ & _ & _ & _ & _ & Hd).
    apply Hd; [reflexivity | reflexivity | discriminate].
Defined.

(** C5 as the spec words it fails on the code: a record with
    [expires_in = 0] is present and past its expiry instant, so the spec's
    rule answers false, and the code answers true; the same for
    [created_at = 0] with a lifetime of ten seconds. *)
Lemma isTokenValid_not_spec :
  let t0 := mkTokenInfo (units "tok") 1000 (Some 0%Z) in
  let t1 := mkTokenInfo (units "tok") 0 (Some 10%Z) in
  let w0 := fresh_world (Present (JSON_stringify t0)) no_env
                        unreachable_network 5000 in
  let w1 := fresh_world (Present (JSON_stringify t1)) no_env
                        unreachable_network 20000 in
  (fst (isTokenValid w0) = Return true
   /\ spec_isTokenValid (Some t0) (clock w0) = false)
  /\ (fst (isTokenValid w1) = Return true
      /\ spec_isTokenValid (Some t1) (clock w1) = false).
Proof. vm_compute. repeat split; reflexivity. Qed.

End Validity.

(* ================================================================== *)
(** * The session: [setToken], [getUserCheckins], [checkAuth] *)
(* ================================================================== *)

Section Session.

Local Open Scope M_scope.

Lemma pure_ret {A} (a : A) : pure_M (ret a).
Proof. intros w. reflexivity. Qed.

Lemma pure_throw {A} e : pure_M (@throw A e).
Proof. intros w. reflexivity. Qed.

Lemma pure_bind {A B} (c : M A) (k : A -> M B) :
  pure_M c -> (forall a, pure_M (k a)) -> pure_M (bind c k).
Proof.
  intros Hc Hk w. unfold bind. specialize (Hc w).
  destruct (c w) as [[a|e|] w']; simpl in Hc; subst w'; try reflexivity.
  apply Hk.
Qed.

Lemma pure_JSON_parse_M text : pure_M (JSON_parse_M text).
Proof. unfold JSON_parse_M. destruct (JSON_parse text); intros w; reflexivity. Qed.

Lemma pure_get_prop_M v key : pure_M (get_prop_M v key).
Proof. destruct v; intros w; reflexivity. Qed.

(** What [getUserCheckins] does after the response has arrived. *)
Lemma pure_after_response (r : response) :
  pure_M
    (if negb (ok r) then throw (ApiStatusError (status r) (body r))
     else
       data <- JSON_parse_M (body r) ;;
       meta <- get_prop_M data (units "meta") ;;
       code <- get_prop_M meta (units "code") ;;
       if match code with
          | VNum q => Qeq_bool q (inject_Z 200)
          | _ => false
          end
       then
         resp <- get_prop_M data (units "response") ;;
         checkins <- get_prop_M resp (units "checkins") ;;
         get_prop_M checkins (units "items")
       else
         throw (ApiMetaError (get_prop meta (units "errorType"))
                             (get_prop meta (units "errorDetail")))).
Proof.
  destruct (negb (ok r)); [apply pure_throw|].
  apply pure_bind; [apply pure_JSON_parse_M | intros data].
  apply pure_bind; [apply pure_get_prop_M | intros meta].
  apply pure_bind; [apply pure_get_prop_M | intros code].
  match goal with |- pure_M (if ?b then _ else _) => destruct b end.
  - apply pure_bind; [apply pure_get_prop_M | intros resp].
    apply pure_bind; [apply pure_get_prop_M | intros checkins].
    apply pure_get_prop_M.
  - apply pure_throw.
Qed.

(** With a truthy cached token, a call's only effect is one request that
    carries this token. *)
Lemma getUserCheckins_cached o w :
  truthy (accessToken w) = true ->
  exists req,
    req_bearer req = accessToken w
    /\ snd (getUserCheckins o w) = add_log (EvFetch req) w.
Proof.
  intros Ht. unfold getUserCheckins.
  unfold bind at 1. unfold get at 1. cbv beta iota. rewrite Ht. cbn [negb].
  unfold bind at 1. unfold ret at 1. cbv beta iota.
  unfold bind at 1. unfold get at 1. cbv beta iota.
  eexists. split; [|unfold bind at 1; unfold fetch at 1;
                    destruct (network w (log w) _) as [|r];
                    [reflexivity | apply (pure_after_response r)]].
  reflexivity.
Qed.

Lemma checkAuth_cached w :
  truthy (accessToken w) = true ->
  exists req,
    req_bearer req = accessToken w
    /\ checkAuth w =
       (Return match network w (log w) req with
               | FetchThrows => false
               | FetchResponse r => ok r
               end,
        add_log (EvFetch req) w).
Proof.
  intros Ht. unfold checkAuth, bind, get, try_catch, fetch, ret.
  rewrite Ht. cbn [negb].
  exists (mkRequest checkins_url
            [(units "v", API_VERSION); (units "limit", units "1")]
            (accessToken w)).
  split; [reflexivity|].
  destruct (network w (log w) _); reflexivity.
Qed.

Lemma store_only_ret {A} (a : A) : store_only (ret a).
Proof. intros w. repeat split. discriminate. Qed.

Lemma store_only_throw {A} e : store_only (@throw A e).
Proof. intros w. repeat split. discriminate. Qed.

Lemma store_only_get {A} (f : World -> A) : store_only (get f).
Proof. intros w. repeat split. discriminate. Qed.

Lemma store_only_bind {A B} (c : M A) (k : A -> M B) :
  store_only c -> (forall a, store_only (k a)) -> store_only (bind c k).
Proof.
  intros Hc Hk w. unfold bind. destruct (Hc w) as (H1 & H2 & H3).
  destruct (c w) as [[a|e|] w1]; cbn [fst snd] in *.
  - destruct (Hk a w1) as (K1 & K2 & K3). repeat split; congruence.
  - repeat split; try assumption. discriminate.
  - contradiction.
Qed.

Lemma store_only_try_catch {A} (c : M A) (h : error -> M A) :
  store_only c -> (forall e, store_only (h e)) -> store_only (try_catch c h).
Proof.
  intros Hc Hh w. unfold try_catch. destruct (Hc w) as (H1 & H2 & H3).
  destruct (c w) as [[a|e|] w1]; cbn [fst snd] in *.
  - repeat split; try assumption.
  - destruct (Hh e w1) as (K1 & K2 & K3). repeat split; congruence.
  - contradiction.
Qed.

Lemma store_only_fs_mkdir : store_only fs_mkdir.
Proof.
  intros w. unfold fs_mkdir. destruct (mkdir_error w); repeat split; discriminate.
Qed.

Lemma store_only_fs_readFile : store_only fs_readFile.
Proof.
  intros w. unfold fs_readFile.
  destruct (token_file w); repeat split; discriminate.
Qed.

Lemma store_only_ensureConfigDir : store_only ensureConfigDir.
Proof.
  unfold ensureConfigDir, getConfigDir.
  apply store_only_bind; [apply store_only_get | intros dir].
  apply store_only_bind; [|intros; apply store_only_ret].
  apply store_only_try_catch; [apply store_only_fs_mkdir|].
  intros e. destruct (error_code e) as [[]|];
    first [apply store_only_ret | apply store_only_throw].
Qed.

Lemma store_only_ensure_initialized : store_only ensure_initialized.
Proof.
  unfold ensure_initialized.
  apply store_only_bind; [apply store_only_get | intros p].
  destruct (negb (truthy (arg p))); [|apply store_only_ret].
  unfold initialize, getTokenPath.
  apply store_only_bind; [apply store_only_ensureConfigDir | intros _].
  apply store_only_bind.
  - apply store_only_bind; [apply store_only_ensureConfigDir | intros d].
    apply store_only_ret.
  - intros p' w. repeat split. discriminate.
Qed.

(** Resolving the location touches only the cached path and the log. *)
Lemma ensure_initialized_outside w :
  same_outside w (snd (ensure_initialized w)).
Proof.
  unfold ensure_initialized, bind, get.
  destruct (negb (truthy (arg (tokenPath w)))); [|apply same_outside_refl].
  unfold initialize, getTokenPath, ensureConfigDir, getConfigDir, bind,
    get, try_catch, fs_mkdir, modify, ret.
  destruct (mkdir_error w) as [[]|] eqn:Hm; cbn [error_code];
    cbn [mkdir_error add_log]; rewrite ?Hm; cbn [error_code snd];
    unfold same_outside; cbn; repeat split; assumption.
Qed.

(** How a save ends: the outcome of resolving the location, then that of
    the write. *)
Lemma saveToken_value_outcome v data w :
  JSON_stringify_value v = Some data ->
  exists w0,
    token_file w0 = token_file w /\ write_error w0 = write_error w
    /\ clock w0 = clock w
    /\ ((exists e, ensure_initialized w = (Throw e, w0)
                   /\ saveToken_value v w = (Throw e, w0))
        \/ (ensure_initialized w = (Return tt, w0)
            /\ saveToken_value v w = fs_writeFile data w0)).
Proof.
  intros Hd. unfold saveToken_value. rewrite Hd. unfold bind.
  pose proof (ensure_initialized_outside w) as (K1 & _ & K2 & _ & _ & _ & K3 & _).
  destruct (store_only_ensure_initialized w) as (U & _).
  destruct (ensure_initialized w) as [[[]|e|] w0]; cbn [fst snd] in *.
  - exists w0. repeat (split; [assumption|]). right. split; reflexivity.
  - exists w0. repeat (split; [assumption|]). left. exists e.
    split; reflexivity.
  - contradiction.
Qed.

(** [loadToken] returns or throws, and does not touch the network or the
    API object. *)
Lemma loadToken_frame : store_only loadToken.
Proof.
  unfold loadToken.
  apply store_only_bind; [apply store_only_ensure_initialized | intros _].
  apply store_only_try_catch.
  - apply store_only_bind; [apply store_only_fs_readFile | intros data].
    unfold JSON_parse_M. destruct (JSON_parse data);
      [apply store_only_ret | apply store_only_throw].
  - intros e. destruct (error_code e) as [[]|];
      first [apply store_only_ret | apply store_only_throw].
Qed.

(** ** C10: the cached token *)

(** C10, as the code has it.  Once the API object holds a truthy token (a
    non-empty string, which is what [!this.accessToken] tests), every
    later [getUserCheckins] and [checkAuth] call sends this token and
    reads nothing from the Token Store, whatever happens to the token file
    in between: the only effects of the calls are requests that carry the
    cached token, and the cached token stays. *)
Theorem cached_token_is_reused (calls : list api_call) (w : World) :
  truthy (accessToken w) = true ->
  accessToken (run_calls calls w) = accessToken w
  /\ exists new,
       log (run_calls calls w) = new ++ log w
       /\ Forall (fun ev => exists req,
                     ev = EvFetch req /\ req_bearer req = accessToken w) new.
Proof.
  revert w. induction calls as [|c cs IH]; intros w Ht.
  - split; [reflexivity|]. exists []. split; [reflexivity | constructor].
  - assert (Hc : accessToken (run_call c w) = accessToken w
                 /\ exists new1,
                      log (run_call c w) = new1 ++ log w
                      /\ Forall (fun ev => exists req,
                                    ev = EvFetch req
                                    /\ req_bearer req = accessToken w) new1).
    { destruct c as [o| |f]; cbn [run_call].
      - destruct (getUserCheckins_cached o w Ht) as (req & Hb & ->).
        split; [reflexivity|]. exists [EvFetch req].
        split; [reflexivity|]. repeat constructor. exists req. auto.
      - destruct (checkAuth_cached w Ht) as (req & Hb & ->).
        split; [reflexivity|]. exists [EvFetch req].
        split; [reflexivity|]. repeat constructor. exists req. auto.
      - split; [reflexivity|]. exists []. split; [reflexivity | constructor]. }
    destruct Hc as (Ha & new1 & Hl & Hf).
    change (run_calls (c :: cs) w) with (run_calls cs (run_call c w)).
    destruct (IH (run_call c w)) as (Ha' & new & Hl' & Hf').
    { rewrite Ha. exact Ht. }
    split; [congruence|].
    exists (new ++ new1). split.
    + rewrite Hl', Hl, app_assoc. reflexivity.
    + apply Forall_app. split; [|exact Hf].
      rewrite Ha in Hf'. exact Hf'.
Qed.

Lemma cached_token_is_reused_witness :
  let stored := mkTokenInfo (units "S") 2 None in
  let w := set_accessToken (VStr (units "E"))
             (fresh_world Missing no_env accepting_network 0) in
  let calls := [Call_checkAuth;
                File_replaced (Present (JSON_stringify stored));
                Call_getUserCheckins (mkOptions None None None None);
                File_replaced Missing;
                Call_checkAuth] in
  truthy (accessToken w) = true
  /\ accessToken (run_calls calls w) = accessToken w
  /\ exists new,
       log (run_calls calls w) = new ++ log w
       /\ Forall (fun ev => exists req,
                     ev = EvFetch req /\ req_bearer req = accessToken w) new.
Proof.
  intros stored w calls.
  split; [reflexivity|].
  exact (cached_token_is_reused calls w eq_refl).
Defined.

(** C10 as stated fails for a cached token that is not null but falsy.
    A stored record with an empty [access_token] leaves the empty string
    in the API object; the next [checkAuth] then reads the Token Store
    again, and sends the token of the file that replaced the first one. *)
Lemma cached_empty_token_is_resolved_again :
  let first := mkTokenInfo [] 1 None in
  let second := mkTokenInfo (units "S") 2 None in
  let w0 := fresh_world (Present (JSON_stringify first)) no_env
                        accepting_network 0 in
  let w1 := run_calls [Call_checkAuth] w0 in
  let w2 := run_calls [File_replaced (Present (JSON_stringify second));
                       Call_checkAuth] w1 in
  accessToken w1 = VStr []
  /\ accessToken w1 <> VNull
  /\ exists req,
       log w2 = EvFetch req :: EvReadFile :: log w1
       /\ req_bearer req = VStr (units "S").
Proof.
  cbv zeta. split; [vm_compute; reflexivity|].
  split; [vm_compute; discriminate|].
  eexists. split; vm_compute; reflexivity.
Qed.

(** ** C1: which token is resolved *)

(** An explicit token is used directly; the Token Store is not read. *)
Lemma setToken_explicit token w :
  truthy (arg token) = true ->
  setToken token w = (Return tt, set_accessToken (arg token) w).
Proof. intros H. unfold setToken. rewrite H. reflexivity. Qed.

(** Without an explicit token the stored one is taken, and a missing
    record is an error. *)
Lemma setToken_stored token w :
  truthy (arg token) = false ->
  setToken token w =
  match loadToken w with
  | (Return tokenInfo, w1) =>
      if truthy tokenInfo
      then (Return tt, set_accessToken (get_prop tokenInfo k_access_token) w1)
      else (Throw TokenNotFound, w1)
  | (Throw e, w1) => (Throw e, w1)
  | (Unmodelled, w1) => (Unmodelled, w1)
  end.
Proof.
  intros H. unfold setToken. rewrite H. unfold bind.
  destruct (loadToken w) as [[v|e|] w1]; try reflexivity.
  destruct (truthy v); reflexivity.
Qed.

(** C1 on the code: the environment's token is never consulted.  With
    [FOURSQUARE_ACCESS_TOKEN = "V"] and a stored token ["S"], no explicit
    token, the code resolves ["S"] where the spec's precedence gives
    ["V"]; with the environment's token alone the code fails with "token
    not found" where the spec's precedence gives ["V"]. *)
Lemma setToken_ignores_environment_token :
  let e := mkEnv None None (Some (units "V")) in
  let stored := mkTokenInfo (units "S") 1700000000000 None in
  let w_both := fresh_world (Present (JSON_stringify stored)) e
                            accepting_network 1700000000001 in
  let w_env := fresh_world Missing e accepting_network 1700000000001 in
  (accessToken (snd (setToken None w_both)) = VStr (units "S")
   /\ spec_resolveToken None (Some (units "V")) (Some (units "S"))
      = Some (units "V"))
  /\ (fst (setToken None w_env) = Throw TokenNotFound
      /\ spec_resolveToken None (Some (units "V")) None = Some (units "V")).
Proof. vm_compute. repeat split; reflexivity. Qed.

(** ** C2: [checkAuth] *)

(** C2 as stated fails: with no cached token and a token file that is
    not valid JSON, [checkAuth] throws the parse error of [loadToken],
    which it calls outside its [try]. *)
Lemma checkAuth_throws_on_corrupt_file :
  let w := fresh_world (Present (units "{")) no_env accepting_network 0 in
  truthy (accessToken w) = false
  /\ JSON_parse (units "{") = None
  /\ fst (checkAuth w) = Throw SyntaxError.
Proof. vm_compute. repeat split; reflexivity. Qed.

(** C2, as the code has it.  [checkAuth] returns a boolean, whatever the
    network does, when a token is cached or the read of the Token Store
    succeeds (file absent, or present and parseable); a transport error
    of the probe gives [false].  When no token is cached and reading the
    store throws (unparseable or unreadable file, directory that cannot
    be created), that error reaches the caller. *)
Theorem checkAuth_boolean_unless_store_throws (w : World) :
  (truthy (accessToken w) = true ->
   exists b w', checkAuth w = (Return b, w'))
  /\ (forall v w1,
        truthy (accessToken w) = false -> loadToken w = (Return v, w1) ->
        exists b w', checkAuth w = (Return b, w'))
  /\ (forall e w1,
        truthy (accessToken w) = false -> loadToken w = (Throw e, w1) ->
        checkAuth w = (Throw e, w1))
  /\ fst (loadToken w) <> Unmodelled
  /\ (forall b w',
        (forall l r, network w l r = FetchThrows) ->
        checkAuth w = (Return b, w') -> b = false).
Proof.
  split; [|split; [|split; [|split]]].
  - intros Ht. destruct (checkAuth_cached w Ht) as (req & _ & E).
    eexists. eexists. exact E.
  - intros v w1 Hf L. unfold checkAuth, bind, get. rewrite Hf. cbn [negb].
    rewrite L. destruct (truthy v); cbn [negb].
    + unfold modify, ret, try_catch, bind, get, fetch. cbn [negb]. cbv beta.
      match goal with
      | |- context [network ?a ?b ?c] => destruct (network a b c)
      end; eexists; eexists; reflexivity.
    + eexists. eexists. reflexivity.
  - intros e w1 Hf L. unfold checkAuth, bind, get. rewrite Hf. cbn [negb].
    rewrite L. reflexivity.
  - apply (loadToken_frame w).
  - intros b w' Hn.
    destruct (truthy (accessToken w)) eqn:Hf.
    + destruct (checkAuth_cached w Hf) as (req & _ & E).
      rewrite Hn in E. rewrite E. intros E'. inversion E'. reflexivity.
    + unfold checkAuth, bind, get. rewrite Hf. cbn [negb].
      destruct (loadToken_frame w) as (Hu & Hnet & _).
      destruct (loadToken w) as [[v|e|] w1]; cbn [fst snd] in Hnet, Hu;
        [ | discriminate | contradiction ].
      destruct (truthy v); cbn [negb].
      * unfold modify, ret, try_catch, bind, get, fetch. cbn [negb]. cbv beta.
        cbn [network set_accessToken]. rewrite Hnet, Hn.
        intros E. inversion E. reflexivity.
      * unfold ret. intros E. inversion E. reflexivity.
Qed.

Lemma checkAuth_boolean_unless_store_throws_witness :
  let w := set_accessToken (VStr (units "E"))
             (fresh_world (Present (units "{")) no_env unreachable_network 0) in
  truthy (accessToken w) = true
  /\ exists b w', checkAuth w = (Return b, w').
Proof.
  intros w. split; [reflexivity|].
  destruct (checkAuth_boolean_unless_store_throws w) as (H & _).
  apply H. reflexivity.
Defined.

End Session.

(* ================================================================== *)
(** * C3: what a reader sees while [saveToken] writes *)
(* ================================================================== *)

Section Atomicity.

Lemma prefixes_are_prefixes data p :
  In p (prefixes data) -> exists rest, data = p ++ rest.
Proof.
  revert p. induction data as [|c d IH]; intros p Hp; simpl in Hp.
  - destruct Hp as [<- | []]. exists []. reflexivity.
  - destruct Hp as [<- | Hp].
    + exists (c :: d). reflexivity.
    + apply in_map_iff in Hp as (p' & <- & Hp').
      destruct (IH p' Hp') as (rest & ->). exists rest. reflexivity.
Qed.

Lemma prefixes_head data : exists more, prefixes data = [] :: more.
Proof. destruct data; eexists; reflexivity. Qed.

Lemma prefixes_nonempty data : prefixes data <> [].
Proof. destruct (prefixes_head data) as (more & ->). discriminate. Qed.

Lemma last_skip_head {A} (x : A) l d : l <> [] -> last (x :: l) d = last l d.
Proof. destruct l; [contradiction | reflexivity]. Qed.

Lemma last_map_nonempty {A B} (f : A -> B) l d d' :
  l <> [] -> last (map f l) d' = f (last l d).
Proof.
  induction l as [|x l IH]; intros Hl; [contradiction|].
  destruct l as [|y l']; [reflexivity|].
  cbn [map]. rewrite !last_skip_head by discriminate.
  apply IH. discriminate.
Qed.

Lemma prefixes_last data : last (prefixes data) [] = data.
Proof.
  induction data as [|c d IH]; [reflexivity|].
  cbn [prefixes].
  rewrite last_skip_head
    by (intros E; apply map_eq_nil in E; exact (prefixes_nonempty d E)).
  transitivity (c :: last (prefixes d) []).
  - apply (last_map_nonempty (cons c)). apply prefixes_nonempty.
  - rewrite IH. reflexivity.
Qed.

(** C3 as stated fails: while [saveToken] writes this record, the file is
    first empty and then holds beginnings of the text; none of these
    states is "absent", and [JSON.parse] rejects every one of them but
    the last, so a reader's [loadToken] throws. *)
Lemma saveToken_exposes_partial_file :
  let t := mkTokenInfo (units "tok_xyz") 1700000000000 None in
  let reader := fresh_world (Present []) no_env unreachable_network 0 in
  In (Present []) (saveToken_states t)
  /\ fst (loadToken reader) = Throw SyntaxError
  /\ forallb (fun st => match st with
                        | Present data =>
                            match JSON_parse data with
                            | Some _ => false
                            | None => true
                            end
                        | _ => false
                        end)
             (removelast (saveToken_states t)) = true.
Proof.
  cbv zeta. split; [left; reflexivity|].
  split; vm_compute; reflexivity.
Qed.

(** C3, as the code has it.  [saveToken] writes the file in place, with
    no temporary file and no rename.  Once the save has completed the
    file holds the whole serialized record, which a reader parses back;
    before that, a reader finds the file empty (which [JSON.parse]
    rejects) or holding a beginning of the serialized record. *)
Theorem saveToken_writes_in_place (t : TokenInfo) :
  valid_TokenInfo t ->
  (forall st, In st (saveToken_states t) ->
     exists p rest, st = Present p /\ JSON_stringify t = p ++ rest)
  /\ (exists more, saveToken_states t = Present [] :: more)
  /\ JSON_parse [] = None
  /\ last (saveToken_states t) Missing = Present (JSON_stringify t)
  /\ JSON_parse (JSON_stringify t) = Some (TokenInfo_value t)
  /\ (forall w w',
        saveToken t w = (Return tt, w') ->
        token_file w' = last (saveToken_states t) Missing).
Proof.
  intros Ht. unfold saveToken_states, writeFile_states.
  assert (Hlast : last (map Present (prefixes (JSON_stringify t))) Missing
                  = Present (JSON_stringify t)).
  { rewrite (last_map_nonempty Present _ [] Missing)
      by apply prefixes_nonempty.
    rewrite prefixes_last. reflexivity. }
  split; [|split; [|split; [|split; [|split]]]].
  - intros st Hst. apply in_map_iff in Hst as (p & <- & Hp).
    destruct (prefixes_are_prefixes _ p Hp) as (rest & E).
    exists p, rest. split; [reflexivity | exact E].
  - destruct (prefixes_head (JSON_stringify t)) as (more & ->).
    eexists. reflexivity.
  - reflexivity.
  - exact Hlast.
  - apply JSON_parse_stringify. exact Ht.
  - intros w w' E. rewrite Hlast.
    unfold saveToken, bind in E.
    destruct (ensure_initialized w) as [[[]|e|] w1]; try discriminate.
    unfold fs_writeFile in E.
    destruct (write_error w1) as [[e|e n]|]; [discriminate|discriminate|].
    inversion E. reflexivity.
Qed.

Lemma saveToken_writes_in_place_witness :
  let t := mkTokenInfo (units "tok_xyz") 1700000000000 None in
  valid_TokenInfo t
  /\ last (saveToken_states t) Missing = Present (JSON_stringify t).
Proof.
  intros t.
  assert (Ht : valid_TokenInfo t).
  { split; [apply wf_units_ascii|]. split; unfold safe_integer; cbn; lia. }
  split; [exact Ht|].
  destruct (saveToken_writes_in_place t Ht) as (_ & _ & _ & H & _).
  exact H.
Defined.

End Atomicity.

(* ================================================================== *)
(** * The authorization flow *)
(* ================================================================== *)

Section AuthorizationFlow.

Local Open Scope M_scope.

Lemma returns_ret {A} (P : A -> Prop) a : P a -> returns P (ret a).
Proof. intros H w a' w' E. inversion E. subst. exact H. Qed.

Lemma returns_throw {A} (P : A -> Prop) e : returns P (throw e).
Proof. intros w a w' E. discriminate. Qed.

Lemma returns_bind {A B} (P : B -> Prop) (c : M A) (k : A -> M B) :
  (forall a, returns P (k a)) -> returns P (bind c k).
Proof.
  intros Hk w b w' E. unfold bind in E.
  destruct (c w) as [[a|e|] w1]; try discriminate.
  exact (Hk a w1 b w' E).
Qed.

Lemma returns_bind_with {A B} (Q : A -> Prop) (P : B -> Prop)
  (c : M A) (k : A -> M B) :
  returns Q c -> (forall a, Q a -> returns P (k a)) -> returns P (bind c k).
Proof.
  intros Hc Hk w b w' E. unfold bind in E.
  destruct (c w) as [[a|e|] w1] eqn:Ec; try discriminate.
  exact (Hk a (Hc w a w1 Ec) w1 b w' E).
Qed.

Lemma returns_try_catch {A} (P : A -> Prop) (c : M A) (h : error -> M A) :
  returns P c -> (forall e, returns P (h e)) -> returns P (try_catch c h).
Proof.
  intros Hc Hh w a w' E. unfold try_catch in E.
  destruct (c w) as [[x|e|] w1] eqn:Ec; try discriminate.
  - inversion E. subst. exact (Hc w a w' Ec).
  - exact (Hh e w1 a w' E).
Qed.

Lemma exchange_continue_result r fl :
  returns (exchange_result fl) (exchange_continue r fl).
Proof.
  unfold exchange_continue.
  apply returns_bind_with
    with (Q := fun x => exchange_result fl (handler_done x)).
  - apply returns_try_catch.
    + apply returns_bind. intros tokenData.
      apply returns_bind. intros err.
      destruct (truthy err); [apply returns_throw|].
      apply returns_bind. intros token.
      destruct (negb (truthy token)); [apply returns_throw|].
      apply returns_bind. intros now.
      apply returns_bind. intros _.
      apply returns_ret. right. eexists. eexists. reflexivity.
    + intros e. apply returns_ret. left. exists e. reflexivity.
  - intros x Hx. apply returns_ret. exact Hx.
Qed.

(** The rest of the handler on a reply that is JSON and not null, as one
    equation: an [error] field wins, then a missing token, then the
    outcome of the save decides. *)
Lemma exchange_continue_json v fl w :
  v <> VNull -> v <> VUndefined ->
  exchange_continue (ReplyJson v) fl w =
  if truthy (get_prop v (units "error")) then
    (Return (rejected_with (TokenExchangeError (get_prop v (units "error"))) fl),
     w)
  else if negb (truthy (get_prop v k_access_token)) then
    (Return (rejected_with NoAccessTokenError fl), w)
  else
    match saveToken_value
            (tokenInfo_of (get_prop v k_access_token) (clock w)) w with
    | (Return _, w1) =>
        (Return
           (handler_done
              (settle
                 (Resolved (tokenInfo_of (get_prop v k_access_token) (clock w)))
                 (set_timers (close_timers fl ++ [(clock w + 1000)%Z])
                    (timeout_due fl) (res_send SuccessPage fl)))),
         w1)
    | (Throw e, w1) => (Return (rejected_with e fl), w1)
    | (Unmodelled, w1) => (Unmodelled, w1)
    end.
Proof.
  intros N1 N2.
  assert (G : forall k, get_prop_M v k w = (Return (get_prop v k), w))
    by (intros k; destruct v; try reflexivity; contradiction).
  unfold exchange_continue, rejected_with.
  unfold bind at 1. unfold try_catch.
  unfold bind at 1. unfold ret at 1.
  unfold bind at 1. rewrite G.
  destruct (truthy (get_prop v (units "error"))); [reflexivity|].
  unfold bind at 1. rewrite G.
  destruct (truthy (get_prop v k_access_token)); cbn [negb]; [|reflexivity].
  unfold bind at 1. unfold Date_now, get.
  unfold bind at 1.
  destruct (saveToken_value _ w) as [[[]|e|] w1]; reflexivity.
Qed.



(** ** The promise settles once *)

Lemma promise_settle x fl s :
  promise fl = Some s -> promise (settle x fl) = Some s.
Proof. intros H. unfold settle. rewrite H. exact H. Qed.

Lemma promise_callback_handler q fl s :
  promise fl = Some s -> promise (callback_handler q fl) = Some s.
Proof.
  intros H. unfold callback_handler.
  destruct (truthy (arg (q_error q))).
  - cbn [handler_done promise]. apply promise_settle. exact H.
  - destruct (negb (truthy (arg (q_code q)))).
    + cbn [handler_done promise]. apply promise_settle. exact H.
    + exact H.
Qed.

Lemma promise_exchange_result fl fl' s :
  promise fl = Some s -> exchange_result fl fl' -> promise fl' = Some s.
Proof.
  intros H [(e & ->) | (t & due & ->)];
    cbn [handler_done promise]; apply promise_settle; exact H.
Qed.

Lemma promise_fire_timers now fl s :
  promise fl = Some s -> promise (fire_timers now fl) = Some s.
Proof.
  intros H. unfold fire_timers.
  set (fl1 := match filter _ (close_timers fl) with
              | [] => fl
              | _ => server_close fl
              end).
  assert (H1 : promise fl1 = Some s).
  { subst fl1. destruct (filter _ (close_timers fl)); exact H. }
  cbn [timeout_due set_timers].
  destruct (timeout_due fl1) as [t|]; [|exact H1].
  destruct (t <=? now)%Z; [|exact H1].
  apply promise_settle. exact H1.
Qed.

Lemma flow_step_keeps_settlement ev fl s :
  promise fl = Some s ->
  returns (fun fl' => promise fl' = Some s) (flow_step ev fl).
Proof.
  intros H. destruct ev as [q| |i r|ms| |q|]; cbn [flow_step].
  - destruct (listening fl); apply returns_ret;
      [apply promise_callback_handler|]; exact H.
  - destruct (listening fl); apply returns_ret; exact H.
  - destruct (nth_error (awaiting fl) i); [|apply returns_ret; exact H].
    intros w fl' w' E.
    apply (promise_exchange_result
             (set_awaiting (remove_nth i (awaiting fl)) fl)); [exact H|].
    exact (exchange_continue_result r _ w fl' w' E).
  - apply returns_bind. intros now. apply returns_bind. intros _.
    apply returns_ret. apply promise_fire_timers. exact H.
  - destruct (listening fl); apply returns_ret; exact H.
  - destruct (connected fl); apply returns_ret;
      [apply promise_callback_handler|]; exact H.
  - destruct (connected fl); apply returns_ret; exact H.
Qed.


(** ** Closing the listener *)

Lemma listening_settle x fl : listening (settle x fl) = listening fl.
Proof. unfold settle. destruct (promise fl); reflexivity. Qed.

Lemma completed_settle x fl : completed (settle x fl) = completed fl.
Proof. unfold settle. destruct (promise fl); reflexivity. Qed.



(** A successful exchange: the record is saved, the success page is sent,
    the listener stays as it is and its closing is scheduled one second
    later. *)
Lemma exchange_continue_success fl w v w1 :
  truthy (get_prop v (units "error")) = false ->
  truthy (get_prop v k_access_token) = true ->
  saveToken_value (tokenInfo_of (get_prop v k_access_token) (clock w)) w
  = (Return tt, w1) ->
  exchange_continue (ReplyJson v) fl w =
  (Return
     (handler_done
        (settle (Resolved (tokenInfo_of (get_prop v k_access_token) (clock w)))
           (set_timers (close_timers fl ++ [(clock w + 1000)%Z])
              (timeout_due fl) (res_send SuccessPage fl)))),
   w1).
Proof.
  intros He Ht Hs.
  rewrite exchange_continue_json
    by (intros ->; discriminate).
  rewrite He, Ht, Hs. reflexivity.
Qed.

(** ** C4 *)




(** ** C7 *)




End AuthorizationFlow.

(* ================================================================== *)
(** * More on the Token Store *)
(* ================================================================== *)

Section TokenStoreMore.

Local Open Scope M_scope.

Lemma resolved_path_resolves w :
  truthy (arg (tokenPath w)) = true -> store_resolves w.
Proof. intros H. left. exact H. Qed.

Lemma ensure_initialized_cached w :
  truthy (arg (tokenPath w)) = true -> ensure_initialized w = (Return tt, w).
Proof.
  intros H. unfold ensure_initialized, bind, get. rewrite H. reflexivity.
Qed.

(** [deleteToken] where nothing stops [fs.unlink]: the file is gone
    afterwards, whether it was there or not. *)
Lemma deleteToken_removes w :
  store_resolves w -> unlink_error w = None ->
  exists w1,
    deleteToken w = (Return tt, w1)
    /\ token_file w1 = Missing
    /\ truthy (arg (tokenPath w1)) = true
    /\ unlink_error w1 = None.
Proof.
  intros H Hu.
  destruct (ensure_initialized_resolves w H) as (w0 & E & Hs & Hp & _).
  destruct Hs as (Hf & _ & _ & Hu0 & _).
  unfold deleteToken, bind. rewrite E.
  unfold try_catch, fs_unlink. rewrite Hu0, Hu.
  destruct (token_file w0) eqn:F0; cbn [error_code];
    (eexists; split; [reflexivity|]; cbn;
     repeat split; first [reflexivity | assumption | congruence]).
Qed.

(** X1.  [deleteToken] is idempotent: with a resolvable location and no
    failure of [fs.unlink] other than "no such file", the first call
    removes the token file if there is one, a second call right after it
    returns as well, and the file is absent after each. *)
Theorem deleteToken_idempotent (w : World) :
  store_resolves w -> unlink_error w = None ->
  exists w1 w2,
    deleteToken w = (Return tt, w1) /\ token_file w1 = Missing
    /\ deleteToken w1 = (Return tt, w2) /\ token_file w2 = Missing.
Proof.
  intros H Hu.
  destruct (deleteToken_removes w H Hu) as (w1 & E1 & F1 & P1 & U1).
  destruct (deleteToken_removes w1 (resolved_path_resolves w1 P1) U1)
    as (w2 & E2 & F2 & _).
  exists w1, w2. repeat split; assumption.
Qed.

Lemma deleteToken_idempotent_witness :
  let t := mkTokenInfo (units "tok") 1700000000000 None in
  let w := fresh_world (Present (JSON_stringify t)) no_env
                       unreachable_network 0 in
  store_resolves w /\ unlink_error w = None
  /\ exists w1 w2,
       deleteToken w = (Return tt, w1) /\ token_file w1 = Missing
       /\ deleteToken w1 = (Return tt, w2) /\ token_file w2 = Missing.
Proof.
  intros t w.
  assert (H : store_resolves w) by (right; left; reflexivity).
  split; [exact H|]. split; [reflexivity|].
  exact (deleteToken_idempotent w H eq_refl).
Defined.

(** X2.  The last writer wins: after two saves, [loadToken] returns the
    record of the second one. *)
Theorem saveToken_overwrites (w : World) (r1 r2 : TokenInfo) :
  valid_TokenInfo r2 -> store_resolves w -> write_error w = None ->
  exists w1 w2 w3,
    saveToken r1 w = (Return tt, w1)
    /\ saveToken r2 w1 = (Return tt, w2)
    /\ loadToken w2 = (Return (TokenInfo_value r2), w3).
Proof.
  intros Hr H Hw.
  destruct (ensure_initialized_resolves w H) as (w0 & E & Hs & Hp & _).
  destruct Hs as (_ & _ & Hw0 & _).
  assert (S1 : saveToken r1 w
               = (Return tt, set_token_file (Present (JSON_stringify r1))
                               (add_log (EvWriteFile (JSON_stringify r1)) w0))).
  { unfold saveToken, bind. rewrite E. unfold fs_writeFile.
    rewrite Hw0, Hw. reflexivity. }
  set (w1 := set_token_file (Present (JSON_stringify r1))
               (add_log (EvWriteFile (JSON_stringify r1)) w0)) in *.
  assert (P1 : truthy (arg (tokenPath w1)) = true) by exact Hp.
  assert (W1 : write_error w1 = None) by (cbn; rewrite Hw0; exact Hw).
  destruct (saveToken_writes w1 r2 (resolved_path_resolves w1 P1) W1)
    as (w2 & S2 & F2 & P2 & _).
  exists w1, w2. eexists.
  split; [exact S1|]. split; [exact S2|].
  rewrite (load_after_init w2 P2), F2, (JSON_parse_stringify r2 Hr).
  reflexivity.
Qed.

Lemma saveToken_overwrites_witness :
  let r1 := mkTokenInfo (units "old") 1 None in
  let r2 := mkTokenInfo (units "new") 2 (Some 7200%Z) in
  let w := fresh_world Missing no_env unreachable_network 0 in
  valid_TokenInfo r2 /\ store_resolves w /\ write_error w = None
  /\ exists w1 w2 w3,
       saveToken r1 w = (Return tt, w1)
       /\ saveToken r2 w1 = (Return tt, w2)
       /\ loadToken w2 = (Return (TokenInfo_value r2), w3).
Proof.
  intros r1 r2 w.
  assert (Hr : valid_TokenInfo r2).
  { split; [apply wf_units_ascii|]. split; unfold safe_integer; cbn; lia. }
  assert (H : store_resolves w) by (right; left; reflexivity).
  split; [exact Hr|]. split; [exact H|]. split; [reflexivity|].
  exact (saveToken_overwrites w r1 r2 Hr H eq_refl).
Defined.

(** X3.  [deleteToken] undoes [saveToken]: after a save and a delete,
    [loadToken] returns null, [hasToken] answers false and [setToken()]
    fails with "token not found". *)
Theorem deleteToken_after_saveToken (w : World) (r : TokenInfo) :
  store_resolves w -> write_error w = None -> unlink_error w = None ->
  exists w1 w2,
    saveToken r w = (Return tt, w1)
    /\ deleteToken w1 = (Return tt, w2)
    /\ fst (loadToken w2) = Return VNull
    /\ fst (hasToken w2) = Return false
    /\ fst (setToken None w2) = Throw TokenNotFound.
Proof.
  intros H Hw Hu.
  destruct (ensure_initialized_resolves w H) as (w0 & E & Hs & Hp & _).
  destruct Hs as (_ & _ & Hw0 & Hu0 & _).
  assert (S1 : saveToken r w
               = (Return tt, set_token_file (Present (JSON_stringify r))
                               (add_log (EvWriteFile (JSON_stringify r)) w0))).
  { unfold saveToken, bind. rewrite E. unfold fs_writeFile.
    rewrite Hw0, Hw. reflexivity. }
  set (w1 := set_token_file (Present (JSON_stringify r))
               (add_log (EvWriteFile (JSON_stringify r)) w0)) in *.
  assert (P1 : truthy (arg (tokenPath w1)) = true) by exact Hp.
  assert (U1 : unlink_error w1 = None) by (cbn; rewrite Hu0; exact Hu).
  destruct (deleteToken_removes w1 (resolved_path_resolves w1 P1) U1)
    as (w2 & D & F2 & P2 & _).
  exists w1, w2.
  assert (L : loadToken w2 = (Return VNull, add_log EvReadFile w2))
    by (rewrite (load_after_init w2 P2), F2; reflexivity).
  split; [exact S1|]. split; [exact D|].
  split; [rewrite L; reflexivity|].
  split.
  - unfold hasToken, bind. rewrite L. reflexivity.
  - rewrite (setToken_stored None w2 eq_refl), L. reflexivity.
Qed.

Lemma deleteToken_after_saveToken_witness :
  let r := mkTokenInfo (units "tok") 1700000000000 None in
  let w := fresh_world Missing no_env unreachable_network 0 in
  store_resolves w /\ write_error w = None /\ unlink_error w = None
  /\ exists w1 w2,
       saveToken r w = (Return tt, w1)
       /\ deleteToken w1 = (Return tt, w2)
       /\ fst (loadToken w2) = Return VNull
       /\ fst (hasToken w2) = Return false
       /\ fst (setToken None w2) = Throw TokenNotFound.
Proof.
  intros r w.
  assert (H : store_resolves w) by (right; left; reflexivity).
  split; [exact H|]. split; [reflexivity|]. split; [reflexivity|].
  exact (deleteToken_after_saveToken w r H eq_refl eq_refl).
Defined.

Lemma loadToken_via_init w w0 :
  ensure_initialized w = (Return tt, w0) ->
  truthy (arg (tokenPath w0)) = true ->
  loadToken w = loadToken w0.
Proof.
  intros E Hp. unfold loadToken. unfold bind at 1. rewrite E.
  unfold bind at 2. rewrite (ensure_initialized_cached w0 Hp). reflexivity.
Qed.

Lemma loadToken_snd_after_init w :
  truthy (arg (tokenPath w)) = true ->
  snd (loadToken w) = add_log EvReadFile w.
Proof.
  intros Hp. rewrite (load_after_init w Hp).
  destruct (token_file w) as [|data|[]]; try reflexivity.
  destruct (JSON_parse data); reflexivity.
Qed.

(** X4.  [hasToken] tests [!== null] where [setToken], [checkAuth] and
    [isTokenValid] test truthiness.  For a token file that holds a JSON
    value that is falsy but not null (0, false, an empty string),
    [hasToken] answers true, yet [setToken()] fails with "token not
    found" and [isTokenValid] answers false; and [checkAuth], in a
    process that has no token cached, answers false.  (With a token
    cached, [checkAuth] does not read the store.) *)
Theorem falsy_record_counts_as_token_only_for_hasToken
  (w : World) (data : jsstring) (v : value) :
  store_resolves w ->
  token_file w = Present data -> JSON_parse data = Some v ->
  v <> VNull -> truthy v = false ->
  fst (hasToken w) = Return true
  /\ fst (setToken None w) = Throw TokenNotFound
  /\ fst (isTokenValid w) = Return false
  /\ (truthy (accessToken w) = false -> fst (checkAuth w) = Return false).
Proof.
  intros H Hf Hv Hn Ht.
  destruct (loadToken_resolved w H) as (w1 & _ & L).
  rewrite Hf, Hv in L.
  repeat split.
  - unfold hasToken, bind. rewrite L. destruct v; try reflexivity.
    contradiction.
  - rewrite (setToken_stored None w eq_refl), L, Ht. reflexivity.
  - unfold isTokenValid, bind. rewrite L, Ht. reflexivity.
  - intros Ha. unfold checkAuth, bind, get. rewrite Ha. cbn [negb].
    rewrite L, Ht. reflexivity.
Qed.

Lemma falsy_record_counts_as_token_only_for_hasToken_witness :
  let w := fresh_world (Present (units "0")) no_env accepting_network 0 in
  store_resolves w
  /\ fst (hasToken w) = Return true
  /\ fst (setToken None w) = Throw TokenNotFound
  /\ fst (isTokenValid w) = Return false
  /\ fst (checkAuth w) = Return false.
Proof.
  intros w.
  assert (H : store_resolves w) by (right; left; reflexivity).
  split; [exact H|].
  destruct (falsy_record_counts_as_token_only_for_hasToken
              w (units "0") (VNum (inject_Z 0)) H eq_refl eq_refl)
    as (H1 & H2 & H3 & H4); [discriminate | reflexivity |].
  split; [exact H1|]. split; [exact H2|]. split; [exact H3|].
  apply H4. reflexivity.
Defined.

(** X5.  The storage location is resolved once per process, by the
    first store operation whose directory creation goes through.  After
    a [loadToken] in a world where the location resolves, the path is
    cached in the token manager, and a later [loadToken] only reads the
    file: it does not create the directory again, and so succeeds or
    fails on the file alone even if [fs.mkdir] would fail by then.  A
    [loadToken] that failed in [fs.mkdir] caches nothing: the next one
    tries to create the directory again. *)
Theorem storage_location_is_resolved_once (w : World) :
  (store_resolves w ->
   truthy (arg (tokenPath (snd (loadToken w)))) = true
   /\ forall m,
        log (snd (loadToken (set_mkdir_error m (snd (loadToken w)))))
        = EvReadFile :: log (snd (loadToken w)))
  /\ (forall e,
        truthy (arg (tokenPath w)) = false ->
        mkdir_error w = Some e -> e <> EEXIST ->
        truthy (arg (tokenPath (snd (loadToken w)))) = false
        /\ log (snd (loadToken (snd (loadToken w))))
           = EvMkdir :: log (snd (loadToken w))).
Proof.
  split.
  - intros H.
    destruct (ensure_initialized_resolves w H) as (w0 & E & _ & Hp & _).
    rewrite (loadToken_via_init w w0 E Hp), (loadToken_snd_after_init w0 Hp).
    split; [exact Hp|].
    intros m. rewrite loadToken_snd_after_init by exact Hp. reflexivity.
  - intros e Hp Hm He.
    assert (L : forall w', truthy (arg (tokenPath w')) = false ->
                           mkdir_error w' = Some e ->
                           loadToken w' = (Throw (SysError e), add_log EvMkdir w')).
    { intros w' Hp' Hm'. unfold loadToken. unfold bind at 1.
      rewrite (ensure_initialized_fails w' e Hp' Hm' He). reflexivity. }
    rewrite (L w Hp Hm). cbn [snd]. split; [exact Hp|].
    rewrite (L (add_log EvMkdir w) Hp Hm). reflexivity.
Qed.

Lemma storage_location_is_resolved_once_witness :
  let w := fresh_world Missing no_env unreachable_network 0 in
  let w0 := set_mkdir_error (Some EACCES) w in
  store_resolves w
  /\ log (snd (loadToken (set_mkdir_error (Some EACCES) (snd (loadToken w)))))
     = EvReadFile :: log (snd (loadToken w))
  /\ log (snd (loadToken (snd (loadToken w0))))
     = EvMkdir :: log (snd (loadToken w0)).
Proof.
  intros w w0.
  assert (H : store_resolves w) by (right; left; reflexivity).
  split; [exact H|]. split.
  - destruct (storage_location_is_resolved_once w) as (Hr & _).
    destruct (Hr H) as (_ & Hm).
    exact (Hm (Some EACCES)).
  - destruct (storage_location_is_resolved_once w0) as (_ & Hf).
    destruct (Hf EACCES) as (_ & Hl);
      [reflexivity | reflexivity | discriminate | exact Hl].
Defined.

(** X6.  A failure of [fs.mkdir] other than "already exists" is surfaced
    by every store operation of a process that has not resolved the path
    yet, after one attempt to create the directory and before the token
    file is read, written or removed. *)
Theorem directory_error_stops_store_operations
  (w : World) (e : errno) (r : TokenInfo) :
  truthy (arg (tokenPath w)) = false ->
  mkdir_error w = Some e -> e <> EEXIST ->
  loadToken w = (Throw (SysError e), add_log EvMkdir w)
  /\ saveToken r w = (Throw (SysError e), add_log EvMkdir w)
  /\ deleteToken w = (Throw (SysError e), add_log EvMkdir w)
  /\ hasToken w = (Throw (SysError e), add_log EvMkdir w)
  /\ isTokenValid w = (Throw (SysError e), add_log EvMkdir w).
Proof.
  intros Hp Hm He.
  pose proof (ensure_initialized_fails w e Hp Hm He) as E.
  assert (L : loadToken w = (Throw (SysError e), add_log EvMkdir w))
    by (unfold loadToken, bind; rewrite E; reflexivity).
  repeat split.
  - exact L.
  - unfold saveToken, bind. rewrite E. reflexivity.
  - unfold deleteToken, bind. rewrite E. reflexivity.
  - unfold hasToken, bind. rewrite L. reflexivity.
  - unfold isTokenValid, bind. rewrite L. reflexivity.
Qed.

Lemma directory_error_stops_store_operations_witness :
  let r := mkTokenInfo (units "tok") 1 None in
  let w := set_mkdir_error (Some EACCES)
             (fresh_world Missing no_env unreachable_network 0) in
  truthy (arg (tokenPath w)) = false /\ mkdir_error w = Some EACCES
  /\ EACCES <> EEXIST
  /\ saveToken r w = (Throw (SysError EACCES), add_log EvMkdir w).
Proof.
  intros r w.
  assert (He : EACCES <> EEXIST) by discriminate.
  split; [reflexivity|]. split; [reflexivity|]. split; [exact He|].
  destruct (directory_error_stops_store_operations w EACCES r eq_refl eq_refl He)
    as (_ & S & _).
  exact S.
Defined.

End TokenStoreMore.

(* ================================================================== *)
(** * More on the session *)
(* ================================================================== *)

Section SessionMore.

Local Open Scope M_scope.

Lemma keeps_file_ret {A} (a : A) : keeps_file (ret a).
Proof. intros w. reflexivity. Qed.

Lemma keeps_file_throw {A} e : keeps_file (@throw A e).
Proof. intros w. reflexivity. Qed.

Lemma keeps_file_unmodelled {A} : keeps_file (@unmodelled A).
Proof. intros w. reflexivity. Qed.

Lemma keeps_file_get {A} (f : World -> A) : keeps_file (get f).
Proof. intros w. reflexivity. Qed.

Lemma keeps_file_bind {A B} (c : M A) (k : A -> M B) :
  keeps_file c -> (forall a, keeps_file (k a)) -> keeps_file (bind c k).
Proof.
  intros Hc Hk w. unfold bind. specialize (Hc w).
  destruct (c w) as [[a|e|] w1]; cbn [snd] in *; try assumption.
  rewrite (Hk a w1). exact Hc.
Qed.

Lemma keeps_file_try_catch {A} (c : M A) (h : error -> M A) :
  keeps_file c -> (forall e, keeps_file (h e)) -> keeps_file (try_catch c h).
Proof.
  intros Hc Hh w. unfold try_catch. specialize (Hc w).
  destruct (c w) as [[a|e|] w1]; cbn [snd] in *; try assumption.
  rewrite (Hh e w1). exact Hc.
Qed.

Lemma keeps_file_pure {A} (c : M A) : pure_M c -> keeps_file c.
Proof. intros H w. rewrite (H w). reflexivity. Qed.

Lemma keeps_file_fs_mkdir : keeps_file fs_mkdir.
Proof. intros w. unfold fs_mkdir. destruct (mkdir_error w); reflexivity. Qed.

Lemma keeps_file_fs_readFile : keeps_file fs_readFile.
Proof.
  intros w. unfold fs_readFile.
  destruct (token_file w) eqn:F; cbn; exact F.
Qed.

Lemma keeps_file_fetch req : keeps_file (fetch req).
Proof. intros w. unfold fetch. destruct (network w (log w) req); reflexivity. Qed.

Lemma keeps_file_ensureConfigDir : keeps_file ensureConfigDir.
Proof.
  unfold ensureConfigDir, getConfigDir.
  apply keeps_file_bind; [apply keeps_file_get | intros dir].
  apply keeps_file_bind; [|intros; apply keeps_file_ret].
  apply keeps_file_try_catch; [apply keeps_file_fs_mkdir|].
  intros e. destruct (error_code e) as [[]|];
    first [apply keeps_file_ret | apply keeps_file_throw].
Qed.

Lemma keeps_file_ensure_initialized : keeps_file ensure_initialized.
Proof.
  unfold ensure_initialized.
  apply keeps_file_bind; [apply keeps_file_get | intros p].
  destruct (negb (truthy (arg p))); [|apply keeps_file_ret].
  unfold initialize, getTokenPath.
  apply keeps_file_bind; [apply keeps_file_ensureConfigDir | intros _].
  apply keeps_file_bind.
  - apply keeps_file_bind; [apply keeps_file_ensureConfigDir | intros d].
    apply keeps_file_ret.
  - intros p' w. reflexivity.
Qed.

Lemma keeps_file_loadToken : keeps_file loadToken.
Proof.
  unfold loadToken.
  apply keeps_file_bind; [apply keeps_file_ensure_initialized | intros _].
  apply keeps_file_try_catch.
  - apply keeps_file_bind; [apply keeps_file_fs_readFile | intros data].
    apply keeps_file_pure, pure_JSON_parse_M.
  - intros e. destruct (error_code e) as [[]|];
      first [apply keeps_file_ret | apply keeps_file_throw].
Qed.

Lemma keeps_file_setToken token : keeps_file (setToken token).
Proof.
  unfold setToken. destruct (truthy (arg token)).
  - intros w. reflexivity.
  - apply keeps_file_bind; [apply keeps_file_loadToken | intros tokenInfo].
    destruct (negb (truthy tokenInfo)); [apply keeps_file_throw|].
    intros w. reflexivity.
Qed.

Lemma keeps_file_checkAuth : keeps_file checkAuth.
Proof.
  unfold checkAuth.
  apply keeps_file_bind; [apply keeps_file_get | intros cached].
  apply keeps_file_bind.
  - destruct (negb (truthy cached)); [|apply keeps_file_ret].
    apply keeps_file_bind; [apply keeps_file_loadToken | intros tokenInfo].
    destruct (negb (truthy tokenInfo)); [apply keeps_file_ret|].
    apply keeps_file_bind; [intros w; reflexivity | intros _].
    apply keeps_file_ret.
  - intros proceed. destruct (negb proceed); [apply keeps_file_ret|].
    apply keeps_file_try_catch; [|intros; apply keeps_file_ret].
    apply keeps_file_bind; [apply keeps_file_get | intros token].
    apply keeps_file_bind; [apply keeps_file_fetch | intros response].
    apply keeps_file_ret.
Qed.

Lemma keeps_file_getUserCheckins o : keeps_file (getUserCheckins o).
Proof.
  unfold getUserCheckins.
  apply keeps_file_bind; [apply keeps_file_get | intros cached].
  apply keeps_file_bind.
  - destruct (negb (truthy cached));
      [apply keeps_file_setToken | apply keeps_file_ret].
  - intros _.
    apply keeps_file_bind; [apply keeps_file_get | intros token].
    apply keeps_file_bind; [apply keeps_file_fetch | intros response].
    apply keeps_file_pure, pure_after_response.
Qed.

Lemma keeps_file_hasToken : keeps_file hasToken.
Proof.
  unfold hasToken.
  apply keeps_file_bind; [apply keeps_file_loadToken | intros token].
  apply keeps_file_ret.
Qed.

Lemma keeps_file_isTokenValid : keeps_file isTokenValid.
Proof.
  unfold isTokenValid.
  apply keeps_file_bind; [apply keeps_file_loadToken | intros token].
  destruct (negb (truthy token)); [apply keeps_file_ret|].
  destruct (truthy (get_prop token k_expires_in)
            && truthy (get_prop token k_created_at)); [|apply keeps_file_ret].
  destruct (get_prop token k_created_at); try apply keeps_file_unmodelled.
  destruct (get_prop token k_expires_in); try apply keeps_file_unmodelled.
  apply keeps_file_bind; [apply keeps_file_get | intros now].
  match goal with |- keeps_file (if ?b then _ else _) => destruct b end;
    apply keeps_file_ret.
Qed.

Lemma keeps_file_check_auth_status : keeps_file check_auth_status.
Proof.
  unfold check_auth_status.
  apply keeps_file_try_catch; [|intros; apply keeps_file_ret].
  apply keeps_file_bind; [apply keeps_file_hasToken | intros present].
  destruct (negb present); [apply keeps_file_ret|].
  apply keeps_file_bind; [apply keeps_file_checkAuth | intros isValid].
  destruct isValid; [|apply keeps_file_ret].
  apply keeps_file_bind; [apply keeps_file_get | intros dir].
  apply keeps_file_bind; [apply keeps_file_get | intros e].
  apply keeps_file_ret.
Qed.

(** X7.  Reading never writes: whatever they return or throw,
    [loadToken], [hasToken], [isTokenValid], [setToken],
    [getUserCheckins], [checkAuth] and the [check-auth-status] tool leave
    the token file exactly as they found it.  In particular no failure of
    the API makes the code drop or rewrite the stored token. *)
Theorem session_operations_keep_token_file :
  keeps_file loadToken
  /\ keeps_file hasToken
  /\ keeps_file isTokenValid
  /\ (forall token, keeps_file (setToken token))
  /\ (forall options, keeps_file (getUserCheckins options))
  /\ keeps_file checkAuth
  /\ keeps_file check_auth_status.
Proof.
  repeat split.
  - apply keeps_file_loadToken.
  - apply keeps_file_hasToken.
  - apply keeps_file_isTokenValid.
  - intros token. apply keeps_file_setToken.
  - intros o. apply keeps_file_getUserCheckins.
  - apply keeps_file_checkAuth.
  - apply keeps_file_check_auth_status.
Qed.

End SessionMore.

(* ================================================================== *)
(** * Requests and their answers *)
(* ================================================================== *)

Section Requests.

Local Open Scope M_scope.

Lemma bind_Return_inv {A B} (c : M A) (k : A -> M B) w b w' :
  bind c k w = (Return b, w') ->
  exists a w1, c w = (Return a, w1) /\ k a w1 = (Return b, w').
Proof.
  unfold bind. intros E. destruct (c w) as [[a|e|] w1]; try discriminate.
  exists a, w1. split; [reflexivity | exact E].
Qed.

Lemma get_prop_M_Return_inv v key w x w' :
  get_prop_M v key w = (Return x, w') -> x = get_prop v key /\ w' = w.
Proof.
  destruct v; cbn; intros E; inversion E; split; reflexivity.
Qed.

Lemma JSON_parse_M_Return_inv text w v w' :
  JSON_parse_M text w = (Return v, w') -> JSON_parse text = Some v /\ w' = w.
Proof.
  unfold JSON_parse_M. destruct (JSON_parse text); cbn; intros E;
    inversion E. split; reflexivity.
Qed.

Lemma mkdir_events_are_store_accesses new :
  Forall (fun ev => ev = EvMkdir) new -> forallb is_store_access new = true.
Proof.
  induction 1 as [|ev l -> _ IH]; [reflexivity|]. cbn. exact IH.
Qed.

(** How [loadToken] ends on a missing file, with the effects it adds. *)
Lemma loadToken_missing w :
  store_resolves w -> token_file w = Missing ->
  exists w1, loadToken w = (Return VNull, w1) /\ no_request_since w w1.
Proof.
  intros H Hf.
  destruct (ensure_initialized_resolves w H)
    as (w0 & E & (Hf0 & _) & Hp & new & Hl & Hnew).
  rewrite (loadToken_via_init w w0 E Hp), (load_after_init w0 Hp), Hf0, Hf.
  eexists. split; [reflexivity|].
  exists (EvReadFile :: new). split.
  - cbn. rewrite Hl. reflexivity.
  - cbn. apply mkdir_events_are_store_accesses. exact Hnew.
Qed.

(** X8.  Without a token there is no request.  In a process with
    nothing cached and no token file, neither [getUserCheckins] nor
    [checkAuth] calls the API.  When the storage location resolves,
    [getUserCheckins] throws "token not found" and [checkAuth] returns
    false; when the directory cannot be created, both throw that system
    error. *)
Theorem no_token_no_request (w : World) (options : checkins_options) :
  truthy (accessToken w) = false -> token_file w = Missing ->
  (store_resolves w ->
   (exists w1, getUserCheckins options w = (Throw TokenNotFound, w1)
               /\ no_request_since w w1)
   /\ (exists w2, checkAuth w = (Return false, w2)
                  /\ no_request_since w w2))
  /\ (forall e,
        truthy (arg (tokenPath w)) = false ->
        mkdir_error w = Some e -> e <> EEXIST ->
        getUserCheckins options w = (Throw (SysError e), add_log EvMkdir w)
        /\ checkAuth w = (Throw (SysError e), add_log EvMkdir w))
  /\ no_request_since w (snd (getUserCheckins options w))
  /\ no_request_since w (snd (checkAuth w)).
Proof.
  intros Ha Hf.
  assert (Hres : store_resolves w ->
                 (exists w1, getUserCheckins options w = (Throw TokenNotFound, w1)
                             /\ no_request_since w w1)
                 /\ (exists w2, checkAuth w = (Return false, w2)
                                /\ no_request_since w w2)).
  { intros H. destruct (loadToken_missing w H Hf) as (w1 & L & Hn).
    split.
    - exists w1. split; [|exact Hn].
      unfold getUserCheckins. unfold bind at 1. unfold get at 1.
      rewrite Ha. cbn [negb]. unfold bind at 1.
      rewrite (setToken_stored None w eq_refl), L. reflexivity.
    - exists w1. split; [|exact Hn].
      unfold checkAuth, bind, get. rewrite Ha. cbn [negb]. rewrite L.
      reflexivity. }
  assert (Hfail : forall e,
             truthy (arg (tokenPath w)) = false ->
             mkdir_error w = Some e -> e <> EEXIST ->
             getUserCheckins options w = (Throw (SysError e), add_log EvMkdir w)
             /\ checkAuth w = (Throw (SysError e), add_log EvMkdir w)).
  { intros e Hp Hm He.
    assert (L : loadToken w = (Throw (SysError e), add_log EvMkdir w)).
    { unfold loadToken. unfold bind at 1.
      rewrite (ensure_initialized_fails w e Hp Hm He). reflexivity. }
    split.
    - unfold getUserCheckins. unfold bind at 1. unfold get at 1.
      rewrite Ha. cbn [negb]. unfold bind at 1.
      rewrite (setToken_stored None w eq_refl), L. reflexivity.
    - unfold checkAuth, bind, get. rewrite Ha. cbn [negb]. rewrite L.
      reflexivity. }
  split; [exact Hres|]. split; [exact Hfail|].
  assert (D : store_resolves w
              \/ exists e, truthy (arg (tokenPath w)) = false
                           /\ mkdir_error w = Some e /\ e <> EEXIST).
  { unfold store_resolves.
    destruct (truthy (arg (tokenPath w))); [left; left; reflexivity|].
    destruct (mkdir_error w) as [e|]; [|left; right; left; reflexivity].
    destruct e;
      try (left; right; right; reflexivity);
      right; eexists; (split; [reflexivity|]);
      (split; [reflexivity | discriminate]). }
  destruct D as [H | (e & Hp & Hm & He)].
  - destruct (Hres H) as ((w1 & -> & Hn1) & (w2 & -> & Hn2)).
    split; assumption.
  - destruct (Hfail e Hp Hm He) as (-> & ->). cbn [snd].
    split; exists [EvMkdir]; split; reflexivity.
Qed.

Lemma no_token_no_request_witness :
  let w := fresh_world Missing no_env accepting_network 0 in
  let w0 := set_mkdir_error (Some EACCES) w in
  store_resolves w /\ truthy (accessToken w) = false
  /\ token_file w = Missing
  /\ (exists w1,
        getUserCheckins (mkOptions None None None None) w
        = (Throw TokenNotFound, w1)
        /\ no_request_since w w1)
  /\ checkAuth w0 = (Throw (SysError EACCES), add_log EvMkdir w0).
Proof.
  intros w w0.
  assert (H : store_resolves w) by (right; left; reflexivity).
  split; [exact H|]. split; [reflexivity|]. split; [reflexivity|].
  split.
  - destruct (no_token_no_request w (mkOptions None None None None)
                eq_refl eq_refl) as (G & _).
    destruct (G H) as (G1 & _). exact G1.
  - destruct (no_token_no_request w0 (mkOptions None None None None)
                eq_refl eq_refl) as (_ & G & _).
    destruct (G EACCES) as (_ & G2);
      [reflexivity | reflexivity | discriminate | exact G2].
Defined.

(** The first call of a process that has a stored record. *)
Lemma getUserCheckins_uncached o w v w1 :
  truthy (accessToken w) = false ->
  loadToken w = (Return v, w1) -> truthy v = true ->
  exists req,
    req_bearer req = get_prop v k_access_token
    /\ snd (getUserCheckins o w)
       = add_log (EvFetch req) (set_accessToken (get_prop v k_access_token) w1).
Proof.
  intros Ha L Hv. unfold getUserCheckins.
  unfold bind at 1. unfold get at 1. cbv beta iota. rewrite Ha. cbn [negb].
  unfold bind at 1.
  rewrite (setToken_stored None w eq_refl), L, Hv.
  unfold bind at 1. unfold get at 1. cbv beta iota.
  eexists. split; [|unfold bind at 1; unfold fetch at 1;
                    match goal with
                    | |- context [network ?a ?b ?c] =>
                        destruct (network a b c) as [|r]
                    end;
                    [reflexivity | apply (pure_after_response r)]].
  reflexivity.
Qed.

Lemma checkAuth_uncached w v w1 :
  truthy (accessToken w) = false ->
  loadToken w = (Return v, w1) -> truthy v = true ->
  exists req,
    req_bearer req = get_prop v k_access_token
    /\ checkAuth w
       = (Return match network w1
                         (log (set_accessToken (get_prop v k_access_token) w1))
                         req with
                 | FetchThrows => false
                 | FetchResponse r => ok r
                 end,
          add_log (EvFetch req)
                  (set_accessToken (get_prop v k_access_token) w1)).
Proof.
  intros Ha L Hv. unfold checkAuth, bind, get. rewrite Ha. cbn [negb].
  rewrite L, Hv. cbn [negb].
  unfold modify, ret, try_catch, bind, get, fetch. cbn [negb]. cbv beta.
  exists (mkRequest checkins_url
            [(units "v", API_VERSION); (units "limit", units "1")]
            (get_prop v k_access_token)).
  split; [reflexivity|].
  cbn [network accessToken set_accessToken log].
  match goal with
  | |- context [network ?a ?b ?c] => destruct (network a b c)
  end; reflexivity.
Qed.

Lemma loadToken_present w data v :
  store_resolves w -> token_file w = Present data ->
  JSON_parse data = Some v ->
  exists w1, loadToken w = (Return v, w1) /\ no_request_since w w1.
Proof.
  intros H Hf Hv.
  destruct (ensure_initialized_resolves w H)
    as (w0 & E & (Hf0 & _) & Hp & new & Hl & Hnew).
  rewrite (loadToken_via_init w w0 E Hp), (load_after_init w0 Hp), Hf0, Hf, Hv.
  eexists. split; [reflexivity|].
  exists (EvReadFile :: new). split.
  - cbn. rewrite Hl. reflexivity.
  - cbn. apply mkdir_events_are_store_accesses. exact Hnew.
Qed.

(** X9.  The stored token is the one that is sent.  In a process that has
    nothing cached, with a stored record [t], both [getUserCheckins] and
    [checkAuth] read the store, then send exactly one request, whose
    bearer is [t]'s access token, and leave that token cached. *)
Theorem stored_token_is_sent (w : World) (t : TokenInfo)
  (options : checkins_options) :
  store_resolves w -> valid_TokenInfo t ->
  token_file w = Present (JSON_stringify t) ->
  truthy (accessToken w) = false ->
  (exists req new,
      log (snd (getUserCheckins options w)) = EvFetch req :: new ++ log w
      /\ forallb is_store_access new = true
      /\ req_bearer req = VStr (access_token t)
      /\ accessToken (snd (getUserCheckins options w)) = VStr (access_token t))
  /\ (exists req new,
        log (snd (checkAuth w)) = EvFetch req :: new ++ log w
        /\ forallb is_store_access new = true
        /\ req_bearer req = VStr (access_token t)
        /\ accessToken (snd (checkAuth w)) = VStr (access_token t)).
Proof.
  intros H Ht Hf Ha.
  destruct (loadToken_present w _ _ H Hf (JSON_parse_stringify t Ht))
    as (w1 & L & new & Hl & Hnew).
  split.
  - destruct (getUserCheckins_uncached options w _ w1 Ha L eq_refl)
      as (req & Hb & ->).
    rewrite get_access_token in *.
    exists req, new. cbn. rewrite Hl. repeat split; assumption.
  - destruct (checkAuth_uncached w _ w1 Ha L eq_refl) as (req & Hb & ->).
    rewrite get_access_token in *.
    exists req, new. cbn. rewrite Hl. repeat split; assumption.
Qed.

Lemma stored_token_is_sent_witness :
  let t := mkTokenInfo (units "tok_xyz") 1700000000000 None in
  let w := fresh_world (Present (JSON_stringify t)) no_env
                       checkins_network 1700000000500 in
  store_resolves w /\ valid_TokenInfo t
  /\ token_file w = Present (JSON_stringify t)
  /\ truthy (accessToken w) = false
  /\ exists req new,
       log (snd (checkAuth w)) = EvFetch req :: new ++ log w
       /\ forallb is_store_access new = true
       /\ req_bearer req = VStr (access_token t)
       /\ accessToken (snd (checkAuth w)) = VStr (access_token t).
Proof.
  intros t w.
  assert (H : store_resolves w) by (right; left; reflexivity).
  assert (Ht : valid_TokenInfo t).
  { split; [apply wf_units_ascii|]. split; unfold safe_integer; cbn; lia. }
  split; [exact H|]. split; [exact Ht|]. split; [reflexivity|].
  split; [reflexivity|].
  destruct (stored_token_is_sent w t (mkOptions None None None None)
              H Ht eq_refl eq_refl) as (_ & G).
  exact G.
Defined.

(** What [getUserCheckins] asks for, with a cached token. *)
Lemma getUserCheckins_request o w :
  truthy (accessToken w) = true ->
  snd (getUserCheckins o w)
  = add_log
      (EvFetch
         (mkRequest checkins_url
            ([ (units "v", API_VERSION);
               (units "limit",
                Number_toString (match truthy_number (opt_limit o) with
                                 | Some l => l
                                 | None => 50%Z
                                 end));
               (units "sort",
                sort_name (match opt_sort o with
                           | Some s => s
                           | None => newestfirst
                           end)) ]
             ++ match truthy_number (opt_afterTimestamp o) with
                | Some t => [(units "afterTimestamp", Number_toString t)]
                | None => []
                end
             ++ match truthy_number (opt_beforeTimestamp o) with
                | Some t => [(units "beforeTimestamp", Number_toString t)]
                | None => []
                end)
            (accessToken w)))
      w.
Proof.
  intros Ht. unfold getUserCheckins.
  unfold bind at 1. unfold get at 1. cbv beta iota. rewrite Ht. cbn [negb].
  unfold bind at 1. unfold ret at 1. cbv beta iota.
  unfold bind at 1. unfold get at 1. cbv beta iota.
  unfold bind at 1. unfold fetch at 1.
  match goal with
  | |- context [network ?a ?b ?c] => destruct (network a b c) as [|r]
  end; [reflexivity | apply (pure_after_response r)].
Qed.

(** X10.  The defaults of [getUserCheckins].  A limit that is not given
    or is 0 is sent as 50, a sort order that is not given as
    [newestfirst]; a timestamp that is not given or is 0 is not sent at
    all; the API version is always sent. *)
Theorem getUserCheckins_defaults (w : World) (o : checkins_options) :
  truthy (accessToken w) = true ->
  exists req,
    snd (getUserCheckins o w) = add_log (EvFetch req) w
    /\ req_url req = checkins_url
    /\ In (units "v", API_VERSION) (req_query req)
    /\ (opt_limit o = None \/ opt_limit o = Some 0%Z ->
        In (units "limit", units "50") (req_query req))
    /\ (opt_sort o = None ->
        In (units "sort", units "newestfirst") (req_query req))
    /\ (opt_afterTimestamp o = None \/ opt_afterTimestamp o = Some 0%Z ->
        has_param (units "afterTimestamp") req = false)
    /\ (opt_beforeTimestamp o = None \/ opt_beforeTimestamp o = Some 0%Z ->
        has_param (units "beforeTimestamp") req = false).
Proof.
  intros Ht. eexists. split; [apply getUserCheckins_request; exact Ht|].
  cbn [req_url req_query].
  split; [reflexivity|]. split; [left; reflexivity|].
  split; [|split; [|split]].
  - intros Hl. right. left.
    assert (E : truthy_number (opt_limit o) = None)
      by (destruct Hl as [-> | ->]; reflexivity).
    rewrite E. reflexivity.
  - intros ->. right. right. left. reflexivity.
  - intros Hl.
    assert (E : truthy_number (opt_afterTimestamp o) = None)
      by (destruct Hl as [-> | ->]; reflexivity).
    unfold has_param. cbn [req_query]. rewrite E.
    destruct (truthy_number (opt_beforeTimestamp o)); reflexivity.
  - intros Hl.
    assert (E : truthy_number (opt_beforeTimestamp o) = None)
      by (destruct Hl as [-> | ->]; reflexivity).
    unfold has_param. cbn [req_query]. rewrite E.
    destruct (truthy_number (opt_afterTimestamp o)); reflexivity.
Qed.

Lemma getUserCheckins_defaults_witness :
  let w := set_accessToken (VStr (units "tok"))
             (fresh_world Missing no_env checkins_network 0) in
  let o := mkOptions (Some 0%Z) (Some 0%Z) None None in
  truthy (accessToken w) = true
  /\ exists req,
       snd (getUserCheckins o w) = add_log (EvFetch req) w
       /\ In (units "limit", units "50") (req_query req)
       /\ has_param (units "afterTimestamp") req = false.
Proof.
  intros w o. split; [reflexivity|].
  destruct (getUserCheckins_defaults w o eq_refl)
    as (req & E & _ & _ & Hl & _ & Ha & _).
  exists req. split; [exact E|].
  split; [apply Hl; right; reflexivity | apply Ha; right; reflexivity].
Defined.

(** X11.  [getUserCheckins] returns only what a successful answer
    carries: if it returns [v], then a request was answered with an ok
    response whose body is JSON with [meta.code] equal to 200, and [v] is
    that body's [response.checkins.items].  Every other answer makes it
    throw. *)
Theorem getUserCheckins_returns_only_checked_items
  (o : checkins_options) (w : World) (v : value) (w' : World) :
  getUserCheckins o w = (Return v, w') ->
  exists w0 req r data q,
    network w0 (log w0) req = FetchResponse r
    /\ w' = add_log (EvFetch req) w0
    /\ ok r = true
    /\ JSON_parse (body r) = Some data
    /\ get_prop (get_prop data (units "meta")) (units "code") = VNum q
    /\ Qeq_bool q (inject_Z 200) = true
    /\ v = get_prop (get_prop (get_prop data (units "response"))
                             (units "checkins"))
                   (units "items").
Proof.
  intros E. unfold getUserCheckins in E.
  apply bind_Return_inv in E as (cached & w1 & _ & E).
  apply bind_Return_inv in E as (u & w0 & _ & E).
  cbv zeta in E.
  apply bind_Return_inv in E as (token & w2 & Eg & E).
  unfold get in Eg. inversion Eg; subst token w2. clear Eg.
  apply bind_Return_inv in E as (r & w3 & Ef & E).
  unfold fetch in Ef.
  match type of Ef with
  | context [network ?a ?b ?c] =>
      destruct (network a b c) as [|r0] eqn:En; [discriminate|]
  end.
  inversion Ef; subst r0 w3. clear Ef.
  destruct (ok r) eqn:Hok; cbn [negb] in E; [|discriminate].
  apply bind_Return_inv in E as (data & w4 & Ep & E).
  apply JSON_parse_M_Return_inv in Ep as (Ep & ->).
  apply bind_Return_inv in E as (meta & w5 & Em & E).
  apply get_prop_M_Return_inv in Em as (-> & ->).
  apply bind_Return_inv in E as (code & w6 & Ec & E).
  apply get_prop_M_Return_inv in Ec as (Ec & ->).
  destruct code as [| | |q| | |]; try discriminate.
  destruct (Qeq_bool q (inject_Z 200)) eqn:Hq; [|discriminate].
  apply bind_Return_inv in E as (resp & w7 & Er & E).
  apply get_prop_M_Return_inv in Er as (-> & ->).
  apply bind_Return_inv in E as (checkins & w8 & Ek & E).
  apply get_prop_M_Return_inv in Ek as (-> & ->).
  apply get_prop_M_Return_inv in E as (-> & ->).
  eexists w0, _, r, data, q.
  split; [exact En|]. split; [reflexivity|]. split; [exact Hok|].
  split; [exact Ep|]. split; [symmetry; exact Ec|].
  split; [exact Hq | reflexivity].
Qed.

Lemma getUserCheckins_returns_only_checked_items_witness :
  let w := set_accessToken (VStr (units "tok"))
             (fresh_world Missing no_env checkins_network 0) in
  let o := mkOptions (Some 2%Z) None None None in
  exists v w',
    getUserCheckins o w = (Return v, w')
    /\ exists w0 req r data q,
         network w0 (log w0) req = FetchResponse r
         /\ w' = add_log (EvFetch req) w0
         /\ ok r = true
         /\ JSON_parse (body r) = Some data
         /\ get_prop (get_prop data (units "meta")) (units "code") = VNum q
         /\ Qeq_bool q (inject_Z 200) = true
         /\ v = get_prop (get_prop (get_prop data (units "response"))
                                  (units "checkins"))
                        (units "items").
Proof.
  intros w o.
  destruct (getUserCheckins o w) as [[v|e|] w'] eqn:E.
  - exists v, w'. split; [reflexivity|].
    exact (getUserCheckins_returns_only_checked_items o w v w' E).
  - exfalso. vm_compute in E. discriminate.
  - exfalso. vm_compute in E. discriminate.
Defined.

(** ** The [check-auth-status] tool *)

Lemma defined_ret {A} (a : A) : defined (ret a).
Proof. intros w. discriminate. Qed.

Lemma defined_throw {A} e : defined (@throw A e).
Proof. intros w. discriminate. Qed.

Lemma defined_get {A} (f : World -> A) : defined (get f).
Proof. intros w. discriminate. Qed.

Lemma defined_modify f : defined (modify f).
Proof. intros w. discriminate. Qed.

Lemma defined_bind {A B} (c : M A) (k : A -> M B) :
  defined c -> (forall a, defined (k a)) -> defined (bind c k).
Proof.
  intros Hc Hk w. unfold bind. specialize (Hc w).
  destruct (c w) as [[a|e|] w1]; cbn [fst] in *.
  - apply Hk.
  - discriminate.
  - contradiction.
Qed.

Lemma defined_try_catch {A} (c : M A) (h : error -> M A) :
  defined c -> (forall e, defined (h e)) -> defined (try_catch c h).
Proof.
  intros Hc Hh w. unfold try_catch. specialize (Hc w).
  destruct (c w) as [[a|e|] w1]; cbn [fst] in *.
  - discriminate.
  - apply Hh.
  - contradiction.
Qed.

Lemma defined_fetch req : defined (fetch req).
Proof.
  intros w. unfold fetch. destruct (network w (log w) req); discriminate.
Qed.

Lemma defined_loadToken : defined loadToken.
Proof. intros w. apply (loadToken_frame w). Qed.

Lemma defined_hasToken : defined hasToken.
Proof.
  unfold hasToken.
  apply defined_bind; [apply defined_loadToken | intros; apply defined_ret].
Qed.

Lemma defined_checkAuth : defined checkAuth.
Proof.
  unfold checkAuth.
  apply defined_bind; [apply defined_get | intros cached].
  apply defined_bind.
  - destruct (negb (truthy cached)); [|apply defined_ret].
    apply defined_bind; [apply defined_loadToken | intros tokenInfo].
    destruct (negb (truthy tokenInfo)); [apply defined_ret|].
    apply defined_bind; [apply defined_modify | intros; apply defined_ret].
  - intros proceed. destruct (negb proceed); [apply defined_ret|].
    apply defined_try_catch; [|intros; apply defined_ret].
    apply defined_bind; [apply defined_get | intros token].
    apply defined_bind; [apply defined_fetch | intros; apply defined_ret].
Qed.

(** X12.  The [check-auth-status] tool always answers: whatever the
    token file, the directory and the network do, its handler returns one
    of its five results and never throws; the errors of the store, which
    [checkAuth] and [hasToken] let through, end in its error result. *)
Theorem check_auth_status_always_answers (w : World) :
  exists result w', check_auth_status w = (Return result, w').
Proof.
  unfold check_auth_status, try_catch.
  match goal with
  | |- context [match ?body w with _ => _ end] =>
      assert (Hd : defined body); [|specialize (Hd w); destruct (body w) as [[a|e|] w1]]
  end.
  - apply defined_bind; [apply defined_hasToken | intros present].
    destruct (negb present); [apply defined_ret|].
    apply defined_bind; [apply defined_checkAuth | intros isValid].
    destruct isValid; [|apply defined_ret].
    apply defined_bind; [apply defined_get | intros dir].
    apply defined_bind; [apply defined_get | intros e].
    apply defined_ret.
  - eexists. eexists. reflexivity.
  - eexists. eexists. reflexivity.
  - contradiction.
Qed.

(** X13.  The environment's token does not make the tool report a token.
    With no token file, whatever [FOURSQUARE_ACCESS_TOKEN] holds,
    [check-auth-status] answers "token not found" without calling the
    API when the storage location resolves; when the directory cannot be
    created it answers its error result with that system error, again
    without calling the API. *)
Theorem check_auth_status_needs_token_file (w : World) :
  token_file w = Missing ->
  (store_resolves w ->
   exists w', check_auth_status w = (Return StatusTokenNotFound, w')
              /\ no_request_since w w')
  /\ (forall e,
        truthy (arg (tokenPath w)) = false ->
        mkdir_error w = Some e -> e <> EEXIST ->
        check_auth_status w
        = (Return (StatusError (SysError e)), add_log EvMkdir w)).
Proof.
  intros Hf. split.
  - intros H. destruct (loadToken_missing w H Hf) as (w1 & L & Hn).
    exists w1. split; [|exact Hn].
    unfold check_auth_status, try_catch, hasToken.
    unfold bind at 1. unfold bind at 1. rewrite L. reflexivity.
  - intros e Hp Hm He.
    assert (L : loadToken w = (Throw (SysError e), add_log EvMkdir w)).
    { unfold loadToken. unfold bind at 1.
      rewrite (ensure_initialized_fails w e Hp Hm He). reflexivity. }
    unfold check_auth_status, try_catch, hasToken.
    unfold bind at 1. unfold bind at 1. rewrite L. reflexivity.
Qed.

Lemma check_auth_status_needs_token_file_witness :
  let w := fresh_world Missing (mkEnv None None (Some (units "V")))
                       accepting_network 0 in
  let w0 := set_mkdir_error (Some EACCES) w in
  store_resolves w /\ token_file w = Missing
  /\ (exists w', check_auth_status w = (Return StatusTokenNotFound, w')
                 /\ no_request_since w w')
  /\ check_auth_status w0
     = (Return (StatusError (SysError EACCES)), add_log EvMkdir w0).
Proof.
  intros w w0.
  assert (H : store_resolves w) by (right; left; reflexivity).
  split; [exact H|]. split; [reflexivity|]. split.
  - destruct (check_auth_status_needs_token_file w eq_refl) as (G & _).
    exact (G H).
  - destruct (check_auth_status_needs_token_file w0 eq_refl) as (_ & G).
    apply G; [reflexivity | reflexivity | discriminate].
Defined.

Lemma loadToken_present_world w data v :
  store_resolves w -> token_file w = Present data ->
  JSON_parse data = Some v ->
  exists w1,
    loadToken w = (Return v, w1)
    /\ same_outside w w1
    /\ truthy (arg (tokenPath w1)) = true.
Proof.
  intros H Hf Hv.
  destruct (ensure_initialized_resolves w H) as (w0 & E & Hs & Hp & _).
  pose proof Hs as (Hf0 & _).
  rewrite (loadToken_via_init w w0 E Hp), (load_after_init w0 Hp), Hf0, Hf, Hv.
  eexists. split; [reflexivity|]. split; [|exact Hp].
  unfold same_outside in *. cbn. exact Hs.
Qed.

(** X14.  The tool reports the source of the token from the environment
    alone.  When [FOURSQUARE_ACCESS_TOKEN] is set and a record is stored,
    [check-auth-status] answers "valid, taken from the environment
    variable", while the token it has just sent to the API is the stored
    one. *)
Theorem check_auth_status_reports_environment
  (w : World) (t : TokenInfo) (c : N) (s : jsstring) :
  store_resolves w -> valid_TokenInfo t ->
  token_file w = Present (JSON_stringify t) ->
  truthy (accessToken w) = false ->
  FOURSQUARE_ACCESS_TOKEN (env w) = Some (c :: s) ->
  (forall l r, exists resp,
      network w l r = FetchResponse resp /\ ok resp = true) ->
  exists w' req rest,
    check_auth_status w = (Return StatusValidFromEnv, w')
    /\ log w' = EvFetch req :: rest
    /\ req_bearer req = VStr (access_token t).
Proof.
  intros H Ht Hf Ha He Hn.
  pose proof (JSON_parse_stringify t Ht) as Hv.
  destruct (loadToken_present_world w _ _ H Hf Hv) as (w1 & L1 & Hs1 & Hp1).
  destruct Hs1 as (Hf1 & _ & _ & _ & _ & He1 & _ & Hn1 & Ha1).
  assert (L2 : loadToken w1
               = (Return (TokenInfo_value t), add_log EvReadFile w1))
    by (rewrite (load_after_init w1 Hp1), Hf1, Hf, Hv; reflexivity).
  assert (Ha1' : truthy (accessToken w1) = false) by (rewrite Ha1; exact Ha).
  destruct (checkAuth_uncached w1 _ _ Ha1' L2 eq_refl) as (req & Hb & C).
  rewrite get_access_token in *.
  cbn [network add_log] in C. rewrite Hn1 in C.
  destruct (Hn (log (set_accessToken (VStr (access_token t))
                       (add_log EvReadFile w1))) req)
    as (resp & Hr & Hok).
  rewrite Hr, Hok in C.
  exists (add_log (EvFetch req)
            (set_accessToken (VStr (access_token t)) (add_log EvReadFile w1))).
  exists req. eexists.
  split; [|split; [reflexivity | exact Hb]].
  unfold check_auth_status, try_catch, hasToken.
  unfold bind at 1. unfold bind at 1. rewrite L1.
  unfold ret at 1.
  change (TokenInfo_value t)
    with (VObj (match TokenInfo_value t with VObj ms => ms | _ => [] end)).
  cbn [negb]. unfold bind at 1. rewrite C.
  unfold bind, getConfigDir, get, ret.
  cbn [env add_log set_accessToken]. rewrite He1, He. reflexivity.
Qed.

Lemma check_auth_status_reports_environment_witness :
  let t := mkTokenInfo (units "S") 1700000000000 None in
  let w := fresh_world (Present (JSON_stringify t))
                       (mkEnv None None (Some (units "V")))
                       accepting_network 1700000000500 in
  exists w' req rest,
    check_auth_status w = (Return StatusValidFromEnv, w')
    /\ log w' = EvFetch req :: rest
    /\ req_bearer req = VStr (units "S").
Proof.
  intros t w.
  assert (H : store_resolves w) by (right; left; reflexivity).
  assert (Ht : valid_TokenInfo t).
  { split; [apply wf_units_ascii|]. split; unfold safe_integer; cbn; lia. }
  apply (check_auth_status_reports_environment w t 86 [] H Ht eq_refl eq_refl
           eq_refl).
  intros l r. eexists. split; reflexivity.
Defined.

End Requests.

(* ================================================================== *)
(** * More on the authorization flow *)
(* ================================================================== *)

Section FlowMore.

Local Open Scope M_scope.



(** ** The listener *)

Lemma listening_fire_timers_closed now fl :
  listening fl = false -> listening (fire_timers now fl) = false.
Proof.
  intros H. unfold fire_timers.
  assert (H1 : listening
                 (match filter (fun t => (t <=? now)%Z) (close_timers fl) with
                  | [] => fl
                  | _ => server_close fl
                  end) = false)
    by (destruct (filter _ (close_timers fl)); [exact H | reflexivity]).
  cbn [timeout_due set_timers].
  match goal with
  | |- context [timeout_due ?x] => destruct (timeout_due x) as [t|]
  end; [|exact H1].
  destruct (t <=? now)%Z; [|exact H1].
  rewrite listening_settle. reflexivity.
Qed.

Lemma listening_exchange_result fl fl' :
  listening fl = false -> exchange_result fl fl' -> listening fl' = false.
Proof.
  intros H [(e & ->) | (t & due & ->)];
    cbn [handler_done listening]; rewrite listening_settle;
    [reflexivity | exact H].
Qed.

Lemma listening_callback_handler_closed q fl :
  listening fl = false -> listening (callback_handler q fl) = false.
Proof.
  intros H. unfold callback_handler.
  destruct (truthy (arg (q_error q)));
    [|destruct (negb (truthy (arg (q_code q))))];
    cbn [handler_done listening set_awaiting];
    rewrite ?listening_settle; first [reflexivity | exact H].
Qed.

Lemma flow_step_stays_closed ev fl :
  listening fl = false ->
  returns (fun fl' => listening fl' = false) (flow_step ev fl).
Proof.
  intros H. destruct ev as [q| |i r|ms| |q|]; cbn [flow_step];
    [ | | | | rewrite H; apply returns_ret; exact H
            | destruct (connected fl); apply returns_ret;
              [apply listening_callback_handler_closed|]; exact H
            | destruct (connected fl); apply returns_ret; exact H ].
  - rewrite H. apply returns_ret. exact H.
  - rewrite H. apply returns_ret. exact H.
  - destruct (nth_error (awaiting fl) i); [|apply returns_ret; exact H].
    intros w fl' w' E.
    apply (listening_exchange_result
             (set_awaiting (remove_nth i (awaiting fl)) fl)); [exact H|].
    exact (exchange_continue_result r _ w fl' w' E).
  - apply returns_bind. intros now. apply returns_bind. intros _.
    apply returns_ret. apply listening_fire_timers_closed. exact H.
Qed.

(** X16.  A closed listener stays closed: no event of the flow (request,
    reply of the token endpoint, timer) opens it again, so after the
    first error, or a second after the first success, the port is
    released for good. *)
Theorem closed_listener_stays_closed (evs : list flow_event) :
  forall fl,
    listening fl = false ->
    returns (fun fl' => listening fl' = false) (flow_run evs fl).
Proof.
  induction evs as [|ev evs IH]; intros fl H; cbn [flow_run].
  - apply returns_ret. exact H.
  - apply returns_bind_with with (Q := fun fl' => listening fl' = false).
    + apply flow_step_stays_closed. exact H.
    + intros fl1 H1. apply IH. exact H1.
Qed.

Lemma closed_listener_stays_closed_witness :
  let w := fresh_world Missing client_env unreachable_network 1000 in
  let fl := server_close (started_flow 1000) in
  let evs := [Request_callback (mkQuery (Some (units "abc")) None);
              Elapse 400000; Request_root] in
  listening fl = false
  /\ exists fl' w', flow_run evs fl w = (Return fl', w')
                    /\ listening fl' = false.
Proof.
  intros w fl evs. split; [reflexivity|].
  destruct (flow_run evs fl w) as [[fl'|e|] w'] eqn:E.
  - exists fl', w'. split; [reflexivity|].
    exact (closed_listener_stays_closed evs fl eq_refl w fl' w' E).
  - exfalso. vm_compute in E. discriminate.
  - exfalso. vm_compute in E. discriminate.
Defined.

(** ** Errors inside the handler *)

Lemma never_throws_ret {A} (a : A) : never_throws (ret a).
Proof. intros w e. discriminate. Qed.

Lemma never_throws_bind {A B} (c : M A) (k : A -> M B) :
  never_throws c -> (forall a, never_throws (k a)) -> never_throws (bind c k).
Proof.
  intros Hc Hk w e. unfold bind. specialize (Hc w).
  destruct (c w) as [[a|e'|] w1]; cbn [fst] in *.
  - apply Hk.
  - exfalso. exact (Hc e' eq_refl).
  - discriminate.
Qed.

Lemma never_throws_try_catch {A} (c : M A) (h : error -> M A) :
  (forall e, never_throws (h e)) -> never_throws (try_catch c h).
Proof.
  intros Hh w e. unfold try_catch.
  destruct (c w) as [[a|e'|] w1]; cbn [fst].
  - discriminate.
  - apply Hh.
  - discriminate.
Qed.

Lemma never_throws_exchange_continue r fl :
  never_throws (exchange_continue r fl).
Proof.
  unfold exchange_continue.
  apply never_throws_bind; [|intros; apply never_throws_ret].
  apply never_throws_try_catch. intros e. apply never_throws_ret.
Qed.

Lemma never_throws_flow_step ev fl : never_throws (flow_step ev fl).
Proof.
  destruct ev as [q| |i r|ms| |q|]; cbn [flow_step];
    [ | | | | destruct (listening fl); apply never_throws_ret
            | destruct (connected fl); apply never_throws_ret
            | destruct (connected fl); apply never_throws_ret ].
  - destruct (listening fl); apply never_throws_ret.
  - destruct (listening fl); apply never_throws_ret.
  - destruct (nth_error (awaiting fl) i);
      [apply never_throws_exchange_continue | apply never_throws_ret].
  - apply never_throws_bind; [intros w e; discriminate | intros now].
    apply never_throws_bind; [intros w e; discriminate | intros _].
    apply never_throws_ret.
Qed.

(** X17.  Nothing escapes the callback handler.  Whatever fails while a
    callback is handled (the request to the token endpoint, its JSON, a
    reply that is null, the write of the token file), the handler catches
    it and rejects the promise: processing the events of a flow never
    throws. *)
Theorem flow_events_never_throw (evs : list flow_event) (fl : Flow) :
  never_throws (flow_run evs fl).
Proof.
  revert fl. induction evs as [|ev evs IH]; intros fl; cbn [flow_run].
  - apply never_throws_ret.
  - apply never_throws_bind; [apply never_throws_flow_step | intros fl1].
    apply IH.
Qed.

(** ** A flow whose port was taken *)

Lemma awaiting_settle s fl : awaiting (settle s fl) = awaiting fl.
Proof. unfold settle. destruct (promise fl); reflexivity. Qed.

Lemma connected_settle s fl : connected (settle s fl) = connected fl.
Proof. unfold settle. destruct (promise fl); reflexivity. Qed.

Lemma awaiting_fire_timers now fl :
  awaiting (fire_timers now fl) = awaiting fl.
Proof.
  unfold fire_timers.
  set (fl1 := match filter _ (close_timers fl) with
              | [] => fl
              | _ => server_close fl
              end).
  assert (H1 : awaiting fl1 = awaiting fl).
  { subst fl1. destruct (filter _ (close_timers fl)); reflexivity. }
  cbn [timeout_due set_timers].
  destruct (timeout_due fl1) as [t|]; [|exact H1].
  destruct (t <=? now)%Z; [|exact H1].
  rewrite awaiting_settle. exact H1.
Qed.

Lemma completed_fire_timers now fl :
  completed (fire_timers now fl) = completed fl.
Proof.
  unfold fire_timers.
  set (fl1 := match filter _ (close_timers fl) with
              | [] => fl
              | _ => server_close fl
              end).
  assert (H1 : completed fl1 = completed fl).
  { subst fl1. destruct (filter _ (close_timers fl)); reflexivity. }
  cbn [timeout_due set_timers].
  destruct (timeout_due fl1) as [t|]; [|exact H1].
  destruct (t <=? now)%Z; [|exact H1].
  rewrite completed_settle. exact H1.
Qed.

Lemma connected_fire_timers now fl :
  connected (fire_timers now fl) = connected fl.
Proof.
  unfold fire_timers.
  set (fl1 := match filter _ (close_timers fl) with
              | [] => fl
              | _ => server_close fl
              end).
  assert (H1 : connected fl1 = connected fl).
  { subst fl1. destruct (filter _ (close_timers fl)); reflexivity. }
  cbn [timeout_due set_timers].
  destruct (timeout_due fl1) as [t|]; [|exact H1].
  destruct (t <=? now)%Z; [|exact H1].
  rewrite connected_settle. exact H1.
Qed.

Lemma fire_timers_idle now fl :
  idle_closed fl ->
  idle_closed (fire_timers now fl)
  /\ completed (fire_timers now fl) = completed fl
  /\ forall s, promise fl = Some s -> promise (fire_timers now fl) = Some s.
Proof.
  intros (Hl & Ha & Hs). split; [split; [|split]|split].
  - apply listening_fire_timers_closed. exact Hl.
  - rewrite awaiting_fire_timers. exact Ha.
  - rewrite connected_fire_timers. exact Hs.
  - apply completed_fire_timers.
  - intros s Hp. apply promise_fire_timers. exact Hp.
Qed.

Lemma flow_step_idle ev fl w :
  idle_closed fl ->
  exists fl' w',
    flow_step ev fl w = (Return fl', w')
    /\ idle_closed fl' /\ same_store w w'
    /\ completed fl' = completed fl
    /\ forall s, promise fl = Some s -> promise fl' = Some s.
Proof.
  intros Hi. pose proof Hi as (Hl & Ha & Hn).
  destruct ev as [q| |i r|ms| |q|]; cbn [flow_step].
  - rewrite Hl. exists fl, w. repeat split; auto; apply Hi.
  - rewrite Hl. exists fl, w. repeat split; auto; apply Hi.
  - rewrite Ha. destruct i; cbn [nth_error];
      exists fl, w; repeat split; auto; apply Hi.
  - unfold bind, Date_now, get, modify, ret.
    destruct (fire_timers_idle (clock w + Z.max 0 ms) fl Hi)
      as (Hi' & Hc & Hp).
    eexists. eexists. split; [reflexivity|].
    split; [exact Hi'|]. split; [split; reflexivity|].
    split; [exact Hc | exact Hp].
  - rewrite Hl. exists fl, w. repeat split; auto; apply Hi.
  - rewrite Hn. exists fl, w. repeat split; auto; apply Hi.
  - rewrite Hn. exists fl, w. repeat split; auto; apply Hi.
Qed.

Lemma flow_run_idle evs :
  forall fl w,
    idle_closed fl ->
    exists fl' w',
      flow_run evs fl w = (Return fl', w')
      /\ idle_closed fl' /\ same_store w w'
      /\ completed fl' = completed fl
      /\ forall s, promise fl = Some s -> promise fl' = Some s.
Proof.
  induction evs as [|ev evs IH]; intros fl w Hi; cbn [flow_run].
  - exists fl, w. repeat split; auto; apply Hi.
  - destruct (flow_step_idle ev fl w Hi)
      as (fl1 & w1 & E1 & Hi1 & (Hf1 & Hl1) & Hc1 & Hp1).
    destruct (IH fl1 w1 Hi1) as (fl2 & w2 & E2 & Hi2 & (Hf2 & Hl2) & Hc2 & Hp2).
    exists fl2, w2. unfold bind. rewrite E1.
    split; [exact E2|]. split; [exact Hi2|].
    split; [split; congruence|]. split; [congruence|].
    intros s Hs. apply Hp2, Hp1, Hs.
Qed.

Lemma authenticate_Return_inv
  (clientId clientSecret : option jsstring) (port_busy : bool)
  (w w' : World) (fl : Flow) :
  authenticate clientId clientSecret port_busy w = (Return fl, w') ->
  w' = w
  /\ fl = (let fl0 := mkFlow (negb port_busy) None [] []
                             (Some (clock w + 5 * 60 * 1000)%Z) [] 0 false in
           if port_busy then settle (Rejected AddressInUse) fl0 else fl0).
Proof.
  unfold authenticate, getEnvConfig_clientId,
    getEnvConfig_clientSecret, bind, get, ret.
  destruct clientId as [[|c1 s1]|]; destruct clientSecret as [[|c2 s2]|];
    cbn [arg truthy or_empty negb orb];
    destruct (FOURSQUARE_CLIENT_ID (env w)) as [[|e1 t1]|];
    destruct (FOURSQUARE_CLIENT_SECRET (env w)) as [[|e2 t2]|];
    cbn [arg truthy or_empty negb orb];
    unfold Date_now, get, throw; intros E;
    first [discriminate | inversion E; split; reflexivity].
Qed.

(** X18.  When the port is already in use the flow fails fast and does
    nothing else: it is rejected with "address in use" from the start,
    and whatever happens afterwards (requests to the port, which reach
    the other process, time passing, the timeout) no handler runs, the
    token file is not touched, no effect is added, and the rejection
    stays. *)
Theorem port_in_use_fails_fast
  (clientId clientSecret : option jsstring) (evs : list flow_event)
  (w : World) (fl : Flow) :
  authenticate clientId clientSecret true w = (Return fl, w) ->
  exists fl' w',
    flow_run evs fl w = (Return fl', w')
    /\ promise fl' = Some (Rejected AddressInUse)
    /\ completed fl' = 0%nat
    /\ listening fl' = false
    /\ same_store w w'.
Proof.
  intros E.
  assert (Hfl : idle_closed fl /\ completed fl = 0%nat
                /\ promise fl = Some (Rejected AddressInUse)).
  { apply authenticate_Return_inv in E. destruct E as (_ & ->).
    repeat split. }
  destruct Hfl as (Hi & Hc & Hp).
  destruct (flow_run_idle evs fl w Hi) as (fl' & w' & R & (Hl' & _) & Hs & Hc' & Hp').
  exists fl', w'. split; [exact R|].
  split; [apply Hp'; exact Hp|]. split; [congruence|].
  split; [exact Hl' | exact Hs].
Qed.

Lemma port_in_use_fails_fast_witness :
  let w := fresh_world Missing client_env unreachable_network 1000 in
  let evs := [Request_callback (mkQuery (Some (units "abc")) None);
              Exchange_reply 0 (token_reply (units "tok"));
              Elapse 300001] in
  exists fl,
    authenticate None None true w = (Return fl, w)
    /\ exists fl' w',
         flow_run evs fl w = (Return fl', w')
         /\ promise fl' = Some (Rejected AddressInUse)
         /\ completed fl' = 0%nat
         /\ listening fl' = false
         /\ same_store w w'.
Proof.
  intros w evs.
  exists (settle (Rejected AddressInUse)
            (mkFlow false None [] [] (Some 301000%Z) [] 0 false)).
  split; [vm_compute; reflexivity|].
  apply (port_in_use_fails_fast None None evs w). vm_compute. reflexivity.
Defined.

(** ** The five-minute timeout *)

Lemma keeps_clock_ret {A} (a : A) : keeps_clock (ret a).
Proof. intros w. reflexivity. Qed.

Lemma keeps_clock_throw {A} e : keeps_clock (@throw A e).
Proof. intros w. reflexivity. Qed.

Lemma keeps_clock_get {A} (f : World -> A) : keeps_clock (get f).
Proof. intros w. reflexivity. Qed.

Lemma keeps_clock_bind {A B} (c : M A) (k : A -> M B) :
  keeps_clock c -> (forall a, keeps_clock (k a)) -> keeps_clock (bind c k).
Proof.
  intros Hc Hk w. unfold bind. specialize (Hc w).
  destruct (c w) as [[a|e|] w1]; cbn [snd] in *; [|exact Hc|exact Hc].
  rewrite Hk. exact Hc.
Qed.

Lemma keeps_clock_try_catch {A} (c : M A) (h : error -> M A) :
  keeps_clock c -> (forall e, keeps_clock (h e)) -> keeps_clock (try_catch c h).
Proof.
  intros Hc Hh w. unfold try_catch. specialize (Hc w).
  destruct (c w) as [[a|e|] w1]; cbn [snd] in *; [exact Hc| |exact Hc].
  rewrite Hh. exact Hc.
Qed.

Lemma keeps_clock_pure {A} (c : M A) : pure_M c -> keeps_clock c.
Proof. intros H w. rewrite H. reflexivity. Qed.

Lemma keeps_clock_fs_mkdir : keeps_clock fs_mkdir.
Proof. intros w. unfold fs_mkdir. destruct (mkdir_error w); reflexivity. Qed.

Lemma keeps_clock_fs_writeFile data : keeps_clock (fs_writeFile data).
Proof.
  intros w. unfold fs_writeFile.
  destruct (write_error w) as [[e|e n]|]; reflexivity.
Qed.

Lemma keeps_clock_ensureConfigDir : keeps_clock ensureConfigDir.
Proof.
  unfold ensureConfigDir, getConfigDir.
  apply keeps_clock_bind; [apply keeps_clock_get | intros dir].
  apply keeps_clock_bind; [|intros; apply keeps_clock_ret].
  apply keeps_clock_try_catch; [apply keeps_clock_fs_mkdir|].
  intros e. destruct (error_code e) as [[]|];
    first [apply keeps_clock_ret | apply keeps_clock_throw].
Qed.

Lemma keeps_clock_ensure_initialized : keeps_clock ensure_initialized.
Proof.
  unfold ensure_initialized.
  apply keeps_clock_bind; [apply keeps_clock_get | intros p].
  destruct (negb (truthy (arg p))); [|apply keeps_clock_ret].
  unfold initialize, getTokenPath.
  apply keeps_clock_bind; [apply keeps_clock_ensureConfigDir | intros _].
  apply keeps_clock_bind.
  - apply keeps_clock_bind; [apply keeps_clock_ensureConfigDir | intros d].
    apply keeps_clock_ret.
  - intros p' w. reflexivity.
Qed.

Lemma keeps_clock_saveToken_value v : keeps_clock (saveToken_value v).
Proof.
  unfold saveToken_value.
  apply keeps_clock_bind; [apply keeps_clock_ensure_initialized | intros _].
  destruct (JSON_stringify_value v);
    [apply keeps_clock_fs_writeFile | apply keeps_clock_throw].
Qed.

Lemma keeps_clock_exchange_continue r fl :
  keeps_clock (exchange_continue r fl).
Proof.
  unfold exchange_continue.
  apply keeps_clock_bind; [|intros; apply keeps_clock_ret].
  apply keeps_clock_try_catch; [|intros; apply keeps_clock_ret].
  apply keeps_clock_bind.
  - destruct r; first [apply keeps_clock_ret | apply keeps_clock_throw].
  - intros tokenData.
    apply keeps_clock_bind; [apply keeps_clock_pure, pure_get_prop_M|].
    intros err. destruct (truthy err); [apply keeps_clock_throw|].
    apply keeps_clock_bind; [apply keeps_clock_pure, pure_get_prop_M|].
    intros token. destruct (negb (truthy token)); [apply keeps_clock_throw|].
    apply keeps_clock_bind; [apply keeps_clock_get | intros now].
    apply keeps_clock_bind; [apply keeps_clock_saveToken_value | intros _].
    apply keeps_clock_ret.
Qed.

Lemma timeout_due_settle x fl : timeout_due (settle x fl) = timeout_due fl.
Proof. unfold settle. destruct (promise fl); reflexivity. Qed.

Lemma timeout_due_callback_handler q fl :
  timeout_due (callback_handler q fl) = timeout_due fl.
Proof.
  unfold callback_handler.
  destruct (truthy (arg (q_error q)));
    [|destruct (negb (truthy (arg (q_code q))))];
    cbn [handler_done timeout_due set_awaiting];
    rewrite ?timeout_due_settle; reflexivity.
Qed.

Lemma timeout_due_exchange_result fl fl' :
  exchange_result fl fl' -> timeout_due fl' = timeout_due fl.
Proof.
  intros [(e & ->) | (t & due & ->)];
    cbn [handler_done timeout_due]; rewrite timeout_due_settle; reflexivity.
Qed.

Lemma promise_settle_some x fl : promise (settle x fl) <> None.
Proof.
  unfold settle. destruct (promise fl) eqn:E; [rewrite E|]; discriminate.
Qed.

(** The timeout when the timers fire: due, it closes and settles; not
    due, it stays armed. *)
Lemma fire_timers_deadline now fl d :
  timeout_due fl = Some d ->
  if (d <=? now)%Z
  then listening (fire_timers now fl) = false
       /\ promise (fire_timers now fl) <> None
  else timeout_due (fire_timers now fl) = Some d.
Proof.
  intros H. unfold fire_timers.
  set (fl1 := match filter _ (close_timers fl) with
              | [] => fl
              | _ => server_close fl
              end).
  assert (H1 : timeout_due fl1 = Some d).
  { subst fl1. destruct (filter _ (close_timers fl)); exact H. }
  cbn [timeout_due set_timers]. rewrite H1.
  destruct (d <=? now)%Z.
  - split; [rewrite listening_settle; reflexivity | apply promise_settle_some].
  - reflexivity.
Qed.

Lemma promise_stays_settled fl fl' :
  (forall s, promise fl = Some s -> promise fl' = Some s) ->
  promise fl <> None -> promise fl' <> None.
Proof.
  intros H N. destruct (promise fl) as [s|]; [|contradiction].
  rewrite (H s eq_refl). discriminate.
Qed.

Lemma flow_step_deadline d ev fl w fl' w' :
  flow_step ev fl w = (Return fl', w') ->
  before_deadline_or_over d fl w -> before_deadline_or_over d fl' w'.
Proof.
  intros E [(Ht & Hc) | (Hl & Hp)].
  - destruct ev as [q| |i r|ms| |q|]; cbn [flow_step] in E;
      [ | | | | destruct (listening fl); inversion E; subst; left;
                split; assumption
              | destruct (connected fl); inversion E; subst; left;
                rewrite ?timeout_due_callback_handler; split; assumption
              | destruct (connected fl); inversion E; subst; left;
                split; assumption ].
    + destruct (listening fl); inversion E; subst; left;
        rewrite ?timeout_due_callback_handler; split; assumption.
    + destruct (listening fl); inversion E; subst; left; split; assumption.
    + destruct (nth_error (awaiting fl) i);
        [|inversion E; subst; left; split; assumption].
      pose proof (exchange_continue_result r _ _ _ _ E) as R.
      pose proof (keeps_clock_exchange_continue r
                    (set_awaiting (remove_nth i (awaiting fl)) fl) w) as K.
      rewrite E in K. cbn [snd] in K.
      left. split; [|rewrite K; exact Hc].
      rewrite (timeout_due_exchange_result _ _ R). exact Ht.
    + unfold bind, Date_now, get, modify, ret in E. inversion E; subst.
      pose proof (fire_timers_deadline (clock w + Z.max 0 ms) fl d Ht) as F.
      destruct (Z.leb_spec d (clock w + Z.max 0 ms)).
      * right. exact F.
      * left. split; [exact F | exact H].
  - right. split.
    + exact (flow_step_stays_closed ev fl Hl w fl' w' E).
    + apply (promise_stays_settled fl); [|exact Hp].
      intros s Hs. exact (flow_step_keeps_settlement ev fl s Hs w fl' w' E).
Qed.

Lemma flow_run_deadline d evs :
  forall fl w fl' w',
    flow_run evs fl w = (Return fl', w') ->
    before_deadline_or_over d fl w -> before_deadline_or_over d fl' w'.
Proof.
  induction evs as [|ev evs IH]; intros fl w fl' w' E H; cbn [flow_run] in E.
  - inversion E; subst. exact H.
  - unfold bind in E.
    destruct (flow_step ev fl w) as [[fl1|e|] w1] eqn:E1; try discriminate.
    exact (IH fl1 w1 fl' w' E (flow_step_deadline d ev fl w fl1 w1 E1 H)).
Qed.

(** X19.  Five minutes end every flow.  Whatever callbacks, replies and
    pauses a flow sees, once the clock has reached the start plus
    300 000 ms the listener is closed and the promise is settled: the
    timeout timer closes the server and rejects, unless the flow was
    over before. *)
Theorem flow_is_over_after_five_minutes
  (clientId clientSecret : option jsstring) (port_busy : bool)
  (evs : list flow_event) (w w' : World) (fl fl' : Flow) :
  authenticate clientId clientSecret port_busy w = (Return fl, w) ->
  flow_run evs fl w = (Return fl', w') ->
  (clock w + 300000 <= clock w')%Z ->
  listening fl' = false /\ promise fl' <> None.
Proof.
  intros A R Hc.
  assert (H0 : before_deadline_or_over (clock w + 300000) fl w).
  { left. apply authenticate_Return_inv in A. destruct A as (_ & ->).
    split; [destruct port_busy; reflexivity | lia]. }
  destruct (flow_run_deadline _ evs fl w fl' w' R H0) as [(_ & Hlt) | H].
  - lia.
  - exact H.
Qed.

Lemma flow_is_over_after_five_minutes_witness :
  let w := fresh_world Missing client_env unreachable_network 1000 in
  let evs := [Request_callback (mkQuery (Some (units "abc")) None);
              Elapse 300000] in
  exists fl fl' w',
    authenticate None None false w = (Return fl, w)
    /\ flow_run evs fl w = (Return fl', w')
    /\ (clock w + 300000 <= clock w')%Z
    /\ listening fl' = false /\ promise fl' <> None.
Proof.
  intros w evs.
  pose (fl := mkFlow true None [] [] (Some 301000%Z) [] 0 false).
  pose (fl' := match fst (flow_run evs fl w) with
               | Return f => f
               | _ => fl
               end).
  pose (w' := snd (flow_run evs fl w)).
  assert (A : authenticate None None false w = (Return fl, w))
    by (vm_compute; reflexivity).
  assert (R : flow_run evs fl w = (Return fl', w'))
    by (vm_compute; reflexivity).
  assert (Hc : (clock w + 300000 <= clock w')%Z)
    by (vm_compute; discriminate).
  exists fl, fl', w'. split; [exact A|]. split; [exact R|].
  split; [exact Hc|].
  exact (flow_is_over_after_five_minutes None None false evs w w' fl fl'
           A R Hc).
Defined.

Lemma flow_step_waiting d ev fl w :
  no_callback ev = true -> waiting_until d fl w ->
  exists fl' w',
    flow_step ev fl w = (Return fl', w')
    /\ waiting_until d fl' w' /\ same_store w w'.
Proof.
  intros Hev (Ha & Hct & Hn & Hs).
  destruct ev as [q| |i r|ms| |q|]; cbn [flow_step];
    [discriminate| | | | |discriminate|].
  - destruct (listening fl) eqn:Hl; eexists; eexists;
      (split; [reflexivity|]);
      (split; [|split; reflexivity]);
      (split; [exact Ha|]); (split; [exact Hct|]); (split; [exact Hn|]);
      cbn [res_send connect timeout_due listening promise]; rewrite ?Hl;
      exact Hs.
  - rewrite Ha. destruct i; cbn [nth_error]; exists fl, w;
      (split; [reflexivity|]);
      (split; [|split; reflexivity]);
      (split; [exact Ha|]); (split; [exact Hct|]); (split; [exact Hn|]);
      exact Hs.
  - unfold bind, Date_now, get, modify, ret.
    eexists. eexists. split; [reflexivity|].
    split; [|split; reflexivity].
    destruct fl as [l p a c t s n k]. cbn in Ha, Hct, Hn, Hs. subst a c n.
    unfold waiting_until, fire_timers.
    cbn [close_timers filter timeout_due set_timers server_close listening
         promise awaiting sent completed clock set_clock].
    destruct Hs as [(Hlt & -> & -> & ->) | (Hge & -> & -> & ->)].
    + cbn [timeout_due]. destruct (Z.leb_spec d (clock w + Z.max 0 ms)).
      * unfold settle.
        cbn [promise listening awaiting close_timers timeout_due sent completed].
        repeat split. right. repeat split. exact H.
      * cbn [promise listening awaiting close_timers timeout_due sent completed].
        repeat split. left. repeat split. exact H.
    + cbn [promise listening awaiting close_timers timeout_due sent completed].
      repeat split. right. repeat split. lia.
  - destruct (listening fl) eqn:Hl; eexists; eexists;
      (split; [reflexivity|]);
      (split; [|split; reflexivity]);
      (split; [exact Ha|]); (split; [exact Hct|]); (split; [exact Hn|]);
      cbn [connect timeout_due listening promise]; rewrite ?Hl; exact Hs.
  - destruct (connected fl); eexists; eexists;
      (split; [reflexivity|]);
      (split; [|split; reflexivity]);
      (split; [exact Ha|]); (split; [exact Hct|]); (split; [exact Hn|]);
      exact Hs.
Qed.

Lemma flow_run_waiting d evs :
  forall fl w,
    forallb no_callback evs = true -> waiting_until d fl w ->
    exists fl' w',
      flow_run evs fl w = (Return fl', w')
      /\ waiting_until d fl' w' /\ same_store w w'.
Proof.
  induction evs as [|ev evs IH]; intros fl w Hev H; cbn [flow_run].
  - exists fl, w. split; [reflexivity|]. split; [exact H | split; reflexivity].
  - cbn [forallb] in Hev. apply andb_true_iff in Hev. destruct Hev as (He & Hr).
    destruct (flow_step_waiting d ev fl w He H) as (fl1 & w1 & E1 & H1 & S1 & L1).
    destruct (IH fl1 w1 Hr H1) as (fl2 & w2 & E2 & H2 & S2 & L2).
    exists fl2, w2. unfold bind. rewrite E1.
    split; [exact E2|]. split; [exact H2|]. split; congruence.
Qed.

(** X20.  The timeout fires at five minutes, not before.  A flow that
    gets no redirect callback keeps listening with its promise pending
    for as long as the clock is below the start plus 300 000 ms, and from
    then on it is closed and rejected with the timeout error.  Asking
    for the root page does not change that, and the token file and the
    recorded effects stay as they were. *)
Theorem timeout_fires_at_five_minutes
  (clientId clientSecret : option jsstring) (evs : list flow_event)
  (w : World) (fl : Flow) :
  authenticate clientId clientSecret false w = (Return fl, w) ->
  forallb no_callback evs = true ->
  exists fl' w',
    flow_run evs fl w = (Return fl', w')
    /\ same_store w w'
    /\ listening fl' = (clock w' <? clock w + 300000)%Z
    /\ promise fl' = (if (clock w' <? clock w + 300000)%Z then None
                      else Some (Rejected FlowTimeoutError)).
Proof.
  intros A Hev.
  assert (H0 : waiting_until (clock w + 300000) fl w).
  { apply authenticate_Return_inv in A. destruct A as (_ & ->).
    cbn. repeat split. left. repeat split. lia. }
  destruct (flow_run_waiting _ evs fl w Hev H0)
    as (fl' & w' & R & (_ & _ & _ & Hs) & Hst).
  exists fl', w'. split; [exact R|]. split; [exact Hst|].
  destruct Hs as [(Hlt & _ & -> & ->) | (Hge & _ & -> & ->)].
  - apply Z.ltb_lt in Hlt. rewrite Hlt. split; reflexivity.
  - apply Z.ltb_ge in Hge. rewrite Hge. split; reflexivity.
Qed.

Lemma timeout_fires_at_five_minutes_witness :
  let w := fresh_world Missing client_env unreachable_network 1000 in
  let evs := [Elapse 299999; Request_root; Elapse 1] in
  exists fl,
    authenticate None None false w = (Return fl, w)
    /\ forallb no_callback evs = true
    /\ exists fl' w',
         flow_run evs fl w = (Return fl', w')
         /\ same_store w w'
         /\ listening fl' = (clock w' <? clock w + 300000)%Z
         /\ promise fl' = (if (clock w' <? clock w + 300000)%Z then None
                           else Some (Rejected FlowTimeoutError)).
Proof.
  intros w evs.
  exists (mkFlow true None [] [] (Some 301000%Z) [] 0 false).
  split; [vm_compute; reflexivity|]. split; [reflexivity|].
  apply (timeout_fires_at_five_minutes None None evs w);
    [vm_compute; reflexivity | reflexivity].
Defined.

(** ** The exchange and the token file *)

(** X21.  The token file changes only when the exchange got a token.
    The rest of the handler always returns, and if it changed the token
    file, then the reply was JSON without a truthy [error] and with a
    truthy [access_token] (a string or not: nothing checks its type),
    and the file holds the serialized [{ access_token, created_at: now }]
    or, when the write failed after it had opened the file, what that
    failure left of it.  A failed fetch, a body
    that is not JSON, a null reply, an [error] field (even beside a
    token), a missing or empty token: none of them touches the file. *)
Theorem token_file_changes_only_on_success
  (r : exchange_reply) (fl : Flow) (w : World) :
  exists fl' w',
    exchange_continue r fl w = (Return fl', w')
    /\ (token_file w' <> token_file w ->
        exists v text,
          r = ReplyJson v
          /\ truthy (get_prop v (units "error")) = false
          /\ truthy (get_prop v k_access_token) = true
          /\ JSON_stringify_value
               (tokenInfo_of (get_prop v k_access_token) (clock w))
             = Some text
          /\ (token_file w' = Present text
              \/ exists e found,
                   write_error w = Some (FailsAfterOpen e found)
                   /\ token_file w' = Present found)).
Proof.
  destruct r as [| |v];
    try (eexists; eexists; split; [reflexivity | intros N; contradiction]).
  assert (C : v = VNull \/ v = VUndefined \/ (v <> VNull /\ v <> VUndefined))
    by (destruct v; auto; right; right; split; discriminate).
  destruct C as [-> | [-> | (N1 & N2)]];
    try (eexists; eexists; split; [reflexivity | intros N; contradiction]).
  rewrite (exchange_continue_json v fl w N1 N2).
  destruct (truthy (get_prop v (units "error"))) eqn:He;
    [eexists; eexists; split; [reflexivity | intros N; contradiction]|].
  destruct (truthy (get_prop v k_access_token)) eqn:Ht; cbn [negb];
    [|eexists; eexists; split; [reflexivity | intros N; contradiction]].
  destruct (JSON_stringify_value_object
              [(k_access_token, get_prop v k_access_token);
               (k_created_at, VNum (inject_Z (clock w)))]) as (text & Hd).
  change (JSON_stringify_value
            (tokenInfo_of (get_prop v k_access_token) (clock w)) = Some text)
    in Hd.
  destruct (saveToken_value_outcome _ text w Hd)
    as (w0 & Hf & Hwe & _ & [(e & _ & ->) | (_ & ->)]).
  - eexists. eexists. split; [reflexivity|]. intros N. contradiction.
  - unfold fs_writeFile. rewrite Hwe.
    destruct (write_error w) as [[e|e n]|]; eexists; eexists;
      (split; [reflexivity|]); cbn [token_file set_token_file add_log].
    + intros N. contradiction.
    + intros _. exists v, text. repeat (split; [first [reflexivity | assumption]|]).
      right. exists e, n. split; reflexivity.
    + intros _. exists v, text. repeat (split; [first [reflexivity | assumption]|]).
      left. reflexivity.
Qed.

Lemma token_file_changes_only_on_success_witness :
  let w := fresh_world Missing client_env unreachable_network 1700000000000 in
  let fl := started_flow 1700000000000 in
  let r := ReplyJson (VObj [(k_access_token, VNum (inject_Z 12345));
                            (units "scope", VStr (units "all"))]) in
  exists fl' w',
    exchange_continue r fl w = (Return fl', w')
    /\ token_file w' <> token_file w
    /\ exists v text,
         r = ReplyJson v
         /\ truthy (get_prop v (units "error")) = false
         /\ truthy (get_prop v k_access_token) = true
         /\ JSON_stringify_value
              (tokenInfo_of (get_prop v k_access_token) (clock w))
            = Some text
         /\ (token_file w' = Present text
             \/ exists e found,
                  write_error w = Some (FailsAfterOpen e found)
                  /\ token_file w' = Present found).
Proof.
  intros w fl r.
  destruct (token_file_changes_only_on_success r fl w) as (fl' & w' & E & H).
  assert (Hw : w' = snd (exchange_continue r fl w)) by (rewrite E; reflexivity).
  assert (Hne : token_file w' <> token_file w)
    by (rewrite Hw; vm_compute; discriminate).
  exists fl', w'. split; [exact E|]. split; [exact Hne|]. exact (H Hne).
Defined.

Lemma nth_error_app_length {A} (l : list A) x :
  nth_error (l ++ [x]) (List.length l) = Some x.
Proof. induction l as [|y l IH]; [reflexivity | exact IH]. Qed.

Lemma remove_nth_app_length {A} (l : list A) x :
  remove_nth (List.length l) (l ++ [x]) = l.
Proof.
  induction l as [|y l IH]; [reflexivity|].
  cbn [List.length app remove_nth]. rewrite IH. reflexivity.
Qed.

Lemma promise_settle_cases x fl :
  promise (settle x fl) = match promise fl with
                          | Some s => Some s
                          | None => Some x
                          end.
Proof. unfold settle. destruct (promise fl) eqn:E; [exact E | reflexivity]. Qed.

(** A callback with a code and no error on a listening flow, followed by
    the reply to its exchange. *)
Lemma callback_then_reply code r fl w :
  listening fl = true -> code <> [] ->
  flow_run [Request_callback (mkQuery (Some code) None);
            Exchange_reply (List.length (awaiting fl)) r] fl w
  = bind (exchange_continue r (set_awaiting (awaiting fl) (connect fl)))
         (fun fl' => ret fl') w.
Proof.
  intros Hl Hc. cbn [flow_run flow_step]. rewrite Hl.
  unfold bind at 1. unfold ret at 1.
  unfold callback_handler. cbn [q_error q_code arg truthy].
  destruct code as [|c cs]; [contradiction|]. cbn [negb or_empty].
  cbn [awaiting set_awaiting].
  rewrite nth_error_app_length, remove_nth_app_length.
  reflexivity.
Qed.

(** X22.  A successful authorization leaves a token that is there and
    stays valid.  On a listening flow, when the storage location
    resolves and the write does not fail, a callback with a code whose
    exchange is answered with a token (no truthy [error], a non-empty
    string as [access_token]) stores the record made of that token and
    the current time: [loadToken] afterwards returns this record, and
    [isTokenValid] answers true at every later (or earlier) time, since
    the flow never records an [expires_in].  The promise is resolved
    with the record if it was still pending; a promise that had settled
    before keeps its result, and the record is stored all the same. *)
Theorem authorized_token_is_stored_and_stays_valid
  (code tok : jsstring) (v : value) (fl : Flow) (w : World) :
  listening fl = true -> code <> [] ->
  truthy (get_prop v (units "error")) = false ->
  get_prop v k_access_token = VStr tok -> tok <> [] ->
  wf_jsstring tok -> safe_integer (clock w) ->
  store_resolves w -> write_error w = None ->
  let t := mkTokenInfo tok (clock w) None in
  exists fl' w',
    flow_run [Request_callback (mkQuery (Some code) None);
              Exchange_reply (List.length (awaiting fl)) (ReplyJson v)] fl w
    = (Return fl', w')
    /\ promise fl' = match promise fl with
                     | Some s => Some s
                     | None => Some (Resolved t)
                     end
    /\ token_file w' = Present (JSON_stringify t)
    /\ (exists w2, loadToken w' = (Return (TokenInfo_value t), w2))
    /\ forall now, exists w3,
         isTokenValid (set_clock now w') = (Return true, w3).
Proof.
  intros Hl Hc He Hv Ht Hwf Hsafe Hres Hw t.
  assert (Hvalid : valid_TokenInfo t).
  { split; [exact Hwf|]. split; [exact Hsafe | exact I]. }
  destruct (saveToken_writes w t Hres Hw) as (w1 & S1 & Hf & Hpath & _).
  assert (Htruthy : truthy (get_prop v k_access_token) = true).
  { rewrite Hv. destruct tok; [contradiction | reflexivity]. }
  assert (S2 : saveToken_value
                 (tokenInfo_of (get_prop v k_access_token) (clock w)) w
               = (Return tt, w1)).
  { rewrite Hv.
    change (tokenInfo_of (VStr tok) (clock w)) with (TokenInfo_value t).
    rewrite (saveToken_value_TokenInfo t Hvalid). exact S1. }
  rewrite (callback_then_reply code _ fl w Hl Hc).
  unfold bind at 1.
  rewrite (exchange_continue_success _ w v w1 He Htruthy S2).
  eexists. eexists. split; [reflexivity|].
  split.
  { rewrite Hv. cbn [handler_done promise].
    rewrite promise_settle_cases. reflexivity. }
  split; [exact Hf|].
  split.
  { eexists. rewrite (load_after_init w1 Hpath), Hf.
    rewrite (JSON_parse_stringify t Hvalid). reflexivity. }
  intros now.
  assert (L : loadToken (set_clock now w1)
              = (Return (TokenInfo_value t), add_log EvReadFile (set_clock now w1))).
  { rewrite (load_after_init (set_clock now w1) Hpath).
    cbn [token_file set_clock]. rewrite Hf.
    rewrite (JSON_parse_stringify t Hvalid). reflexivity. }
  eexists. rewrite (isTokenValid_loaded _ _ t L). reflexivity.
Qed.

Lemma authorized_token_is_stored_and_stays_valid_witness :
  let w := fresh_world Missing client_env unreachable_network 1700000000000 in
  let fl := started_flow 1700000000000 in
  let v := VObj [(k_access_token, VStr (units "tok"))] in
  let t := mkTokenInfo (units "tok") 1700000000000 None in
  exists fl' w',
    flow_run [Request_callback (mkQuery (Some (units "abc")) None);
              Exchange_reply 0 (ReplyJson v)] fl w = (Return fl', w')
    /\ promise fl' = Some (Resolved t)
    /\ token_file w' = Present (JSON_stringify t)
    /\ (exists w2, loadToken w' = (Return (TokenInfo_value t), w2))
    /\ forall now, exists w3,
         isTokenValid (set_clock now w') = (Return true, w3).
Proof.
  intros w fl v t.
  apply (authorized_token_is_stored_and_stays_valid
           (units "abc") (units "tok") v fl w);
    try reflexivity; try discriminate.
  - apply wf_units_ascii.
  - unfold safe_integer. cbn. lia.
  - right. left. reflexivity.
Defined.



End FlowMore.
